(** * Numerical integration dashboard: quadrature rules, convergence analysis,
      expression normalisation and the dashboard's input handlers.

    The Python services of the backend ([trapezoidal_rule], [midpoint_rule],
    [simpsons_rule], [get_visualization_data], [analyze_convergence]) and the
    React handlers of the frontend ([normalizeForBackend],
    [handleCustomNChange], [handleCustomNBlur], [handleMethodToggle]) are
    embedded as Rocq functions.  Python floats are idealised as the real
    numbers of the Standard Library ("exact arithmetic"); where a property
    depends on NaN or on an infinity, the services are taken on reals
    extended with these special values ([pyfloat], [Special]).  Python
    exceptions are the [Raise] branch of [result]. *)

From Stdlib Require Import Reals Lra Lia List Arith ZArith Bool String Ascii.
From Stdlib Require Import RiemannInt DecimalString Sorted Permutation.
Import ListNotations.

Set Implicit Arguments.

(** ** Python values that can fail *)

Inductive exn : Type :=
| ZeroDivisionError
| IndexError
| ValueError
| InvalidExpressionError (construct : string).

Inductive result (A : Type) : Type :=
| Ok (v : A)
| Raise (e : exn).

Arguments Ok {A} v.
Arguments Raise {A} e.

Definition bind {A B : Type} (r : result A) (k : A -> result B) : result B :=
  match r with
  | Ok v => k v
  | Raise e => Raise e
  end.

Notation "'let*' x ':=' r 'in' k" := (bind r (fun x => k))
  (at level 10, x name, r at level 100, k at level 200).

(** ** The fragments of Python and NumPy the services use *)

Module Py.

(** [range(n)] and [range(start, stop, step)] for a positive step: the
    elements [start + step * i] that stay below [stop]. *)
Definition range (n : nat) : list nat := seq 0 n.

Definition range3 (start stop step : nat) : list nat :=
  map (fun i => start + step * i)%nat
      (seq 0 ((stop - start + (step - 1)) / step)).

(** [l[0]], [l[-1]] on a list that is known to be non-empty. *)
Definition first (l : list R) : R := hd 0%R l.
Definition last (l : list R) : R := List.last l 0%R.

(** [l[start:-from_end]]. *)
Definition slice {A : Type} (start from_end : nat) (l : list A) : list A :=
  firstn (List.length l - from_end - start) (skipn start l).

(** [l[::2]]: every second element, starting with the first. *)
Fixpoint step2 {A : Type} (l : list A) : list A :=
  match l with
  | [] => []
  | x :: t => x :: match t with
                   | [] => []
                   | _ :: t' => step2 t'
                   end
  end.

(** [np.sum]. *)
Definition sum (l : list R) : R := fold_right Rplus 0%R l.

(** [np.linspace(start, stop, num)] with its default [endpoint=True]:
    [arange(0, num) * step + start] with [step = (stop - start) / (num - 1)],
    whose last entry is then overwritten with [stop] when [num > 1]. *)
Definition set_last (l : list R) (v : R) : list R :=
  match l with
  | [] => []
  | _ :: _ => removelast l ++ [v]
  end.

Definition linspace (start stop : R) (num : nat) : list R :=
  let div := (num - 1)%nat in
  let step := ((stop - start) / INR div)%R in
  let y := map (fun i => (INR i * step + start)%R) (seq 0 num) in
  if (1 <? num)%nat then set_last y stop else y.

End Py.

(** ** Integration service (Project_Report.md, section 4.2) *)

Inductive method : Type := trapezoidal | midpoint | simpson.

Definition method_eqb (m1 m2 : method) : bool :=
  match m1, m2 with
  | trapezoidal, trapezoidal | midpoint, midpoint | simpson, simpson => true
  | _, _ => false
  end.

Section Integration.

Open Scope R_scope.

(** The subdivision count [n] of a request is a natural number (the
    request schema and the dashboard only let counts [n >= 1] through).

    [(b - a) / n] of a float by an int: raises on [n = 0]. *)
Definition div_int (x : R) (n : nat) : result R :=
  if (n =? 0)%nat then Raise ZeroDivisionError else Ok (x / INR n).

Definition trapezoidal_rule (func : R -> R) (a b : R) (n : nat) : result R :=
  let* h := div_int (b - a) n in
  let x := Py.linspace a b (n + 1) in
  let y := map func x in
  Ok ((h / 2) * (Py.first y + 2 * Py.sum (Py.slice 1 1 y) + Py.last y)).

Definition midpoint_rule (func : R -> R) (a b : R) (n : nat) : result R :=
  let* h := div_int (b - a) n in
  let midpoints := map (fun i => a + (INR i + 0.5) * h) (Py.range n) in
  let y := map func midpoints in
  Ok (h * Py.sum y).

(** [if n % 2 != 0: n += 1]. *)
Definition simpson_n (n : nat) : nat :=
  if negb (n mod 2 =? 0)%nat then (n + 1)%nat else n.

Definition simpsons_rule (func : R -> R) (a b : R) (n : nat) : result R :=
  let n := simpson_n n in
  let* h := div_int (b - a) n in
  let x := Py.linspace a b (n + 1) in
  let y := map func x in
  Ok ((h / 3) * (Py.first y + 4 * Py.sum (Py.step2 (Py.slice 1 1 y))
                 + 2 * Py.sum (Py.step2 (Py.slice 2 1 y)) + Py.last y)).

(** The [i]-th of the [n + 1] equally spaced nodes of [[a, b]], and the
    primitive [c1 * x^2 / 2 + c0 * x] of a line; both are only used to state
    properties of the rules. *)
Definition node (a b : R) (n i : nat) : R := a + INR i * ((b - a) / INR n).

Definition line_primitive (c1 c0 : R) : R -> R :=
  (fct_cte (c1 / 2) * (id * id) + fct_cte c0 * id)%F.

End Integration.

(** ** Functions service: the safe expression parser
       (Project_Report.md, section 4.1) *)

Module Ast.

(** The nodes of Python's [ast] that an expression can hold. *)
Inductive unaryop : Type := UAdd | USub | Not | Invert.

Inductive operator : Type :=
| Add | Sub | Mult | Div | Pow
| FloorDiv | Mod | MatMult | LShift | RShift | BitOr | BitXor | BitAnd.

Inductive constant : Type :=
| Num (value : R)
| Str (value : string)
| Bool (value : bool)
| NoneValue.

#[local] Unset Elimination Schemes.

Inductive expr : Type :=
| Constant (c : constant)
| Name (id : string)
| BinOp (left : expr) (op : operator) (right : expr)
| UnaryOp (op : unaryop) (operand : expr)
| Call (func : expr) (args : list expr)
| Attribute (value : expr) (attr : string)
| Subscript (value : expr) (index : expr)
| ListExpr (elts : list expr).

#[local] Set Elimination Schemes.

Inductive stmt : Type :=
| Import (names : list string)
| Assign (target : string) (value : expr)
| Expr (value : expr)
| Pass.

(** What [ast.parse] makes of a source text. *)
Inductive parsed : Type :=
| SyntaxError
| Statements (body : list stmt)
| Expression (body : expr).

End Ast.

Module SafeExpressionParser.

Import Ast.

Open Scope string_scope.

(** The keys of [ALLOWED_NAMES], split as the spec's grammar has them: the
    variable and the two constants, and the callable names. *)
Definition ALLOWED_VARIABLES : list string := ["x"; "pi"; "e"].

Definition ALLOWED_FUNCTIONS : list string :=
  ["sin"; "cos"; "tan"; "exp"; "log"; "sqrt"; "abs"].

Definition ALLOWED_NAMES : list string :=
  "x" :: ALLOWED_FUNCTIONS ++ ["pi"; "e"].

(** [ALLOWED_OPERATORS]. *)
Definition allowed_operator (op : operator) : bool :=
  match op with
  | Add | Sub | Mult | Div | Pow => true
  | _ => false
  end.

Definition allowed_unaryop (op : unaryop) : bool :=
  match op with
  | USub | UAdd => true
  | _ => false
  end.

Definition mem (x : string) (l : list string) : bool :=
  existsb (String.eqb x) l.

(** Modelled from the spec: the report shows the two tables of
    [SafeExpressionParser] and not its methods.  The check walks the tree
    and accepts numeric literals, [x], [pi], [e], the allowed operators and
    calls of the allowed functions; every other node is rejected with
    [InvalidExpressionError] naming the construct (spec, section 4.1). *)
Fixpoint validate (e : expr) : result unit :=
  match e with
  | Constant (Num _) => Ok tt
  | Constant _ => Raise (InvalidExpressionError "literal")
  | Name id =>
      if mem id ALLOWED_VARIABLES then Ok tt
      else Raise (InvalidExpressionError id)
  | BinOp l op r =>
      if allowed_operator op
      then let* _ := validate l in validate r
      else Raise (InvalidExpressionError "operator")
  | UnaryOp op a =>
      if allowed_unaryop op then validate a
      else Raise (InvalidExpressionError "operator")
  | Call (Name f) args =>
      if mem f ALLOWED_FUNCTIONS
      then fold_right (fun a k => let* _ := validate a in k) (Ok tt) args
      else Raise (InvalidExpressionError f)
  | Call _ _ => Raise (InvalidExpressionError "call")
  | Attribute _ _ => Raise (InvalidExpressionError "attribute")
  | Subscript _ _ => Raise (InvalidExpressionError "subscript")
  | ListExpr _ => Raise (InvalidExpressionError "literal")
  end.

Section Evaluate.

Open Scope R_scope.

(** Python's [ast.parse] and float power: parameters. *)
Variable ast_parse : string -> parsed.
Variable float_pow : R -> R -> R.

(** Modelled from the spec: the recursive interpretation of a checked tree
    ([ALLOWED_NAMES] maps the names to NumPy's functions and constants). *)
Definition apply_function (f : string) (v : R) : R :=
  if String.eqb f "sin" then sin v
  else if String.eqb f "cos" then cos v
  else if String.eqb f "tan" then tan v
  else if String.eqb f "exp" then exp v
  else if String.eqb f "log" then ln v
  else if String.eqb f "sqrt" then sqrt v
  else Rabs v.

Fixpoint eval (e : expr) (x : R) : result R :=
  match e with
  | Constant (Num v) => Ok v
  | Name id =>
      if String.eqb id "x" then Ok x
      else if String.eqb id "pi" then Ok PI
      else if String.eqb id "e" then Ok (exp 1)
      else Raise ValueError
  | BinOp l op r =>
      let* a := eval l x in
      let* b := eval r x in
      match op with
      | Add => Ok (a + b)
      | Sub => Ok (a - b)
      | Mult => Ok (a * b)
      | Div => Ok (a / b)
      | Pow => Ok (float_pow a b)
      | _ => Raise ValueError
      end
  | UnaryOp op a =>
      let* v := eval a x in
      match op with
      | UAdd => Ok v
      | USub => Ok (- v)
      | _ => Raise ValueError
      end
  | Call (Name f) [a] => let* v := eval a x in Ok (apply_function f v)
  | _ => Raise ValueError
  end.

(** Modelled from the spec: [evaluate_expression] parses, checks the whole
    tree, and only then hands out the callable that interprets it. *)
Definition evaluate_expression (source : string)
  : result (R -> result R) :=
  match ast_parse source with
  | SyntaxError => Raise (InvalidExpressionError "syntax")
  | Statements _ => Raise (InvalidExpressionError "statement")
  | Expression tree =>
      let* _ := validate tree in
      Ok (eval tree)
  end.

End Evaluate.

(** The constructs the grammar excludes, at the root of a tree ... *)
Definition excluded (e : expr) : Prop :=
  match e with
  | Constant (Num _) => False
  | Constant _ => True
  | Name id => mem id ALLOWED_VARIABLES = false
  | Call (Name f) _ => mem f ALLOWED_FUNCTIONS = false
  | Call _ _ => True
  | Attribute _ _ | Subscript _ _ | ListExpr _ => True
  | BinOp _ _ _ | UnaryOp _ _ => False
  end.

(** ... and anywhere inside it.  The name in function position of a call
    is part of the call, not an identifier of its own. *)
Inductive contains_excluded : expr -> Prop :=
| here e : excluded e -> contains_excluded e
| in_left l op r : contains_excluded l -> contains_excluded (BinOp l op r)
| in_right l op r : contains_excluded r -> contains_excluded (BinOp l op r)
| in_operand op a : contains_excluded a -> contains_excluded (UnaryOp op a)
| in_arg f a args :
    In a args -> contains_excluded a -> contains_excluded (Call f args).

Definition rejected {A : Type} (r : result A) : Prop :=
  exists construct, r = Raise (InvalidExpressionError construct).

End SafeExpressionParser.

(** ** Analysis service (Project_Report.md, section 6.1) *)

(** A Python [dict]: keys in insertion order, assignment to a present key
    keeps its place. *)
Module Dict.

Section Defs.

Variables (K V : Type) (eqb : K -> K -> bool).

Definition t : Type := list (K * V).

Fixpoint set (d : t) (k : K) (v : V) : t :=
  match d with
  | [] => [(k, v)]
  | (k', v') :: rest =>
      if eqb k k' then (k, v) :: rest else (k', v') :: set rest k v
  end.

Fixpoint get (d : t) (k : K) : option V :=
  match d with
  | [] => None
  | (k', v') :: rest => if eqb k k' then Some v' else get rest k
  end.

Definition keys (d : t) : list K := map fst d.

(** The keys after [d[k] = v], from the keys of [d]. *)
Definition add_key (ks : list K) (k : K) : list K :=
  if existsb (eqb k) ks then ks else ks ++ [k].

End Defs.

End Dict.

(** ** Floats with their special values

    Where a property depends on the special values of IEEE 754, a float is a
    real number (rounding and overflow stay idealised away), one of the two
    infinities, or NaN.  [Np] holds the arithmetic of NumPy's [float64]
    scalars, which gives [inf] and [nan] where Python's own floats raise, and
    the comparison [<], which is false as soon as one side is NaN.  Zero has
    no sign here: a quotient by zero takes the sign of its numerator. *)

Inductive pyfloat : Type :=
| finite (r : R)
| inf (negative : bool)
| nan.

Module Np.

Open Scope R_scope.

Definition negative (r : R) : bool := if Rlt_dec r 0 then true else false.

Definition add (x y : pyfloat) : pyfloat :=
  match x, y with
  | nan, _ | _, nan => nan
  | finite r, finite s => finite (r + s)
  | finite _, inf s | inf s, finite _ => inf s
  | inf s, inf t => if Bool.eqb s t then inf s else nan
  end.

Definition opp (x : pyfloat) : pyfloat :=
  match x with
  | finite r => finite (- r)
  | inf s => inf (negb s)
  | nan => nan
  end.

Definition sub (x y : pyfloat) : pyfloat := add x (opp y).

Definition mul (x y : pyfloat) : pyfloat :=
  match x, y with
  | nan, _ | _, nan => nan
  | finite r, finite s => finite (r * s)
  | finite r, inf s | inf s, finite r =>
      if Req_dec_T r 0 then nan else inf (xorb s (negative r))
  | inf s, inf t => inf (xorb s t)
  end.

Definition div (x y : pyfloat) : pyfloat :=
  match x, y with
  | nan, _ | _, nan => nan
  | finite r, finite s =>
      if Req_dec_T s 0
      then if Req_dec_T r 0 then nan else inf (negative r)
      else finite (r / s)
  | finite _, inf _ => finite 0
  | inf s, finite r => inf (xorb s (negative r))
  | inf _, inf _ => nan
  end.

(** [abs(x)]. *)
Definition abs (x : pyfloat) : pyfloat :=
  match x with
  | finite r => finite (Rabs r)
  | inf _ => inf false
  | nan => nan
  end.

(** [x < y]. *)
Definition ltb (x y : pyfloat) : bool :=
  match x, y with
  | nan, _ | _, nan => false
  | finite r, finite s => if Rlt_dec r s then true else false
  | finite _, inf s => negb s
  | inf s, finite _ => s
  | inf s, inf t => s && negb t
  end.

(** [y[0]], [y[-1]] on an array that is known to be non-empty, and
    [np.sum]. *)
Definition first (l : list pyfloat) : pyfloat := hd (finite 0) l.
Definition last (l : list pyfloat) : pyfloat := List.last l (finite 0).
Definition sum (l : list pyfloat) : pyfloat := fold_right add (finite 0) l.

End Np.

Record error_record : Type := {
  rec_n : nat;
  rec_h : R;
  rec_approx : R;
  rec_abs_error : R;
  rec_rel_error : option R;
  rec_eoc : option R
}.

Record analysis_result : Type := {
  exact_value : R;
  results : Dict.t method (list error_record);
  winner : method
}.

Section Analysis.

Open Scope R_scope.

(** SciPy's adaptive [quad], behind [exact_integral]: a parameter. *)
Variable exact_integral : (R -> R) -> R -> R -> R * R.

(** [sorted(n_values)]. *)
Fixpoint insert_sorted (n : nat) (l : list nat) : list nat :=
  match l with
  | [] => [n]
  | m :: rest => if (n <=? m)%nat then n :: l else m :: insert_sorted n rest
  end.

Fixpoint sorted (l : list nat) : list nat :=
  match l with
  | [] => []
  | n :: rest => insert_sorted n (sorted rest)
  end.

(** Modelled from the spec: [compute_integral], called by
    [analyze_convergence] but not part of the report, dispatches on the
    method through one exhaustive match (spec, section 9). *)
Definition compute_integral (func : R -> R) (a b : R) (n : nat) (m : method)
  : result R :=
  match m with
  | trapezoidal => trapezoidal_rule func a b n
  | midpoint => midpoint_rule func a b n
  | simpson => simpsons_rule func a b n
  end.

(** Modelled from the spec: [calculate_errors], called by
    [analyze_convergence] but not part of the report:
    [absolute_error = |approx - exact|] and
    [relative_error = absolute_error / |exact|], which is not a finite
    number ([None]) when [exact] is zero (spec, section 4.5). *)
Definition calculate_errors (approx exact : R) : R * option R :=
  let absolute_error := Rabs (approx - exact) in
  (absolute_error,
   if Req_dec_T exact 0 then None else Some (absolute_error / Rabs exact)).

(** Modelled from the spec: [calculate_eoc], called by
    [analyze_convergence] but not part of the report:
    [ln(E1/E2) / ln(n2/n1)], undefined ([None]) when either error is exactly
    zero (spec, section 4.5). *)
Definition calculate_eoc (e1 e2 : R) (n1 n2 : nat) : option R :=
  if Req_dec_T e1 0 then None
  else if Req_dec_T e2 0 then None
  else Some (ln (e1 / e2) / ln (INR n2 / INR n1)).

(** The body of [for n in sorted(n_values)] for one method; [prev] holds
    [prev_error, prev_n], which are [None] together before the first pass
    and set together at the end of each pass. *)
Fixpoint convergence_loop (func : R -> R) (a b exact_val : R) (m : method)
         (prev : option (R * nat)) (ns : list nat)
  : result (list error_record) :=
  match ns with
  | [] => Ok []
  | n :: rest =>
      let* approx := compute_integral func a b n m in
      let errors := calculate_errors approx exact_val in
      let eoc :=
        match prev with
        | None => None
        | Some (prev_error, prev_n) =>
            calculate_eoc prev_error (fst errors) prev_n n
        end in
      let* h := div_int (b - a) n in
      let record := {| rec_n := n; rec_h := h; rec_approx := approx;
                       rec_abs_error := fst errors;
                       rec_rel_error := snd errors;
                       rec_eoc := eoc |} in
      let* method_results :=
        convergence_loop func a b exact_val m (Some (fst errors, n)) rest in
      Ok (record :: method_results)
  end.

Definition method_results (func : R -> R) (a b exact_val : R) (m : method)
           (n_values : list nat) : result (list error_record) :=
  convergence_loop func a b exact_val m None (sorted n_values).

(** The body of [for method in methods], filling the [results] dict. *)
Fixpoint methods_loop (func : R -> R) (a b exact_val : R)
         (n_values : list nat) (results : Dict.t method (list error_record))
         (methods : list method)
  : result (Dict.t method (list error_record)) :=
  match methods with
  | [] => Ok results
  | m :: rest =>
      let* rs := method_results func a b exact_val m n_values in
      methods_loop func a b exact_val n_values
                   (Dict.set method_eqb results m rs) rest
  end.

(** Modelled from the spec: the dict [final_errors], read by the winner
    line but built in a part of [analyze_convergence] the report leaves
    out, maps each method of [results] to the absolute error of its last
    record, the one at the largest [n] (spec, section 4.5). *)
Fixpoint final_errors (results : Dict.t method (list error_record))
  : result (Dict.t method R) :=
  match results with
  | [] => Ok []
  | (m, rs) :: rest =>
      match rev rs with
      | [] => Raise IndexError
      | r :: _ =>
          let* d := final_errors rest in
          Ok ((m, rec_abs_error r) :: d)
      end
  end.

(** [min(iterable, key=...)]: it keeps the first element and replaces it
    by a later one whose key is [<] the key it holds; [ValueError] on an
    empty iterable.  The keys are floats: against a NaN every [<] is
    false. *)
Definition py_min {A : Type} (key : A -> pyfloat) (l : list A) : result A :=
  match l with
  | [] => Raise ValueError
  | x :: rest =>
      Ok (fold_left (fun best y => if Np.ltb (key y) (key best) then y
                                   else best) rest x)
  end.

(** [final_errors.get]; [min] only asks for keys of the dict itself. *)
Definition get_error (d : Dict.t method R) (m : method) : R :=
  match Dict.get method_eqb d m with
  | Some e => e
  | None => 0
  end.

Definition analyze_convergence (func : R -> R) (a b : R)
           (methods : list method) (n_values : list nat)
  : result analysis_result :=
  let '(exact_val, exact_err) := exact_integral func a b in
  let* results := methods_loop func a b exact_val n_values [] methods in
  let* errs := final_errors results in
  let* winner := py_min (fun m => finite (get_error errs m))
                        (Dict.keys errs) in
  Ok {| exact_value := exact_val; results := results; winner := winner |}.

(** The record of a method at the largest [n], and the place of a method
    in the list of requested methods; both only serve to state the winner's
    property. *)
Definition final_record (r : analysis_result) (m : method)
  : option error_record :=
  match Dict.get method_eqb (results r) m with
  | Some rs => match rev rs with
               | rec :: _ => Some rec
               | [] => None
               end
  | None => None
  end.

Fixpoint position (m : method) (l : list method) : nat :=
  match l with
  | [] => 0
  | m' :: rest => if method_eqb m m' then 0 else S (position m rest)
  end.

End Analysis.

(** ** The same services on integrands with special values

    An integrand built from an expression such as [x / x] or [1 / x]
    returns NaN or an infinity at some points.  The rules and the analysis
    are the ones above; the ordinates, the approximations and the errors are
    floats with their special values. *)

Module Special.

Record error_record : Type := {
  rec_n : nat;
  rec_h : R;
  rec_approx : pyfloat;
  rec_abs_error : pyfloat;
  rec_rel_error : pyfloat;
  rec_eoc : option pyfloat
}.

Record analysis_result : Type := {
  exact_value : R;
  results : Dict.t method (list error_record);
  winner : method
}.

Section Services.

Open Scope R_scope.

Definition trapezoidal_rule (func : R -> pyfloat) (a b : R) (n : nat)
  : result pyfloat :=
  let* h := div_int (b - a) n in
  let x := Py.linspace a b (n + 1) in
  let y := map func x in
  Ok (Np.mul (finite (h / 2))
             (Np.add (Np.add (Np.first y)
                             (Np.mul (finite 2) (Np.sum (Py.slice 1 1 y))))
                     (Np.last y))).

Definition midpoint_rule (func : R -> pyfloat) (a b : R) (n : nat)
  : result pyfloat :=
  let* h := div_int (b - a) n in
  let midpoints := map (fun i => a + (INR i + 0.5) * h) (Py.range n) in
  let y := map func midpoints in
  Ok (Np.mul (finite h) (Np.sum y)).

Definition simpsons_rule (func : R -> pyfloat) (a b : R) (n : nat)
  : result pyfloat :=
  let n := simpson_n n in
  let* h := div_int (b - a) n in
  let x := Py.linspace a b (n + 1) in
  let y := map func x in
  Ok (Np.mul (finite (h / 3))
             (Np.add
                (Np.add
                   (Np.add (Np.first y)
                           (Np.mul (finite 4)
                                   (Np.sum (Py.step2 (Py.slice 1 1 y)))))
                   (Np.mul (finite 2) (Np.sum (Py.step2 (Py.slice 2 1 y)))))
                (Np.last y))).

(** SciPy's adaptive [quad], behind [exact_integral], and [calculate_eoc],
    which the report leaves out: parameters.  The winner does not depend on
    the second. *)
Variable exact_integral : (R -> pyfloat) -> R -> R -> R * R.
Variable calculate_eoc :
  pyfloat -> pyfloat -> nat -> nat -> result (option pyfloat).

(** Modelled from the spec: [compute_integral], as above. *)
Definition compute_integral (func : R -> pyfloat) (a b : R) (n : nat)
           (m : method) : result pyfloat :=
  match m with
  | trapezoidal => trapezoidal_rule func a b n
  | midpoint => midpoint_rule func a b n
  | simpson => simpsons_rule func a b n
  end.

(** Modelled from the spec: [calculate_errors], as above; an approximation
    that is NaN or infinite gives an absolute error that is NaN or infinite
    (spec, section 4.2: if [f] propagates NaN at a sampled point, the rule's
    result is NaN), and the relative error is infinite or NaN when [exact]
    is zero (spec, section 4.5). *)
Definition calculate_errors (approx : pyfloat) (exact : R)
  : pyfloat * pyfloat :=
  let absolute_error := Np.abs (Np.sub approx (finite exact)) in
  (absolute_error, Np.div absolute_error (finite (Rabs exact))).

Fixpoint convergence_loop (func : R -> pyfloat) (a b exact_val : R)
         (m : method) (prev : option (pyfloat * nat)) (ns : list nat)
  : result (list error_record) :=
  match ns with
  | [] => Ok []
  | n :: rest =>
      let* approx := compute_integral func a b n m in
      let errors := calculate_errors approx exact_val in
      let* eoc :=
        match prev with
        | None => Ok None
        | Some (prev_error, prev_n) =>
            calculate_eoc prev_error (fst errors) prev_n n
        end in
      let* h := div_int (b - a) n in
      let record := {| rec_n := n; rec_h := h; rec_approx := approx;
                       rec_abs_error := fst errors;
                       rec_rel_error := snd errors;
                       rec_eoc := eoc |} in
      let* method_results :=
        convergence_loop func a b exact_val m (Some (fst errors, n)) rest in
      Ok (record :: method_results)
  end.

Definition method_results (func : R -> pyfloat) (a b exact_val : R)
           (m : method) (n_values : list nat) : result (list error_record) :=
  convergence_loop func a b exact_val m None (sorted n_values).

Fixpoint methods_loop (func : R -> pyfloat) (a b exact_val : R)
         (n_values : list nat) (results : Dict.t method (list error_record))
         (methods : list method)
  : result (Dict.t method (list error_record)) :=
  match methods with
  | [] => Ok results
  | m :: rest =>
      let* rs := method_results func a b exact_val m n_values in
      methods_loop func a b exact_val n_values
                   (Dict.set method_eqb results m rs) rest
  end.

(** Modelled from the spec: the dict [final_errors], as above. *)
Fixpoint final_errors (results : Dict.t method (list error_record))
  : result (Dict.t method pyfloat) :=
  match results with
  | [] => Ok []
  | (m, rs) :: rest =>
      match rev rs with
      | [] => Raise IndexError
      | r :: _ =>
          let* d := final_errors rest in
          Ok ((m, rec_abs_error r) :: d)
      end
  end.

(** [final_errors.get]; [min] only asks for keys of the dict itself. *)
Definition get_error (d : Dict.t method pyfloat) (m : method) : pyfloat :=
  match Dict.get method_eqb d m with
  | Some e => e
  | None => finite 0
  end.

Definition analyze_convergence (func : R -> pyfloat) (a b : R)
           (methods : list method) (n_values : list nat)
  : result analysis_result :=
  let '(exact_val, exact_err) := exact_integral func a b in
  let* results := methods_loop func a b exact_val n_values [] methods in
  let* errs := final_errors results in
  let* winner := py_min (get_error errs) (Dict.keys errs) in
  Ok {| exact_value := exact_val; results := results; winner := winner |}.

(** The absolute error of a method at the largest [n]; only serves to
    state what the winner is. *)
Definition final_error (r : analysis_result) (m : method) : option pyfloat :=
  match Dict.get method_eqb (results r) m with
  | Some rs => match rev rs with
               | rec :: _ => Some (rec_abs_error rec)
               | [] => None
               end
  | None => None
  end.

End Services.

End Special.

(** ** Visualisation data (Project_Report.md, section 4.3) *)

Inductive shape : Type :=
| Trapezoid (x0 x1 y0 y1 : R)
| Rectangle (x0 x1 y : R)
| Parabola (x0 x1 x2 y0 y1 y2 : R).

Record visualization : Type := {
  curve : list (R * R);
  shapes : list shape
}.

Section Visualization.

Open Scope R_scope.

(** The number of samples of the plotted curve: fixed, independent of [n]. *)
Variable curve_resolution : nat.

(** Modelled from the spec: the report shows the three loops of
    [get_visualization_data] and leaves out where [x_points], [x0], [x1],
    [x2], the ordinates and [curve_points] come from.  They follow the point
    layout of the rule itself (spec, section 4.6): the nodes of
    [linspace(a, b, n + 1)], with the even count of [simpsons_rule] for
    Simpson, and [func] at these nodes. *)
Definition x_points (a b : R) (n : nat) (m : method) : list R :=
  match m with
  | simpson => Py.linspace a b (simpson_n n + 1)
  | _ => Py.linspace a b (n + 1)
  end.

Definition curve_points (func : R -> R) (a b : R) : list (R * R) :=
  map (fun x => (x, func x)) (Py.linspace a b curve_resolution).

Definition get_visualization_data (func : R -> R) (a b : R) (n : nat)
           (m : method) : visualization :=
  let xs := x_points a b n m in
  let x i := nth i xs 0 in
  let shapes :=
    match m with
    | trapezoidal =>
        map (fun i => Trapezoid (x i) (x (i + 1)%nat)
                                (func (x i)) (func (x (i + 1)%nat)))
            (Py.range n)
    | midpoint =>
        map (fun i => Rectangle (x i) (x (i + 1)%nat)
                                (func ((x i + x (i + 1)%nat) / 2)))
            (Py.range n)
    | simpson =>
        map (fun i => Parabola (x i) (x (i + 1)%nat) (x (i + 2)%nat)
                               (func (x i)) (func (x (i + 1)%nat))
                               (func (x (i + 2)%nat)))
            (Py.range3 0 n 2)
    end in
  {| curve := curve_points func a b; shapes := shapes |}.

End Visualization.

(** ** Frontend: JavaScript strings *)

(** A JavaScript string is a sequence of UTF-16 code units. *)
Definition char : Type := N.
Definition jsstring : Type := list char.

Definition js (s : string) : jsstring :=
  map N_of_ascii (list_ascii_of_string s).

Module Js.

Open Scope N_scope.

Definition star : char := 42.
Definition caret : char := 94.
Definition lparen : char := 40.
Definition rparen : char := 41.

Definition is_char (c0 : char) (c : char) : bool := c =? c0.

(** [\d] and [[a-zA-Z]]. *)
Definition is_digit (c : char) : bool := (48 <=? c) && (c <=? 57).
Definition is_letter (c : char) : bool :=
  ((97 <=? c) && (c <=? 122)) || ((65 <=? c) && (c <=? 90)).

(** [s.replace(/\^/g, '**')]. *)
Definition replace_caret (s : jsstring) : jsstring :=
  flat_map (fun c => if is_char caret c then [star; star] else [c]) s.

(** [s.replace(/(P1)(P2)/g, '$1*$2')] for two one-character classes: the
    scan resumes after the second character of a match. *)
Fixpoint replace_pair (p1 p2 : char -> bool) (s : jsstring) : jsstring :=
  match s with
  | c1 :: ((c2 :: t) as rest) =>
      if p1 c1 && p2 c2 then c1 :: star :: c2 :: replace_pair p1 p2 t
      else c1 :: replace_pair p1 p2 rest
  | _ => s
  end.

(** [str.slice(offset - 2, offset) === '**'] with [offset >= 2], on the
    reversed prefix of [str] that precedes the match. *)
Definition after_power (before : jsstring) : bool :=
  match before with
  | c1 :: c2 :: _ => is_char star c1 && is_char star c2
  | _ => false
  end.

(** The lookahead [(?![*])]. *)
Definition not_before_star (t : jsstring) : bool :=
  match t with
  | c :: _ => negb (is_char star c)
  | [] => true
  end.

(** [s.replace(/([a-zA-Z])(\d)(?![*])/g, callback)], where the callback
    keeps the match when the two characters before it are [**] and
    otherwise returns [letter*digit]; [before] is the part of the string
    already scanned, last character first. *)
Fixpoint replace_letter_digit (before s : jsstring) : jsstring :=
  match s with
  | c1 :: ((c2 :: t) as rest) =>
      if is_letter c1 && is_digit c2 && not_before_star t then
        (if after_power before then [c1; c2] else [c1; star; c2])
          ++ replace_letter_digit (c2 :: c1 :: before) t
      else c1 :: replace_letter_digit (c1 :: before) rest
  | _ => s
  end.

End Js.

(** Notions used to state and prove that [normalizeForBackend] is
    idempotent. *)
Module JsAux.
Import Js.
(** [ins s s']: [s'] is [s] with stars inserted between some adjacent
    characters that are not stars themselves. *)
Inductive ins : jsstring -> jsstring -> Prop :=
| ins_nil : ins [] []
| ins_keep c s s' : ins s s' -> ins (c :: s) (c :: s')
| ins_star c1 c2 s s' :
    is_char star c1 = false -> is_char star c2 = false ->
    ins (c2 :: s) (c2 :: s') ->
    ins (c1 :: c2 :: s) (c1 :: star :: c2 :: s').

Fixpoint no_pair (p1 p2 : char -> bool) (s : jsstring) : bool :=
  match s with
  | c1 :: rest =>
      match rest with
      | c2 :: _ => negb (p1 c1 && p2 c2)
      | [] => true
      end && no_pair p1 p2 rest
  | [] => true
  end.

(** The number of stars that end the scanned prefix, counted up to two. *)
Definition trail (before : jsstring) : nat :=
  match before with
  | c1 :: rest =>
      if is_char star c1 then
        match rest with
        | c2 :: _ => if is_char star c2 then 2 else 1
        | [] => 1
        end
      else 0
  | [] => 0
  end.

Definition next_trail (k : nat) (c : char) : nat :=
  if is_char star c then Nat.min 2 (S k) else 0.

(** No letter-digit pair of [s] is a match that the callback would change,
    when [k] stars precede [s]. *)
Fixpoint stable (k : nat) (s : jsstring) : bool :=
  match s with
  | c1 :: rest =>
      match rest with
      | c2 :: t =>
          if is_letter c1 && is_digit c2 && not_before_star t
          then (k =? 2)%nat else true
      | [] => true
      end && stable (next_trail k c1) rest
  | [] => true
  end.
End JsAux.

(** ** Frontend: the calculator (unnamed/part_001) *)

Definition normalizeForBackend (expr : jsstring) : jsstring :=
  let result := Js.replace_caret expr in
  let result := Js.replace_pair Js.is_digit Js.is_letter result in
  let result := Js.replace_letter_digit [] result in
  let result := Js.replace_pair (Js.is_char Js.rparen) (Js.is_char Js.lparen)
                                result in
  let result := Js.replace_pair Js.is_digit (Js.is_char Js.lparen) result in
  let result := Js.replace_pair (Js.is_char Js.rparen) Js.is_digit result in
  result.

(** ** Frontend: the interval-count control (unnamed/part_000) *)

(** A JavaScript number that holds an integer or [NaN].  [parseInt] rounds
    to a double, which is exact up to [2^53] and monotone beyond: comparing
    with [1] and [1024] gives the same answer on the integer itself. *)
Inductive number : Type := NaN | Int (z : Z).

Module JsNumber.

Open Scope N_scope.

(** White space that [parseInt] skips at the start of its argument. *)
Definition is_white_space (c : char) : bool :=
  existsb (N.eqb c)
          [9; 10; 11; 12; 13; 32; 160; 5760; 8232; 8233; 8239; 8287; 12288;
           65279]
  || ((8192 <=? c) && (c <=? 8202)).

Fixpoint trim_start (s : jsstring) : jsstring :=
  match s with
  | c :: t => if is_white_space c then trim_start t else s
  | [] => []
  end.

Definition digit_value (radix : N) (c : char) : option N :=
  let v := if (48 <=? c) && (c <=? 57) then Some (c - 48)
           else if (97 <=? c) && (c <=? 122) then Some (c - 87)
           else if (65 <=? c) && (c <=? 90) then Some (c - 55)
           else None in
  match v with
  | Some d => if d <? radix then Some d else None
  | None => None
  end.

(** The value of the longest prefix of digits, [None] when it is empty. *)
Fixpoint digits (radix : N) (acc : option N) (s : jsstring) : option N :=
  match s with
  | c :: t =>
      match digit_value radix c with
      | Some d =>
          digits radix (Some (radix * match acc with Some a => a | None => 0 end
                              + d)) t
      | None => acc
      end
  | [] => acc
  end.

(** [parseInt(string)] without a radix. *)
Definition parseInt (s : jsstring) : number :=
  let s := trim_start s in
  let '(sign, s) := match s with
                    | 45 :: t => ((-1)%Z, t)
                    | 43 :: t => (1%Z, t)
                    | _ => (1%Z, s)
                    end in
  let '(radix, s) := match s with
                     | 48 :: 120 :: t | 48 :: 88 :: t => (16, t)
                     | _ => (10, s)
                     end in
  match digits radix None s with
  | Some v => Int (sign * Z.of_N v)
  | None => NaN
  end.

Definition isNaN (x : number) : bool :=
  match x with NaN => true | Int _ => false end.

(** [x >= k], [x <= k], [x < k], [x > k]: all false on [NaN]. *)
Definition cmp (test : Z -> Z -> bool) (x : number) (k : Z) : bool :=
  match x with NaN => false | Int z => test z k end.

(** [num.toString()] of an integer. *)
Definition toString (x : number) : jsstring :=
  match x with
  | NaN => js "NaN"
  | Int z => js (NilZero.string_of_int (Z.to_int z))
  end.

End JsNumber.

Module MethodControls.

Import JsNumber.

(** The component's state; a handler returns the new state and the
    arguments of its calls to the prop [onNChange]. *)
Record state : Type := {
  customN : jsstring;
  showCustomInput : bool
}.

Definition presetValues : list Z := [4; 8; 16; 32; 64; 128; 256; 512; 1024]%Z.

Definition setCustomN (v : jsstring) (st : state) : state :=
  {| customN := v; showCustomInput := showCustomInput st |}.

Definition setShowCustomInput (v : bool) (st : state) : state :=
  {| customN := customN st; showCustomInput := v |}.

Definition handleCustomNChange (value : jsstring) (st : state)
  : state * list number :=
  let st := setCustomN value st in
  let num := parseInt value in
  if negb (isNaN num) && cmp Z.geb num 1 && cmp Z.leb num 1024
  then (st, [num]) else (st, []).

Definition handlePresetClick (value : Z) (st : state) : state * list number :=
  let st := setCustomN (toString (Int value)) st in
  (setShowCustomInput false st, [Int value]).

Definition handleCustomNBlur (st : state) : state * list number :=
  let num := parseInt (customN st) in
  let num := if isNaN num || cmp Z.ltb num 1 then Int 1 else num in
  let num := if cmp Z.gtb num 1024 then Int 1024 else num in
  (setCustomN (toString num) st, [num]).

(** What the user can do to the control: type in the input, leave it,
    press a key in it, click the [i]-th preset button, switch modes. *)
Inductive event : Type :=
| Change (value : jsstring)
| Blur
| KeyDown (key : jsstring)
| PresetClick (i : nat)
| ToggleCustomInput.

Definition handle (ev : event) (st : state) : state * list number :=
  match ev with
  | Change value => handleCustomNChange value st
  | Blur => handleCustomNBlur st
  | KeyDown key =>
      if list_eq_dec N.eq_dec key (js "Enter") then handleCustomNBlur st
      else (st, [])
  | PresetClick i =>
      match nth_error presetValues i with
      | Some value => handlePresetClick value st
      | None => (st, [])
      end
  | ToggleCustomInput =>
      (setShowCustomInput (negb (showCustomInput st)) st, [])
  end.

(** All the values forwarded through [onNChange] along a session. *)
Fixpoint run (evs : list event) (st : state) : state * list number :=
  match evs with
  | [] => (st, [])
  | ev :: rest =>
      let '(st1, out1) := handle ev st in
      let '(st2, out2) := run rest st1 in
      (st2, out1 ++ out2)
  end.

(** [useState(n.toString())]. *)
Definition initial (n : Z) : state :=
  {| customN := toString (Int n); showCustomInput := false |}.

Definition in_range (x : number) : Prop :=
  match x with
  | NaN => False
  | Int z => (1 <= z <= 1024)%Z
  end.

End MethodControls.

(** ** Frontend: the selected methods (frontend/src/App.jsx) *)

Module App.

(** [prev.includes(method)], on strings. *)
Definition includes (l : list string) (x : string) : bool :=
  existsb (String.eqb x) l.

Definition handleMethodToggle (method : string) (prev : list string)
  : list string :=
  if includes prev method
  then filter (fun m => negb (String.eqb m method)) prev
  else prev ++ [method].

(** [useState(['trapezoidal', 'midpoint', 'simpson'])]. *)
Definition initialMethods : list string :=
  ["trapezoidal"; "midpoint"; "simpson"]%string.

(** The lists of selected methods after any number of toggles. *)
Inductive reachable : list string -> Prop :=
| reach_init : reachable initialMethods
| reach_toggle m l : reachable l -> reachable (handleMethodToggle m l).

End App.

(** ** Polynomials, to state the accuracy of the rules *)

Section Polynomials.

Open Scope R_scope.

(** [c4 x^4 + c3 x^3 + c2 x^2 + c1 x + c0] and its primitive. *)
Definition poly4 (c4 c3 c2 c1 c0 : R) : R -> R :=
  fun x => c4 * x ^ 4 + c3 * x ^ 3 + c2 * x ^ 2 + c1 * x + c0.

Definition poly4_primitive (c4 c3 c2 c1 c0 : R) : R -> R :=
  fun x => c4 / 5 * x ^ 5 + c3 / 4 * x ^ 4 + c2 / 3 * x ^ 3
           + c1 / 2 * x ^ 2 + c0 * x.

End Polynomials.

(** ** Frontend: the calculator's validation and submission
       (unnamed/part_001) *)

Module Calculator.

Import Js JsNumber.

Open Scope N_scope.

(** [!expr.trim()]: nothing is left once white space is trimmed. *)
Definition blank (expr : jsstring) : bool := forallb is_white_space expr.

(** [s.replace(/c/g, rep)] for a one-character pattern. *)
Definition replace_char (c : char) (rep : jsstring) (s : jsstring)
  : jsstring :=
  flat_map (fun x => if is_char c x then rep else [x]) s.

(** The letter pi. *)
Definition pi_char : char := 960.

(** Does [s] start with [pat], hold it somewhere ([/pat/]), end with it
    ([/pat$/])? *)
Fixpoint starts_with (pat s : jsstring) : bool :=
  match pat, s with
  | [], _ => true
  | p :: pat', c :: s' => (p =? c) && starts_with pat' s'
  | _ :: _, [] => false
  end.

Fixpoint contains (pat s : jsstring) : bool :=
  starts_with pat s ||
  match s with
  | [] => false
  | _ :: s' => contains pat s'
  end.

Definition ends_with (pat s : jsstring) : bool :=
  starts_with (rev pat) (rev s).

(** The loop over the characters that keeps [parenCount] and stops at the
    first extra closing parenthesis ([None]).  [for ... of] runs over code
    points; a parenthesis is one code unit and no half of a surrogate pair,
    so running over code units counts the same. *)
Fixpoint count_parens (parenCount : Z) (s : jsstring) : option Z :=
  match s with
  | [] => Some parenCount
  | c :: rest =>
      let parenCount := if is_char lparen c then (parenCount + 1)%Z
                        else parenCount in
      let parenCount := if is_char rparen c then (parenCount - 1)%Z
                        else parenCount in
      if (parenCount <? 0)%Z then None else count_parens parenCount rest
  end.

(** [invalidPatterns], in order, with their messages. *)
Definition invalidPatterns : list ((jsstring -> bool) * jsstring) :=
  [ (contains (js "***"), js "Invalid operator: ***");
    (contains (js "//"), js "Invalid operator: //");
    (contains (js "++"), js "Invalid operator: ++");
    (contains (js "--"), js "Use - for subtraction");
    (ends_with (js "**"), js "Power needs an exponent");
    (ends_with (js "("), js "Empty parentheses");
    (starts_with (js ")"), js "Expression cannot start with )");
    (contains (js "()"), js "Empty parentheses ()") ].

(** The check mark of the success message. *)
Definition valid_message : jsstring := 10003 :: js " Valid expression".

(** [validateExpression]: the values it gives to [setIsValid] and
    [setValidationMessage]; the first is also what it returns. *)
Definition validateExpression (expr : jsstring) : bool * jsstring :=
  if blank expr then (true, [])
  else
    let normalized := replace_caret expr in
    let normalized := replace_char pi_char (js "pi") normalized in
    let normalized := replace_pair is_digit is_letter normalized in
    let normalized := replace_pair is_letter is_digit normalized in
    match count_parens 0 normalized with
    | None => (false, js "Unbalanced parentheses - extra closing )")
    | Some parenCount =>
        if (0 <? parenCount)%Z then
          (false, js "Missing " ++ toString (Int parenCount)
                     ++ js " closing parenthesis")
        else
          match find (fun pm => fst pm normalized) invalidPatterns with
          | Some (_, message) => (false, message)
          | None => (true, valid_message)
          end
    end.

(** The component's state; [isValid] and [validationMessage] are set by
    the effect that runs [validateExpression(expression)] after every change
    of [expression]. *)
Record calculator : Type := {
  expression : jsstring;
  isValid : bool;
  validationMessage : jsstring
}.

Definition validated (expr : jsstring) : calculator :=
  {| expression := expr;
     isValid := fst (validateExpression expr);
     validationMessage := snd (validateExpression expr) |}.

(** [handleSubmit]: the new state and the arguments of its calls to the
    prop [onSubmit], for a component that was given one. *)
Definition handleSubmit (st : calculator)
  : calculator * list jsstring :=
  if blank (expression st) then
    ({| expression := expression st; isValid := false;
        validationMessage := js "Please enter an expression" |}, [])
  else if negb (isValid st) then (st, [])
  else (st, [normalizeForBackend (expression st)]).

(** The parentheses of a string, in order, and what it means for them to
    be balanced; both only serve to state properties. *)
Definition parens (s : jsstring) : jsstring :=
  filter (fun c => is_char lparen c || is_char rparen c) s.

Definition opens (s : jsstring) : Z :=
  Z.of_nat (List.length (filter (is_char lparen) s)).

Definition closes (s : jsstring) : Z :=
  Z.of_nat (List.length (filter (is_char rparen) s)).

Definition balanced (s : jsstring) : Prop :=
  opens s = closes s /\
  forall k, (closes (firstn k s) <= opens (firstn k s))%Z.

End Calculator.

(** ** Frontend: the slider version of the interval-count control
       (unnamed/part_000, second component) *)

Module SliderControls.

Import JsNumber.

Definition nValues : list Z := [4; 8; 16; 32; 64; 128; 256; 512; 1024]%Z.

(** [array.indexOf(x)]: the first index of [x], [-1] when it is absent. *)
Fixpoint indexOf (l : list Z) (x : Z) : Z :=
  match l with
  | [] => (-1)%Z
  | y :: rest =>
      if (y =? x)%Z then 0%Z
      else let i := indexOf rest x in
           if (i =? -1)%Z then (-1)%Z else (i + 1)%Z
  end.

Definition nIndex (n : Z) : Z :=
  if negb (indexOf nValues n =? -1)%Z then indexOf nValues n else 4%Z.

(** [nValues[index]]: [undefined] ([None]) outside the array and at
    [NaN]. *)
Definition at_index (l : list Z) (index : number) : option Z :=
  match index with
  | NaN => None
  | Int i => if (i <? 0)%Z then None else nth_error l (Z.to_nat i)
  end.

(** [handleSliderChange]: the argument of its call to [onNChange]. *)
Definition handleSliderChange (value : jsstring) : option Z :=
  let index := parseInt value in
  at_index nValues index.

End SliderControls.

(** ** Frontend: the summary table of the deliverables page
       (unnamed/part_001, third component) *)

Record summary : Type := {
  finalError : R;
  finalN : nat;
  avgEoc : option R;
  firstError : R;
  errorReduction : option R
}.

Section Deliverables.

Open Scope R_scope.

(** [results.filter(r => r.eoc !== null).map(r => r.eoc)]. *)
Definition eocValues (results : list error_record) : list R :=
  flat_map (fun r => match rec_eoc r with
                     | Some e => [e]
                     | None => []
                     end) results.

(** [getSummaryStats], on [analysisData.results[method]] ([None] when the
    method has no entry).  Numbers are idealised as reals: the sum and the
    quotients are exact, where JavaScript rounds and can overflow.  A
    quotient by zero is not a finite number: [None]. *)
Definition getSummaryStats (results : option (list error_record))
  : option summary :=
  match results with
  | None => None
  | Some [] => None
  | Some ((first :: _) as results) =>
      let values := eocValues results in
      let avg := if (List.length values =? 0)%nat then None
                 else Some (fold_left Rplus values 0
                            / INR (List.length values)) in
      let last := List.last results first in
      Some {| finalError := rec_abs_error last;
              finalN := rec_n last;
              avgEoc := avg;
              firstError := rec_abs_error first;
              errorReduction :=
                if Req_dec_T (rec_abs_error last) 0 then None
                else Some (rec_abs_error first / rec_abs_error last) |}
  end.

End Deliverables.

(** * Properties *)

Unset Implicit Arguments.

(** ** Lists, ranges and sums *)

Section ListFacts.

Open Scope R_scope.

Lemma sum_app (l1 l2 : list R) :
  Py.sum (l1 ++ l2) = Py.sum l1 + Py.sum l2.
Proof.
  induction l1 as [|x l1 IH]; simpl; [lra|]. rewrite IH. lra.
Qed.

Lemma sum_rev (l : list R) : Py.sum (rev l) = Py.sum l.
Proof.
  induction l as [|x l IH]; simpl; [reflexivity|].
  rewrite sum_app, IH. simpl. lra.
Qed.

Lemma rev_seq0 (k : nat) :
  rev (seq 0 k) = map (fun i => k - 1 - i)%nat (seq 0 k).
Proof.
  induction k as [|k IH]; [reflexivity|].
  rewrite seq_S at 1. rewrite rev_app_distr. simpl rev. simpl app.
  rewrite IH. cbn [seq map]. f_equal; [lia|].
  rewrite <- seq_shift, map_map.
  apply map_ext_in. intros i Hi. apply in_seq in Hi. lia.
Qed.

Lemma firstn_seq_min (k s len : nat) :
  firstn k (seq s len) = seq s (Nat.min k len).
Proof.
  revert s len. induction k as [|k IH]; intros s [|len]; simpl; trivial.
  now rewrite IH.
Qed.

Lemma slice_map_seq {A : Type} (F : nat -> A) (s e len : nat) :
  Py.slice s e (map F (seq 0 len)) = map F (seq s (len - e - s)).
Proof.
  unfold Py.slice. rewrite length_map, length_seq.
  rewrite skipn_map, firstn_map, skipn_seq, firstn_seq_min.
  f_equal. f_equal. lia.
Qed.

Lemma step2_map {A B : Type} (F : A -> B) (l : list A) :
  Py.step2 (map F l) = map F (Py.step2 l).
Proof.
  revert l. fix IH 1. intros [|x [|y l]]; simpl; try reflexivity.
  f_equal. apply IH.
Qed.

Lemma step2_seq (len s : nat) :
  Py.step2 (seq s len) = map (fun k => s + 2 * k)%nat (seq 0 ((len + 1) / 2)).
Proof.
  revert s. induction len as [len IH] using lt_wf_ind. intros s.
  destruct len as [|[|len]].
  - reflexivity.
  - simpl. f_equal. lia.
  - replace ((S (S len) + 1) / 2)%nat with (S ((len + 1) / 2)).
    + cbn [seq Py.step2 map]. f_equal; [lia|].
      rewrite IH by lia. rewrite <- seq_shift, map_map.
      apply map_ext. intros k. lia.
    + replace (S (S len) + 1)%nat with (len + 1 + 1 * 2)%nat by lia.
      rewrite Nat.div_add by lia. lia.
Qed.

End ListFacts.

(** ** The sample points of the three rules *)

Section QuadratureFacts.

Open Scope R_scope.

Lemma linspace_nodes (a b : R) (n : nat) :
  (1 <= n)%nat ->
  Py.linspace a b (n + 1) = map (node a b n) (seq 0 (n + 1)).
Proof.
  intros Hn. unfold Py.linspace.
  replace (n + 1 - 1)%nat with n by lia.
  destruct (Nat.ltb_spec 1 (n + 1)) as [_|]; [|lia].
  replace (n + 1)%nat with (S n) by lia.
  rewrite seq_S, !map_app. cbn [map Nat.add].
  unfold Py.set_last.
  destruct (map _ (seq 0 n) ++ _) eqn:E.
  { destruct (map (fun i => INR i * ((b - a) / INR n) + a) (seq 0 n));
      discriminate. }
  rewrite <- E, removelast_last. f_equal.
  - apply map_ext. intros i. unfold node. lra.
  - unfold node. f_equal. field. apply not_0_INR. lia.
Qed.

Lemma first_map_seq (F : nat -> R) (len : nat) :
  Py.first (map F (seq 0 (S len))) = F 0%nat.
Proof. reflexivity. Qed.

Lemma last_map_seq (F : nat -> R) (len : nat) :
  Py.last (map F (seq 0 (S len))) = F len.
Proof.
  unfold Py.last. rewrite seq_S, map_app. cbn [map Nat.add]. apply last_last.
Qed.

Lemma div_int_pos (x : R) (n : nat) :
  (1 <= n)%nat -> div_int x n = Ok (x / INR n).
Proof.
  intros Hn. unfold div_int. destruct (Nat.eqb_spec n 0); [lia|reflexivity].
Qed.

(** The rules as sums over node indices. *)
Lemma trapezoidal_nodes (f : R -> R) (a b : R) (n : nat) :
  (1 <= n)%nat ->
  trapezoidal_rule f a b n =
  Ok ((b - a) / INR n / 2 *
      (f (node a b n 0) +
       2 * Py.sum (map (fun i => f (node a b n i)) (seq 1 (n - 1))) +
       f (node a b n n))).
Proof.
  intros Hn. unfold trapezoidal_rule.
  rewrite div_int_pos by assumption. cbn [bind].
  rewrite linspace_nodes by assumption. rewrite map_map.
  rewrite slice_map_seq.
  replace (n + 1)%nat with (S n) by lia.
  rewrite first_map_seq, last_map_seq.
  replace (S n - 1 - 1)%nat with (n - 1)%nat by lia. reflexivity.
Qed.

Lemma midpoint_nodes (f : R -> R) (a b : R) (n : nat) :
  (1 <= n)%nat ->
  midpoint_rule f a b n =
  Ok ((b - a) / INR n *
      Py.sum (map (fun i => f (a + (INR i + 0.5) * ((b - a) / INR n)))
                  (seq 0 n))).
Proof.
  intros Hn. unfold midpoint_rule, Py.range.
  rewrite div_int_pos by assumption. cbn [bind].
  now rewrite map_map.
Qed.

Lemma simpson_n_even (n : nat) : (simpson_n n mod 2 = 0)%nat.
Proof.
  unfold simpson_n. destruct (Nat.eqb_spec (n mod 2) 0) as [E|E]; cbn [negb].
  - exact E.
  - pose proof (Nat.mod_upper_bound n 2).
    rewrite Nat.Div0.add_mod by lia.
    replace (n mod 2)%nat with 1%nat by lia. reflexivity.
Qed.

Lemma simpson_n_odd (n : nat) : Nat.odd n = true -> simpson_n n = (n + 1)%nat.
Proof.
  intros Ho. unfold simpson_n.
  rewrite <- Nat.bit0_mod, Nat.bit0_odd, Ho. reflexivity.
Qed.

Lemma simpson_n_ge (n : nat) : (n <= simpson_n n)%nat.
Proof. unfold simpson_n. destruct (negb _); lia. Qed.

Lemma simpsons_nodes (f : R -> R) (a b : R) (n : nat) :
  (1 <= n)%nat ->
  let N := simpson_n n in
  simpsons_rule f a b n =
  Ok ((b - a) / INR N / 3 *
      (f (node a b N 0) +
       4 * Py.sum (map (fun k => f (node a b N (1 + 2 * k))) (seq 0 (N / 2))) +
       2 * Py.sum (map (fun k => f (node a b N (2 + 2 * k)))
                       (seq 0 (N / 2 - 1))) +
       f (node a b N N))).
Proof.
  intros Hn N. pose proof (simpson_n_ge n) as Hge. fold N in Hge.
  pose proof (simpson_n_even n) as Hev. fold N in Hev.
  unfold simpsons_rule. fold N.
  rewrite div_int_pos by lia. cbn [bind].
  rewrite linspace_nodes by lia. rewrite map_map.
  rewrite !slice_map_seq, !step2_map, !step2_seq, !map_map.
  replace (N + 1)%nat with (S N) by lia.
  rewrite first_map_seq, last_map_seq.
  assert (HN : N = (2 * (N / 2))%nat).
  { pose proof (Nat.div_mod_eq N 2). lia. }
  replace ((S N - 1 - 1 + 1) / 2)%nat with (N / 2)%nat
    by (f_equal; lia).
  replace ((S N - 1 - 2 + 1) / 2)%nat with (N / 2 - 1)%nat.
  - reflexivity.
  - replace (S N - 1 - 2 + 1)%nat with (1 + (N / 2 - 1) * 2)%nat by lia.
    rewrite Nat.div_add by lia. reflexivity.
Qed.

(** *** Linear integrands *)

Lemma sum_affine_seq (p q : R) (m : nat) :
  Py.sum (map (fun i => p * INR i + q) (seq 1 m)) =
  p * (INR m * (INR m + 1) / 2) + q * INR m.
Proof.
  induction m as [|m IH]; [simpl; lra|].
  rewrite seq_S, map_app, sum_app, IH. cbn [map Py.sum fold_right Nat.add].
  rewrite !S_INR. lra.
Qed.

Lemma trapezoidal_affine (f : R -> R) (c1 c0 a b : R) (n : nat) :
  (forall x, f x = c1 * x + c0) ->
  (1 <= n)%nat ->
  trapezoidal_rule f a b n = Ok (c1 * (b * b - a * a) / 2 + c0 * (b - a)).
Proof.
  intros Hf Hn. rewrite trapezoidal_nodes by assumption.
  rewrite (map_ext _ (fun i => c1 * ((b - a) / INR n) * INR i + (c1 * a + c0))).
  2:{ intros i. rewrite Hf. unfold node. lra. }
  rewrite sum_affine_seq, !Hf. unfold node.
  assert (H0 : INR n <> 0) by (apply not_0_INR; lia).
  rewrite minus_INR by assumption. cbn [INR].
  f_equal. field. assumption.
Qed.

Lemma line_primitive_lim (c1 c0 x : R) :
  derivable_pt_lim (line_primitive c1 c0) x (c1 * x + c0).
Proof.
  unfold line_primitive.
  replace (c1 * x + c0)
    with ((0 * (id * id)%F x + fct_cte (c1 / 2) x * (1 * id x + id x * 1)) +
          (0 * id x + fct_cte c0 x * 1))
    by (unfold mult_fct, fct_cte, id; field).
  apply derivable_pt_lim_plus; apply derivable_pt_lim_mult;
    try apply derivable_pt_lim_mult;
    try apply derivable_pt_lim_const; apply derivable_pt_lim_id.
Qed.

Lemma line_primitive_derivable (c1 c0 : R) : derivable (line_primitive c1 c0).
Proof.
  intros x. exists (c1 * x + c0). apply line_primitive_lim.
Defined.

Lemma line_primitive_derive (c1 c0 x : R) :
  derive (line_primitive c1 c0) (line_primitive_derivable c1 c0) x =
  c1 * x + c0.
Proof. reflexivity. Qed.

Lemma line_continuity (c1 c0 : R) :
  continuity (derive (line_primitive c1 c0) (line_primitive_derivable c1 c0)).
Proof.
  intros x. apply derivable_continuous_pt.
  exists c1.
  change (derivable_pt_lim (mult_real_fct c1 id + fct_cte c0)%F x c1).
  replace c1 with (c1 * 1 + 0) at 2 by ring.
  apply derivable_pt_lim_plus.
  - apply derivable_pt_lim_scal, derivable_pt_lim_id.
  - apply derivable_pt_lim_const.
Qed.

Lemma line_RiemannInt (f : R -> R) (c1 c0 a b : R)
      (pr : Riemann_integrable f a b) :
  (forall x, f x = c1 * x + c0) ->
  RiemannInt pr = c1 * (b * b - a * a) / 2 + c0 * (b - a).
Proof.
  intros Hf. pose (F := mkC1 (line_continuity c1 c0)).
  assert (HF : forall x y,
             F y - F x = c1 * (y * y - x * x) / 2 + c0 * (y - x)).
  { intros x y. cbn [F RiemannInt.c1].
    unfold line_primitive, plus_fct, mult_fct, fct_cte, id. field. }
  destruct (Rle_dec a b) as [Hab|Hab].
  - pose (pr' := RiemannInt_P32 F a b).
    rewrite (RiemannInt_P18 pr pr' Hab).
    + rewrite FTC_Riemann. apply HF.
    + intros x _. rewrite Hf. reflexivity.
  - assert (Hba : b <= a) by lra.
    pose (pr1 := RiemannInt_P1 pr).
    pose (pr' := RiemannInt_P32 F b a).
    rewrite (RiemannInt_P8 pr pr1), (RiemannInt_P18 pr1 pr' Hba).
    + rewrite FTC_Riemann, HF. field.
    + intros x _. rewrite Hf. reflexivity.
Qed.

Lemma line_integrable (f : R -> R) (c1 c0 a b : R) :
  (forall x, f x = c1 * x + c0) -> Riemann_integrable f a b.
Proof.
  intros Hf.
  assert (Hc : continuity f).
  { intros x. pose proof (line_continuity c1 c0 x) as Hl.
    unfold continuity_pt, continue_in, limit1_in, limit_in in *.
    intros eps Heps. destruct (Hl eps Heps) as (alp & Halp & H).
    exists alp. split; [assumption|]. intros x' Hx'. rewrite !Hf.
    exact (H x' Hx'). }
  destruct (Rle_dec a b) as [Hab|Hab].
  - apply continuity_implies_RiemannInt; [assumption|]. intros; apply Hc.
  - apply RiemannInt_P1, continuity_implies_RiemannInt; [lra|].
    intros; apply Hc.
Qed.

(** *** Reversed bounds *)

Lemma node_reversed (a b : R) (n i : nat) :
  (1 <= n)%nat -> (i <= n)%nat -> node b a n i = node a b n (n - i).
Proof.
  intros Hn Hi. unfold node. rewrite minus_INR by assumption.
  field. apply not_0_INR. lia.
Qed.

Lemma sum_reindex (G : nat -> R) (k : nat) :
  Py.sum (map (fun i => G (k - 1 - i)%nat) (seq 0 k)) = Py.sum (map G (seq 0 k)).
Proof.
  rewrite <- (map_map (fun i => (k - 1 - i)%nat) G).
  rewrite <- rev_seq0, map_rev. apply sum_rev.
Qed.

Lemma trapezoidal_reversed (f : R -> R) (a b : R) (n : nat) :
  (1 <= n)%nat ->
  exists v, trapezoidal_rule f a b n = Ok v /\
            trapezoidal_rule f b a n = Ok (- v).
Proof.
  intros Hn. rewrite !trapezoidal_nodes by assumption.
  eexists; split; [reflexivity|]. f_equal.
  rewrite (@node_reversed a b n 0), (@node_reversed a b n n) by lia.
  replace (n - 0)%nat with n by lia. replace (n - n)%nat with 0%nat by lia.
  assert (E : Py.sum (map (fun i => f (node b a n i)) (seq 1 (n - 1))) =
              Py.sum (map (fun i => f (node a b n i)) (seq 1 (n - 1)))).
  { rewrite <- !seq_shift, !map_map.
    rewrite <- (sum_reindex (fun i => f (node a b n (S i)))).
    f_equal. apply map_ext_in. intros i Hi. apply in_seq in Hi.
    rewrite node_reversed by lia. do 2 f_equal. lia. }
  rewrite E. field. apply not_0_INR. lia.
Qed.

Lemma midpoint_reversed (f : R -> R) (a b : R) (n : nat) :
  (1 <= n)%nat ->
  exists v, midpoint_rule f a b n = Ok v /\
            midpoint_rule f b a n = Ok (- v).
Proof.
  intros Hn. rewrite !midpoint_nodes by assumption.
  eexists; split; [reflexivity|]. f_equal.
  assert (H0 : INR n <> 0) by (apply not_0_INR; lia).
  assert (E : Py.sum (map (fun i => f (b + (INR i + 0.5) * ((a - b) / INR n)))
                          (seq 0 n)) =
              Py.sum (map (fun i => f (a + (INR i + 0.5) * ((b - a) / INR n)))
                          (seq 0 n))).
  { rewrite <- (sum_reindex
                  (fun i => f (a + (INR i + 0.5) * ((b - a) / INR n)))).
    f_equal. apply map_ext_in. intros i Hi. apply in_seq in Hi. f_equal.
    rewrite !minus_INR by lia. cbn [INR].
    replace 0.5 with (/ 2) by lra. field. assumption. }
  rewrite E. field. assumption.
Qed.

Lemma simpsons_reversed (f : R -> R) (a b : R) (n : nat) :
  (1 <= n)%nat ->
  exists v, simpsons_rule f a b n = Ok v /\
            simpsons_rule f b a n = Ok (- v).
Proof.
  intros Hn. rewrite !simpsons_nodes by assumption. cbv zeta.
  pose proof (simpson_n_ge n) as Hge. pose proof (simpson_n_even n) as Hev.
  set (N := simpson_n n) in *.
  assert (HN : N = (2 * (N / 2))%nat).
  { pose proof (Nat.div_mod_eq N 2). lia. }
  set (K := (N / 2)%nat) in *.
  eexists; split; [reflexivity|]. f_equal.
  rewrite (@node_reversed a b N 0), (@node_reversed a b N N) by lia.
  replace (N - 0)%nat with N by lia. replace (N - N)%nat with 0%nat by lia.
  assert (E1 : Py.sum (map (fun k => f (node b a N (1 + 2 * k))) (seq 0 K)) =
               Py.sum (map (fun k => f (node a b N (1 + 2 * k))) (seq 0 K))).
  { rewrite <- (sum_reindex (fun k => f (node a b N (1 + 2 * k)))).
    f_equal. apply map_ext_in. intros k Hk. apply in_seq in Hk.
    rewrite node_reversed by lia. do 2 f_equal. lia. }
  assert (E2 : Py.sum (map (fun k => f (node b a N (2 + 2 * k)))
                           (seq 0 (K - 1))) =
               Py.sum (map (fun k => f (node a b N (2 + 2 * k)))
                           (seq 0 (K - 1)))).
  { rewrite <- (sum_reindex (fun k => f (node a b N (2 + 2 * k)))).
    f_equal. apply map_ext_in. intros k Hk. apply in_seq in Hk.
    rewrite node_reversed by lia. do 2 f_equal. lia. }
  rewrite E1, E2. field. apply not_0_INR. lia.
Qed.

End QuadratureFacts.

(** ** Normalisation of expressions *)

Section NormalizeFacts.
Import Js JsAux.

Lemma jsstring_ind2 (P : jsstring -> Prop) :
  P [] -> (forall c, P [c]) ->
  (forall c1 c2 t, P t -> P (c2 :: t) -> P (c1 :: c2 :: t)) ->
  forall s, P s.
Proof.
  intros H0 H1 H2 s.
  assert (H : P s /\ forall c, P (c :: s)); [|apply H].
  induction s as [|c s [IH1 IH2]]; split; auto.
Qed.

Lemma star_not_digit c : is_digit c = true -> is_char star c = false.
Proof.
  unfold is_digit, is_char, star. intros H.
  apply andb_true_iff in H as [H1 H2].
  apply N.leb_le in H1. apply N.eqb_neq. lia.
Qed.

Lemma star_not_letter c : is_letter c = true -> is_char star c = false.
Proof.
  unfold is_letter, is_char, star. intros H. apply N.eqb_neq.
  apply orb_true_iff in H as [H|H]; apply andb_true_iff in H as [H1 H2];
    apply N.leb_le in H1; lia.
Qed.

Lemma star_not_paren c c0 :
  c0 <> star -> is_char c0 c = true -> is_char star c = false.
Proof.
  unfold is_char. intros Hc H. apply N.eqb_eq in H. subst.
  now apply N.eqb_neq.
Qed.

Lemma digit_not_letter c : is_letter c = true -> is_digit c = false.
Proof.
  unfold is_letter, is_digit. intros H. apply andb_false_iff.
  apply orb_true_iff in H as [H|H]; apply andb_true_iff in H as [H1 H2];
    apply N.leb_le in H1; right; apply N.leb_gt; lia.
Qed.

(** *** Passes only insert stars *)

Lemma ins_refl s : ins s s.
Proof. induction s; constructor; auto. Qed.

Lemma ins_replace_pair p1 p2 s :
  (forall c, p1 c = true -> is_char star c = false) ->
  (forall c, p2 c = true -> is_char star c = false) ->
  ins s (replace_pair p1 p2 s).
Proof.
  intros Hp1 Hp2. induction s as [|c|c1 c2 t IH1 IH2] using jsstring_ind2.
  - constructor.
  - apply ins_refl.
  - change (replace_pair p1 p2 (c1 :: c2 :: t)) with
      (if p1 c1 && p2 c2 then c1 :: star :: c2 :: replace_pair p1 p2 t
       else c1 :: replace_pair p1 p2 (c2 :: t)).
    destruct (p1 c1 && p2 c2) eqn:E.
    + apply andb_true_iff in E as [E1 E2].
      apply ins_star; auto. now apply ins_keep.
    + now apply ins_keep.
Qed.

Lemma ins_replace_letter_digit s : forall before,
  ins s (replace_letter_digit before s).
Proof.
  induction s as [|c|c1 c2 t IH1 IH2] using jsstring_ind2; intros before.
  - constructor.
  - apply ins_refl.
  - change (replace_letter_digit before (c1 :: c2 :: t)) with
      (if is_letter c1 && is_digit c2 && not_before_star t then
         (if after_power before then [c1; c2] else [c1; star; c2])
           ++ replace_letter_digit (c2 :: c1 :: before) t
       else c1 :: replace_letter_digit (c1 :: before) (c2 :: t)).
    destruct (is_letter c1 && is_digit c2 && not_before_star t) eqn:E.
    + apply andb_true_iff in E as [E E3]. apply andb_true_iff in E as [E1 E2].
      destruct (after_power before); cbn [app].
      * do 2 apply ins_keep. apply IH1.
      * apply ins_star; auto using star_not_letter, star_not_digit.
        apply ins_keep, IH1.
    + apply ins_keep, IH2.
Qed.

Lemma ins_hd s s' : ins s s' -> hd_error s' = hd_error s.
Proof. now destruct 1. Qed.

Lemma ins_In s s' c : ins s s' -> In c s' -> c = star \/ In c s.
Proof.
  induction 1; cbn; intros Hin; auto.
  - destruct Hin as [->|Hin]; auto. destruct (IHins Hin); auto.
  - destruct Hin as [->|[<-|Hin]]; auto.
    destruct (IHins Hin) as [|[|]]; auto.
Qed.


(** *** A pass leaves no match of its own, and fixes strings without one *)

Lemma replace_pair_cons p1 p2 c1 c2 t :
  replace_pair p1 p2 (c1 :: c2 :: t) =
  if p1 c1 && p2 c2 then c1 :: star :: c2 :: replace_pair p1 p2 t
  else c1 :: replace_pair p1 p2 (c2 :: t).
Proof. reflexivity. Qed.

Lemma replace_letter_digit_cons before c1 c2 t :
  replace_letter_digit before (c1 :: c2 :: t) =
  if is_letter c1 && is_digit c2 && not_before_star t then
    (if after_power before then [c1; c2] else [c1; star; c2])
      ++ replace_letter_digit (c2 :: c1 :: before) t
  else c1 :: replace_letter_digit (c1 :: before) (c2 :: t).
Proof. reflexivity. Qed.

Lemma no_pair_cons p1 p2 c1 rest :
  no_pair p1 p2 (c1 :: rest) =
  match rest with
  | c2 :: _ => negb (p1 c1 && p2 c2)
  | [] => true
  end && no_pair p1 p2 rest.
Proof. reflexivity. Qed.

Lemma stable_cons k c1 rest :
  stable k (c1 :: rest) =
  match rest with
  | c2 :: t =>
      if is_letter c1 && is_digit c2 && not_before_star t
      then (k =? 2)%nat else true
  | [] => true
  end && stable (next_trail k c1) rest.
Proof. reflexivity. Qed.

Lemma hd_replace_pair p1 p2 s :
  hd_error (replace_pair p1 p2 s) = hd_error s.
Proof.
  destruct s as [|c1 [|c2 t]]; try reflexivity.
  rewrite replace_pair_cons. now destruct (p1 c1 && p2 c2).
Qed.

Lemma no_pair_replace_pair p1 p2 s :
  (forall c, p2 c = true -> p1 c = false) ->
  p1 star = false -> p2 star = false ->
  no_pair p1 p2 (replace_pair p1 p2 s) = true.
Proof.
  intros Hd Hs1 Hs2.
  induction s as [|c|c1 c2 t IH1 IH2] using jsstring_ind2; try reflexivity.
  rewrite replace_pair_cons. destruct (p1 c1 && p2 c2) eqn:E.
  - apply andb_true_iff in E as [E1 E2].
    rewrite !no_pair_cons, Hs1, Hs2, (Hd _ E2), IH1, andb_false_r.
    cbn. now destruct (replace_pair p1 p2 t).
  - pose proof (hd_replace_pair p1 p2 (c2 :: t)) as Hhd.
    rewrite no_pair_cons, IH2.
    destruct (replace_pair p1 p2 (c2 :: t)); [reflexivity|].
    injection Hhd as ->. now rewrite E.
Qed.

Lemma no_pair_fix p1 p2 s :
  no_pair p1 p2 s = true -> replace_pair p1 p2 s = s.
Proof.
  induction s as [|c|c1 c2 t IH1 IH2] using jsstring_ind2; try reflexivity.
  rewrite no_pair_cons, replace_pair_cons. intros H.
  apply andb_true_iff in H as [H1 H2].
  apply negb_true_iff in H1. rewrite H1. f_equal. apply IH2, H2.
Qed.

Lemma no_pair_ins p1 p2 s s' :
  p1 star = false -> p2 star = false ->
  ins s s' -> no_pair p1 p2 s = true -> no_pair p1 p2 s' = true.
Proof.
  intros Hs1 Hs2. induction 1 as [|c s s' Hins IH|c1 c2 s s' H1 H2 Hins IH].
  - reflexivity.
  - rewrite !no_pair_cons. intros H. apply andb_true_iff in H as [Hc Hr].
    rewrite (IH Hr), andb_true_r.
    apply ins_hd in Hins. destruct s, s'; try discriminate; auto.
    now injection Hins as ->.
  - intros H. rewrite no_pair_cons in H. apply andb_true_iff in H as [_ Hr].
    rewrite (no_pair_cons _ _ c1), (no_pair_cons _ _ star).
    rewrite Hs1, Hs2, andb_false_r. cbn [negb andb]. now apply IH.
Qed.

(** *** The letter-digit pass *)

Lemma next_trail_trail before c :
  next_trail (trail before) c = trail (c :: before).
Proof.
  unfold next_trail; cbn [trail]. destruct (is_char star c); [|reflexivity].
  destruct before as [|c1 [|c2 rest]]; cbn [trail]; try reflexivity;
    destruct (is_char star c1); try reflexivity.
  now destruct (is_char star c2).
Qed.

Lemma after_power_trail before :
  after_power before = (trail before =? 2)%nat.
Proof.
  destruct before as [|c1 [|c2 rest]]; cbn; try reflexivity;
    destruct (is_char star c1); try reflexivity.
  now destruct (is_char star c2).
Qed.

Lemma letter_not_digit c : is_digit c = true -> is_letter c = false.
Proof.
  intros H. destruct (is_letter c) eqn:E; [|reflexivity].
  apply digit_not_letter in E. congruence.
Qed.

Lemma stable_fix s : forall before,
  stable (trail before) s = true -> replace_letter_digit before s = s.
Proof.
  induction s as [|c|c1 c2 t IH1 IH2] using jsstring_ind2; intros before;
    try reflexivity.
  rewrite stable_cons, replace_letter_digit_cons, next_trail_trail.
  intros H. apply andb_true_iff in H as [Hc Hr].
  destruct (is_letter c1 && is_digit c2 && not_before_star t).
  - rewrite after_power_trail, Hc. cbn [app]. do 2 f_equal.
    apply IH1. rewrite stable_cons, next_trail_trail in Hr.
    now apply andb_true_iff in Hr as [_ Hr].
  - f_equal. now apply IH2.
Qed.

Lemma stable_skip k c s :
  is_letter c = false ->
  stable k (c :: s) = stable (next_trail k c) s.
Proof.
  intros H. rewrite stable_cons, H. now destruct s.
Qed.

Lemma next_trail_other k c : is_char star c = false -> next_trail k c = 0%nat.
Proof. unfold next_trail. now intros ->. Qed.

Lemma replace_letter_digit_skip before c s :
  is_letter c = false ->
  replace_letter_digit before (c :: s) =
  c :: replace_letter_digit (c :: before) s.
Proof.
  intros H. destruct s; [reflexivity|].
  now rewrite replace_letter_digit_cons, H.
Qed.

Lemma replace_letter_digit_hd before c s :
  exists r, replace_letter_digit before (c :: s) = c :: r.
Proof.
  pose proof (ins_hd _ _ (ins_replace_letter_digit (c :: s) before)) as H.
  destruct (replace_letter_digit before (c :: s)) as [|c' r];
    [discriminate|].
  injection H as ->. now exists r.
Qed.

Lemma replace_letter_digit_hd2 before c2 c3 s :
  is_letter c2 = false ->
  exists r, replace_letter_digit before (c2 :: c3 :: s) = c2 :: c3 :: r.
Proof.
  intros H. rewrite replace_letter_digit_skip by assumption.
  destruct (replace_letter_digit_hd (c2 :: before) c3 s) as [r ->].
  now exists r.
Qed.

Lemma stable_establish s : forall before,
  stable (trail before) (replace_letter_digit before s) = true.
Proof.
  induction s as [|c|c1 c2 t IH1 IH2] using jsstring_ind2; intros before;
    try reflexivity.
  rewrite replace_letter_digit_cons.
  destruct (is_letter c1 && is_digit c2 && not_before_star t) eqn:E.
  - apply andb_true_iff in E as [E E3]. apply andb_true_iff in E as [E1 E2].
    rewrite after_power_trail. destruct (trail before =? 2)%nat eqn:Ek.
    + cbn [app]. rewrite stable_cons, Ek.
      rewrite stable_skip by now apply letter_not_digit.
      rewrite !next_trail_trail, IH1, andb_true_r.
      now destruct (is_letter c1 && is_digit c2 && _).
    + cbn [app]. rewrite stable_cons.
      replace (is_digit star) with false by reflexivity.
      rewrite andb_false_r. cbn [andb].
      rewrite stable_skip by reflexivity.
      rewrite stable_skip by now apply letter_not_digit.
      rewrite (next_trail_other _ _ (star_not_digit _ E2)).
      rewrite <- (next_trail_other (trail (c1 :: before)) _
                                   (star_not_digit _ E2)).
      rewrite next_trail_trail. apply IH1.
  - rewrite stable_cons, next_trail_trail, IH2, andb_true_r.
    destruct (is_letter c1 && is_digit c2) eqn:E12.
    + cbn [andb] in E. apply andb_true_iff in E12 as [E1 E2].
      destruct t as [|c3 t']; [discriminate|].
      unfold not_before_star in E. apply negb_false_iff in E.
      destruct (replace_letter_digit_hd2 (c1 :: before) c2 c3 t'
                  (letter_not_digit _ E2)) as [r ->].
      unfold not_before_star. now rewrite E, andb_false_r.
    + destruct (replace_letter_digit_hd (c1 :: before) c2 t) as [r ->].
      now rewrite E12.
Qed.

Lemma stable_cong k1 k2 c s :
  is_char star c = false ->
  (k1 =? 2)%nat = (k2 =? 2)%nat ->
  stable k1 (c :: s) = stable k2 (c :: s).
Proof.
  intros Hc Hk. rewrite !stable_cons. unfold next_trail. now rewrite Hc, Hk.
Qed.

Lemma stable_ins s s' :
  ins s s' -> forall k, stable k s = true -> stable k s' = true.
Proof.
  induction 1 as [|c s s' Hins IH|c1 c2 s s' H1 H2 Hins IH]; intros k.
  - reflexivity.
  - rewrite !stable_cons. intros H. apply andb_true_iff in H as [Hc Hr].
    rewrite (IH _ Hr), andb_true_r.
    destruct Hins as [|c2 s1 s1' Hins1|c2 c3 s1 s1' H2 H3 Hins1].
    + reflexivity.
    + replace (not_before_star s1') with (not_before_star s1); [exact Hc|].
      apply ins_hd in Hins1. unfold not_before_star.
      destruct s1, s1'; try discriminate; auto. now injection Hins1 as ->.
    + cbn. now rewrite andb_false_r.
  - intros H. rewrite stable_cons in H. apply andb_true_iff in H as [_ Hr].
    unfold next_trail in Hr. rewrite H1 in Hr.
    rewrite (stable_cons _ c1), (stable_cons _ star).
    replace (is_digit star) with false by reflexivity.
    replace (is_letter star) with false by reflexivity.
    rewrite andb_false_r. cbn [andb].
    unfold next_trail at 1 2. rewrite H1.
    replace (is_char star star) with true by reflexivity.
    specialize (IH 0%nat Hr).
    rewrite (stable_cong (Nat.min 2 1) 0 c2 s' H2) by reflexivity.
    exact IH.
Qed.

(** *** Carets *)

Lemma replace_caret_no_caret s : ~ In caret (replace_caret s).
Proof.
  unfold replace_caret. rewrite in_flat_map. intros (c & _ & Hc).
  destruct (is_char caret c) eqn:E.
  - destruct Hc as [Hc|[Hc|[]]]; discriminate.
  - destruct Hc as [Hc|[]]. unfold is_char in E.
    rewrite Hc, N.eqb_refl in E. discriminate.
Qed.

Lemma replace_caret_fix s : ~ In caret s -> replace_caret s = s.
Proof.
  induction s as [|c s IH]; [reflexivity|]. intros Hn.
  cbn. destruct (is_char caret c) eqn:E.
  - apply N.eqb_eq in E. subst. exfalso. apply Hn. now left.
  - cbn. f_equal. apply IH. intros Hin. apply Hn. now right.
Qed.

Lemma ins_no_caret s s' : ins s s' -> ~ In caret s -> ~ In caret s'.
Proof.
  intros Hins Hn Hin. destruct (ins_In _ _ _ Hins Hin) as [E|H]; [discriminate|].
  contradiction.
Qed.

End NormalizeFacts.

(** ** Convergence analysis *)

Section AnalysisFacts.

Open Scope R_scope.

Lemma method_eqb_spec (m1 m2 : method) : reflect (m1 = m2) (method_eqb m1 m2).
Proof. destruct m1, m2; constructor; congruence. Qed.

Lemma method_eqb_refl (m : method) : method_eqb m m = true.
Proof. now destruct m. Qed.

(** *** Sorting *)

Lemma insert_sorted_In (n x : nat) (l : list nat) :
  In x (insert_sorted n l) <-> x = n \/ In x l.
Proof.
  induction l as [|m l IH]; cbn.
  - intuition.
  - destruct (n <=? m)%nat; cbn; rewrite ?IH; intuition.
Qed.

Lemma sorted_In (x : nat) (l : list nat) : In x (sorted l) <-> In x l.
Proof.
  induction l as [|n l IH]; cbn; [tauto|].
  rewrite insert_sorted_In, IH. intuition.
Qed.

Lemma sorted_Forall (P : nat -> Prop) (l : list nat) :
  Forall P l -> Forall P (sorted l).
Proof.
  rewrite !Forall_forall. intros H x Hx. apply H. now apply sorted_In.
Qed.

(** [ascending l]: every element is at most the ones after it. *)
Lemma insert_sorted_ascending (n : nat) (l : list nat) :
  StronglySorted le l -> StronglySorted le (insert_sorted n l).
Proof.
  induction 1 as [|m l Hs IH Hm]; cbn.
  - repeat constructor.
  - destruct (Nat.leb_spec n m).
    + constructor; [now constructor|].
      constructor; [assumption|].
      eapply Forall_impl; [|exact Hm]. intros; lia.
    + constructor; [assumption|].
      apply Forall_forall. intros x Hx. apply insert_sorted_In in Hx.
      destruct Hx as [->|Hx]; [lia|].
      rewrite Forall_forall in Hm. now apply Hm.
Qed.

Lemma sorted_ascending (l : list nat) : StronglySorted le (sorted l).
Proof.
  induction l; cbn; [constructor|now apply insert_sorted_ascending].
Qed.

Lemma sorted_length (l : list nat) :
  List.length (sorted l) = List.length l.
Proof.
  induction l as [|n l IH]; cbn; [reflexivity|]. rewrite <- IH.
  generalize (sorted l). intros s. induction s as [|m s IHs]; cbn; auto.
  destruct (n <=? m)%nat; cbn; auto.
Qed.

Lemma ascending_last (l : list nat) (x d : nat) :
  StronglySorted le l -> In x l -> (x <= List.last l d)%nat.
Proof.
  induction 1 as [|m l Hs IH Hm]; [contradiction|].
  intros [->|Hx].
  - destruct l as [|y l]; [cbn; lia|].
    change (List.last (x :: y :: l) d) with (List.last (y :: l) d).
    rewrite Forall_forall in Hm.
    assert (Hy : In (List.last (y :: l) d) (y :: l)).
    { clear. revert y. induction l as [|z l IHl]; intros y; [now left|].
      right. apply IHl. }
    now apply Hm.
  - destruct l as [|y l]; [contradiction|].
    change (List.last (m :: y :: l) d) with (List.last (y :: l) d).
    now apply IH.
Qed.

Lemma ascending_next (l : list nat) (i n1 n2 : nat) :
  StronglySorted le l ->
  nth_error l i = Some n1 -> nth_error l (S i) = Some n2 -> (n1 <= n2)%nat.
Proof.
  intros Hs. revert i. induction Hs as [|m l Hs IH Hm]; intros i.
  - destruct i; discriminate.
  - destruct i as [|i]; cbn.
    + intros [= ->] H2. rewrite Forall_forall in Hm. apply Hm.
      destruct l; [discriminate|]. injection H2 as ->. now left.
    + apply IH.
Qed.


(** *** The loop over the subdivision counts *)

Lemma compute_integral_total (f : R -> R) (a b : R) (n : nat) (m : method) :
  (1 <= n)%nat -> exists v, compute_integral f a b n m = Ok v.
Proof.
  intros Hn. destruct m; cbn [compute_integral].
  - rewrite trapezoidal_nodes by assumption. eauto.
  - rewrite midpoint_nodes by assumption. eauto.
  - rewrite simpsons_nodes by assumption. eauto.
Qed.

Lemma convergence_loop_cons (f : R -> R) (a b ex : R) (m : method)
      (prev : option (R * nat)) (n : nat) (ns : list nat)
      (recs : list error_record) :
  convergence_loop f a b ex m prev (n :: ns) = Ok recs ->
  exists approx tl,
    compute_integral f a b n m = Ok approx /\
    (1 <= n)%nat /\
    convergence_loop f a b ex m (Some (Rabs (approx - ex), n)) ns = Ok tl /\
    recs =
    {| rec_n := n; rec_h := (b - a) / INR n; rec_approx := approx;
       rec_abs_error := Rabs (approx - ex);
       rec_rel_error := snd (calculate_errors approx ex);
       rec_eoc := match prev with
                  | None => None
                  | Some (prev_error, prev_n) =>
                      calculate_eoc prev_error (Rabs (approx - ex)) prev_n n
                  end |} :: tl.
Proof.
  cbn [convergence_loop].
  destruct (compute_integral f a b n m) as [approx|]; [|discriminate].
  cbn [bind]. unfold div_int. destruct (Nat.eqb_spec n 0); [discriminate|].
  cbn [bind fst calculate_errors].
  destruct (convergence_loop f a b ex m _ ns) as [tl|] eqn:E; [|discriminate].
  cbn [bind]. intros [= <-]. exists approx, tl.
  repeat split; try assumption; try lia.
Qed.

Lemma convergence_loop_total (f : R -> R) (a b ex : R) (m : method)
      (ns : list nat) :
  Forall (fun n => 1 <= n)%nat ns ->
  forall prev, exists recs, convergence_loop f a b ex m prev ns = Ok recs.
Proof.
  induction 1 as [|n ns Hn Hns IH]; intros prev; cbn [convergence_loop].
  - eauto.
  - destruct (compute_integral_total f a b n m Hn) as [v ->]. cbn [bind].
    rewrite div_int_pos by assumption. cbn [bind].
    destruct (IH (Some (fst (calculate_errors v ex), n))) as [tl ->].
    cbn [bind]. eauto.
Qed.

Lemma convergence_loop_n (f : R -> R) (a b ex : R) (m : method)
      (ns : list nat) :
  forall prev recs,
    convergence_loop f a b ex m prev ns = Ok recs ->
    map rec_n recs = ns /\
    Forall (fun r => rec_h r = (b - a) / INR (rec_n r) /\
                     compute_integral f a b (rec_n r) m = Ok (rec_approx r) /\
                     rec_abs_error r = Rabs (rec_approx r - ex)) recs.
Proof.
  induction ns as [|n ns IH]; intros prev recs H.
  - injection H as <-. split; constructor.
  - apply convergence_loop_cons in H as (v & tl & Hv & Hn & Htl & ->).
    destruct (IH _ _ Htl) as [IH1 IH2]. cbn [map rec_n]. split.
    + now rewrite IH1.
    + constructor; [|assumption]. cbn. auto.
Qed.

Lemma convergence_loop_first (f : R -> R) (a b ex : R) (m : method)
      (ns : list nat) (prev : option (R * nat)) (recs tl : list error_record)
      (r : error_record) :
  convergence_loop f a b ex m prev ns = Ok recs ->
  recs = r :: tl ->
  rec_eoc r = match prev with
              | None => None
              | Some (prev_error, prev_n) =>
                  calculate_eoc prev_error (rec_abs_error r) prev_n (rec_n r)
              end.
Proof.
  destruct ns as [|n ns]; intros H ->.
  - discriminate.
  - apply convergence_loop_cons in H as (v & tl' & _ & _ & _ & [= -> _]).
    reflexivity.
Qed.

Lemma convergence_loop_next (f : R -> R) (a b ex : R) (m : method)
      (ns : list nat) :
  forall prev recs i r1 r2,
    convergence_loop f a b ex m prev ns = Ok recs ->
    nth_error recs i = Some r1 -> nth_error recs (S i) = Some r2 ->
    rec_eoc r2 = calculate_eoc (rec_abs_error r1) (rec_abs_error r2)
                               (rec_n r1) (rec_n r2).
Proof.
  induction ns as [|n ns IH]; intros prev recs i r1 r2 H H1 H2.
  - injection H as <-. destruct i; discriminate.
  - apply convergence_loop_cons in H as (v & tl & _ & _ & Htl & ->).
    destruct i as [|i].
    + injection H1 as <-. cbn in H2. destruct tl as [|r tl']; [discriminate|].
      injection H2 as ->.
      now rewrite (convergence_loop_first _ _ _ _ _ _ _ _ _ _ Htl eq_refl).
    + cbn in H1, H2. eapply IH; eassumption.
Qed.


(** *** The dict of results *)

Lemma get_set_same {V : Type} (d : Dict.t method V) (k : method) (v : V) :
  Dict.get method_eqb (Dict.set method_eqb d k v) k = Some v.
Proof.
  induction d as [|[k' v'] d IH]; cbn.
  - now rewrite method_eqb_refl.
  - destruct (method_eqb k k') eqn:E; cbn; rewrite ?method_eqb_refl, ?E; auto.
Qed.

Lemma get_set_other {V : Type} (d : Dict.t method V) (k k' : method) (v : V) :
  k <> k' ->
  Dict.get method_eqb (Dict.set method_eqb d k v) k' =
  Dict.get method_eqb d k'.
Proof.
  intros Hk. induction d as [|[k0 v0] d IH]; cbn.
  - destruct (method_eqb_spec k' k); congruence.
  - destruct (method_eqb_spec k k0) as [->|]; cbn.
    + destruct (method_eqb_spec k' k0); congruence.
    + now rewrite IH.
Qed.

Lemma keys_set {V : Type} (d : Dict.t method V) (k : method) (v : V) :
  Dict.keys (Dict.set method_eqb d k v) =
  Dict.add_key method_eqb (Dict.keys d) k.
Proof.
  unfold Dict.add_key, Dict.keys. induction d as [|[k' v'] d IH]; cbn.
  - reflexivity.
  - destruct (method_eqb_spec k k') as [->|]; cbn; [reflexivity|].
    rewrite IH. now destruct (existsb _ _).
Qed.

Lemma values_set {V : Type} (P : V -> Prop) (d : Dict.t method V)
      (k : method) (v : V) :
  P v -> Forall (fun kv => P (snd kv)) d ->
  Forall (fun kv => P (snd kv)) (Dict.set method_eqb d k v).
Proof.
  intros Hv. induction 1 as [|[k' v'] d H Hd IH]; cbn.
  - now repeat constructor.
  - destruct (method_eqb k k'); constructor; auto.
Qed.

Lemma methods_loop_total (f : R -> R) (a b ex : R) (n_values : list nat) :
  Forall (fun n => 1 <= n)%nat n_values ->
  forall methods d0,
  exists d, methods_loop f a b ex n_values d0 methods = Ok d.
Proof.
  intros Hn. induction methods as [|m methods IH]; intros d0; cbn.
  - eauto.
  - unfold method_results.
    destruct (convergence_loop_total f a b ex m (sorted n_values)
                (sorted_Forall _ _ Hn) None) as [rs ->].
    cbn [bind]. apply IH.
Qed.

Lemma methods_loop_spec (f : R -> R) (a b ex : R) (n_values : list nat)
      (P : list error_record -> Prop) :
  (forall m rs, method_results f a b ex m n_values = Ok rs -> P rs) ->
  forall methods d0 d,
    methods_loop f a b ex n_values d0 methods = Ok d ->
    Dict.keys d = fold_left (Dict.add_key method_eqb) methods (Dict.keys d0) /\
    (forall m, In m methods ->
               exists rs, method_results f a b ex m n_values = Ok rs /\
                          Dict.get method_eqb d m = Some rs) /\
    (forall m, ~ In m methods ->
               Dict.get method_eqb d m = Dict.get method_eqb d0 m) /\
    (Forall (fun kv => P (snd kv)) d0 -> Forall (fun kv => P (snd kv)) d).
Proof.
  intros HP. induction methods as [|m methods IH]; intros d0 d H.
  - injection H as <-. cbn. repeat split; auto. intros m [].
  - cbn [methods_loop] in H.
    destruct (method_results f a b ex m n_values) as [rs|] eqn:Em;
      [|discriminate].
    cbn [bind] in H. destruct (IH _ _ H) as (Hk & Hin & Hout & Hall).
    repeat split.
    + cbn [fold_left]. now rewrite Hk, keys_set.
    + intros m' Hm'. destruct (in_dec (fun x y => reflect_dec _ _
                                         (method_eqb_spec x y)) m' methods)
        as [Hr|Hr]; [now apply Hin|].
      destruct Hm' as [<-|Hm']; [|contradiction].
      exists rs. split; [assumption|]. rewrite (Hout _ Hr).
      apply get_set_same.
    + intros m' Hm'. rewrite Hout by (intros ?; apply Hm'; now right).
      apply get_set_other. intros ->. apply Hm'. now left.
    + intros H0. apply Hall, values_set; eauto.
Qed.

(** *** The final errors and the winner *)

Lemma final_errors_spec (d : Dict.t method (list error_record)) :
  forall errs,
    final_errors d = Ok errs ->
    Dict.keys errs = Dict.keys d /\
    forall m rs, Dict.get method_eqb d m = Some rs ->
                 exists r tl, rev rs = r :: tl /\
                              Dict.get method_eqb errs m =
                              Some (rec_abs_error r).
Proof.
  induction d as [|[m0 rs0] d IH]; intros errs H.
  - injection H as <-. split; [reflexivity|]. discriminate.
  - cbn [final_errors] in H. destruct (rev rs0) as [|r0 tl0] eqn:E0;
      [discriminate|].
    destruct (final_errors d) as [errs'|]; [|discriminate].
    cbn [bind] in H. injection H as <-.
    destruct (IH _ eq_refl) as [Hk Hg]. split.
    + unfold Dict.keys in *. cbn. now rewrite Hk.
    + intros m rs. cbn. destruct (method_eqb m m0).
      * intros [= <-]. eauto.
      * apply Hg.
Qed.

Lemma final_errors_total (d : Dict.t method (list error_record)) :
  Forall (fun kv => snd kv <> []) d -> exists errs, final_errors d = Ok errs.
Proof.
  induction 1 as [|[m rs] d Hrs Hd [errs IH]]; cbn.
  - eauto.
  - destruct (rev rs) as [|r tl] eqn:E.
    + exfalso. apply Hrs. cbn. apply (f_equal (@rev _)) in E.
      now rewrite rev_involutive in E.
    + rewrite IH. cbn. eauto.
Qed.

Lemma add_key_In (ks : list method) (k m : method) :
  In m (Dict.add_key method_eqb ks k) <-> In m ks \/ m = k.
Proof.
  unfold Dict.add_key. destruct (existsb _ ks) eqn:E.
  - apply existsb_exists in E as (k' & Hk' & Ek).
    destruct (method_eqb_spec k k'); [subst|discriminate]. intuition; subst; auto.
  - rewrite in_app_iff. cbn. intuition.
Qed.

Lemma keys_In (methods : list method) (m : method) :
  In m (fold_left (Dict.add_key method_eqb) methods []) <-> In m methods.
Proof.
  induction methods as [|k methods IH] using rev_ind; [reflexivity|].
  rewrite fold_left_app. cbn [fold_left].
  rewrite add_key_In, IH, in_app_iff. cbn. intuition.
Qed.

Lemma position_app_In (m : method) (l1 l2 : list method) :
  In m l1 -> position m (l1 ++ l2) = position m l1.
Proof.
  induction l1 as [|x l1 IH]; [contradiction|]. cbn.
  destruct (method_eqb_spec m x); [reflexivity|].
  intros [->|H]; [contradiction|]. now rewrite IH.
Qed.

Lemma position_app_new (m : method) (l : list method) :
  ~ In m l -> position m (l ++ [m]) = List.length l.
Proof.
  induction l as [|x l IH]; cbn; intros H.
  - now rewrite method_eqb_refl.
  - destruct (method_eqb_spec m x) as [->|]; [exfalso; auto|].
    rewrite IH; auto.
Qed.

Lemma position_lt (m : method) (l : list method) :
  In m l -> (position m l < List.length l)%nat.
Proof.
  induction l as [|x l IH]; [contradiction|]. cbn.
  destruct (method_eqb_spec m x); [lia|].
  intros [->|H]; [contradiction|]. apply IH in H. lia.
Qed.

(** [min] over the keys of the dict picks the method with the smallest
    key, and among equal ones the one requested first. *)
Lemma py_min_keys (key : method -> R) (methods : list method) :
  methods <> [] ->
  exists w,
    py_min (fun m => finite (key m))
           (fold_left (Dict.add_key method_eqb) methods []) = Ok w /\
    In w methods /\
    forall m, In m methods ->
              key w <= key m /\
              (key m = key w -> (position w methods <= position m methods)%nat).
Proof.
  induction methods as [|k methods IH] using rev_ind; [congruence|].
  intros _. rewrite fold_left_app. cbn [fold_left].
  destruct methods as [|k0 methods0].
  { exists k. cbn. split; [reflexivity|]. split; [now left|].
    intros m [<-|[]]. split; [lra|]. intros _. lia. }
  set (methods := k0 :: methods0) in *.
  destruct IH as (w & Hw & Hin & Hmin); [discriminate|].
  set (ks := fold_left (Dict.add_key method_eqb) methods []) in *.
  unfold Dict.add_key. destruct (existsb (method_eqb k) ks) eqn:E.
  - (* [k] was requested before: same keys, same winner *)
    assert (Hk : In k methods).
    { apply keys_In. apply existsb_exists in E as (k' & Hk' & Ek).
      destruct (method_eqb_spec k k'); [now subst|discriminate]. }
    exists w. split; [assumption|]. split; [apply in_app_iff; auto|].
    intros m Hm. rewrite position_app_In by assumption.
    assert (Hm' : In m methods).
    { apply in_app_iff in Hm as [Hm|[<-|[]]]; assumption. }
    rewrite position_app_In by assumption. now apply Hmin.
  - (* a new key at the end *)
    assert (Hk : ~ In k methods).
    { intros Hk. apply keys_In in Hk. fold ks in Hk.
      assert (existsb (method_eqb k) ks = true); [|congruence].
      apply existsb_exists. exists k. now rewrite method_eqb_refl. }
    unfold py_min in *. destruct ks as [|x rest]; [discriminate|].
    injection Hw as Hw. cbn [app]. rewrite fold_left_app.
    cbn [Np.ltb] in Hw |- *. rewrite Hw. cbn [fold_left].
    destruct (Rlt_dec (key k) (key w)) as [Hlt|Hge].
    + exists k. split; [reflexivity|]. split; [apply in_app_iff; cbn; auto|].
      intros m Hm. apply in_app_iff in Hm as [Hm|[<-|[]]].
      * destruct (Hmin _ Hm) as [Hle _]. split; [lra|]. intros; lra.
      * split; [lra|]. intros _. lia.
    + exists w. split; [reflexivity|]. split; [apply in_app_iff; auto|].
      intros m Hm. rewrite (position_app_In w) by assumption.
      apply in_app_iff in Hm as [Hm|[<-|[]]].
      * rewrite position_app_In by assumption. now apply Hmin.
      * split; [lra|]. intros _. rewrite position_app_new by assumption.
        apply position_lt in Hin. lia.
Qed.


(** *** The analysis as a whole *)

Lemma method_results_nonempty (f : R -> R) (a b ex : R) (m : method)
      (n_values : list nat) (rs : list error_record) :
  n_values <> [] ->
  method_results f a b ex m n_values = Ok rs -> rs <> [].
Proof.
  intros Hn H. apply convergence_loop_n in H as [H _]. intros ->.
  apply (f_equal (@List.length _)) in H. rewrite sorted_length in H.
  destruct n_values; [congruence|discriminate].
Qed.

Lemma method_results_last (f : R -> R) (a b ex : R) (m : method)
      (n_values : list nat) (rs tl : list error_record) (r : error_record) :
  method_results f a b ex m n_values = Ok rs ->
  rev rs = r :: tl ->
  In (rec_n r) n_values /\ forall n, In n n_values -> (n <= rec_n r)%nat.
Proof.
  intros H Hr. apply convergence_loop_n in H as [H _].
  assert (E : sorted n_values = map rec_n (rev tl) ++ [rec_n r]).
  { rewrite <- H. apply (f_equal (@rev _)) in Hr.
    rewrite rev_involutive in Hr. rewrite Hr. cbn [rev].
    now rewrite map_app. }
  assert (L : List.last (sorted n_values) 0%nat = rec_n r).
  { rewrite E. apply last_last. }
  split.
  - apply sorted_In. rewrite E. apply in_app_iff. right. now left.
  - intros n Hn. rewrite <- L. apply ascending_last.
    + apply sorted_ascending.
    + now apply sorted_In.
Qed.

Lemma analyze_convergence_spec (exact_integral : (R -> R) -> R -> R -> R * R)
      (f : R -> R) (a b : R) (methods : list method) (n_values : list nat) :
  methods <> [] -> n_values <> [] ->
  Forall (fun n => 1 <= n)%nat n_values ->
  exists r,
    analyze_convergence exact_integral f a b methods n_values = Ok r /\
    exact_value r = fst (exact_integral f a b) /\
    (forall m, In m methods ->
               exists rs,
                 method_results f a b (exact_value r) m n_values = Ok rs /\
                 Dict.get method_eqb (results r) m = Some rs) /\
    (forall m, ~ In m methods ->
               Dict.get method_eqb (results r) m = None) /\
    In (winner r) methods /\
    forall m, In m methods ->
      exists rw rm,
        final_record r (winner r) = Some rw /\
        final_record r m = Some rm /\
        rec_abs_error rw <= rec_abs_error rm /\
        (rec_abs_error rm = rec_abs_error rw ->
         (position (winner r) methods <= position m methods)%nat).
Proof.
  intros Hm Hn Hpos. unfold analyze_convergence.
  destruct (exact_integral f a b) as [ex err]. cbn [fst].
  destruct (methods_loop_total f a b ex n_values Hpos methods [])
    as [d Hd].
  rewrite Hd. cbn [bind].
  destruct (methods_loop_spec f a b ex n_values (fun rs => rs <> [])
              (fun m rs => method_results_nonempty f a b ex m n_values rs Hn)
              methods [] d Hd) as (Hk & Hin & Hout & Hall).
  specialize (Hall (Forall_nil _)).
  destruct (final_errors_total d Hall) as [errs He]. rewrite He. cbn [bind].
  destruct (final_errors_spec d errs He) as [Hke Hge].
  rewrite Hke, Hk. cbn [Dict.keys map].
  destruct (py_min_keys (get_error errs) methods Hm) as (w & Hw & Hwin & Hmin).
  rewrite Hw. cbn [bind].
  eexists. split; [reflexivity|]. cbn [exact_value results winner].
  split; [reflexivity|]. split; [exact Hin|]. split; [exact Hout|].
  split; [exact Hwin|].
  assert (Hfin : forall m, In m methods ->
            exists rm, final_record {| exact_value := ex; results := d;
                                       winner := w |} m = Some rm /\
                       get_error errs m = rec_abs_error rm).
  { intros m Hmm. destruct (Hin m Hmm) as (rs & _ & Hg).
    destruct (Hge m rs Hg) as (r & tl & Hr & Hge').
    exists r. unfold final_record, get_error. cbn [results].
    now rewrite Hg, Hr, Hge'. }
  intros m Hmm.
  destruct (Hfin w Hwin) as (rw & Hrw & Ew).
  destruct (Hfin m Hmm) as (rm & Hrm & Em).
  exists rw, rm. rewrite <- Ew, <- Em. repeat split; try assumption;
    now apply Hmin.
Qed.

End AnalysisFacts.

(** ** Special values *)

Section SpecialFacts.

Open Scope R_scope.

(** *** The comparison [<] *)

Lemma ltb_nan_r (x : pyfloat) : Np.ltb x nan = false.
Proof. now destruct x. Qed.

Lemma ltb_nan_l (x : pyfloat) : Np.ltb nan x = false.
Proof. reflexivity. Qed.

Lemma ltb_true_not_nan (x y : pyfloat) :
  Np.ltb x y = true -> x <> nan /\ y <> nan.
Proof. destruct x, y; cbn; intros H; split; congruence. Qed.

Lemma ltb_irrefl (x : pyfloat) : Np.ltb x x = false.
Proof.
  destruct x as [r|[|]|]; cbn; try reflexivity.
  destruct (Rlt_dec r r); [lra|reflexivity].
Qed.

(** [z < w] and not [y < w]: then not [y < z], and [z < y] unless [y] is
    NaN. *)
Lemma ltb_below (y z w : pyfloat) :
  Np.ltb z w = true -> Np.ltb y w = false ->
  Np.ltb y z = false /\ (y = nan \/ Np.ltb z y = true).
Proof.
  destruct y as [ry|[|]|], z as [rz|[|]|], w as [rw|[|]|]; cbn;
    repeat match goal with
           | |- context [Rlt_dec ?p ?q] => destruct (Rlt_dec p q)
           end;
    intros H1 H2; try discriminate; (split; [reflexivity || lra|]);
    auto; lra.
Qed.

(** *** Sums and the node forms of the rules *)

Lemma np_sum_finite {A : Type} (F : A -> R) (l : list A) :
  Np.sum (map (fun i => finite (F i)) l) = finite (Py.sum (map F l)).
Proof.
  unfold Np.sum, Py.sum.
  induction l as [|x l IH]; [reflexivity|].
  cbn [map fold_right]. now rewrite IH.
Qed.

Lemma np_first_map_seq (F : nat -> pyfloat) (len : nat) :
  Np.first (map F (seq 0 (S len))) = F 0%nat.
Proof. reflexivity. Qed.

Lemma np_last_map_seq (F : nat -> pyfloat) (len : nat) :
  Np.last (map F (seq 0 (S len))) = F len.
Proof.
  unfold Np.last. rewrite seq_S, map_app. cbn [map Nat.add]. apply last_last.
Qed.

Lemma special_trapezoidal_nodes (func : R -> pyfloat) (a b : R) (n : nat) :
  (1 <= n)%nat ->
  Special.trapezoidal_rule func a b n =
  Ok (Np.mul (finite ((b - a) / INR n / 2))
        (Np.add
           (Np.add (func (node a b n 0))
                   (Np.mul (finite 2)
                           (Np.sum (map (fun i => func (node a b n i))
                                        (seq 1 (n - 1))))))
           (func (node a b n n)))).
Proof.
  intros Hn. unfold Special.trapezoidal_rule.
  rewrite div_int_pos by assumption. cbn [bind].
  rewrite linspace_nodes by assumption. rewrite map_map.
  rewrite slice_map_seq.
  replace (n + 1)%nat with (S n) by lia.
  rewrite np_first_map_seq, np_last_map_seq.
  replace (S n - 1 - 1)%nat with (n - 1)%nat by lia. reflexivity.
Qed.

Lemma special_midpoint_nodes (func : R -> pyfloat) (a b : R) (n : nat) :
  (1 <= n)%nat ->
  Special.midpoint_rule func a b n =
  Ok (Np.mul (finite ((b - a) / INR n))
        (Np.sum (map (fun i => func (a + (INR i + 0.5) * ((b - a) / INR n)))
                     (seq 0 n)))).
Proof.
  intros Hn. unfold Special.midpoint_rule, Py.range.
  rewrite div_int_pos by assumption. cbn [bind].
  now rewrite map_map.
Qed.

Lemma special_simpsons_nodes (func : R -> pyfloat) (a b : R) (n : nat) :
  (1 <= n)%nat ->
  let N := simpson_n n in
  Special.simpsons_rule func a b n =
  Ok (Np.mul (finite ((b - a) / INR N / 3))
        (Np.add
           (Np.add
              (Np.add (func (node a b N 0))
                      (Np.mul (finite 4)
                              (Np.sum
                                 (map (fun k => func (node a b N (1 + 2 * k)))
                                      (seq 0 (N / 2))))))
              (Np.mul (finite 2)
                      (Np.sum (map (fun k => func (node a b N (2 + 2 * k)))
                                   (seq 0 (N / 2 - 1))))))
           (func (node a b N N)))).
Proof.
  intros Hn N. pose proof (simpson_n_ge n) as Hge. fold N in Hge.
  pose proof (simpson_n_even n) as Hev. fold N in Hev.
  unfold Special.simpsons_rule. fold N.
  rewrite div_int_pos by lia. cbn [bind].
  rewrite linspace_nodes by lia. rewrite map_map.
  rewrite !slice_map_seq, !step2_map, !step2_seq, !map_map.
  replace (N + 1)%nat with (S N) by lia.
  rewrite np_first_map_seq, np_last_map_seq.
  assert (HN : N = (2 * (N / 2))%nat).
  { pose proof (Nat.div_mod_eq N 2). lia. }
  replace ((S N - 1 - 1 + 1) / 2)%nat with (N / 2)%nat
    by (f_equal; lia).
  replace ((S N - 1 - 2 + 1) / 2)%nat with (N / 2 - 1)%nat.
  - reflexivity.
  - replace (S N - 1 - 2 + 1)%nat with (1 + (N / 2 - 1) * 2)%nat by lia.
    rewrite Nat.div_add by lia. reflexivity.
Qed.

(** On an integrand whose values are finite the rules give the finite
    values of the rules in exact arithmetic. *)
Lemma special_rules_finite (f : R -> R) (a b : R) (n : nat) :
  (1 <= n)%nat ->
  let func := fun x => finite (f x) in
  (exists v, trapezoidal_rule f a b n = Ok v /\
             Special.trapezoidal_rule func a b n = Ok (finite v)) /\
  (exists v, midpoint_rule f a b n = Ok v /\
             Special.midpoint_rule func a b n = Ok (finite v)) /\
  (exists v, simpsons_rule f a b n = Ok v /\
             Special.simpsons_rule func a b n = Ok (finite v)).
Proof.
  intros Hn func. split; [|split].
  - rewrite trapezoidal_nodes, special_trapezoidal_nodes by assumption.
    eexists. split; [reflexivity|]. unfold func.
    now rewrite (np_sum_finite (fun i => f (node a b n i))).
  - rewrite midpoint_nodes, special_midpoint_nodes by assumption.
    eexists. split; [reflexivity|]. unfold func.
    now rewrite
      (np_sum_finite (fun i => f (a + (INR i + 0.5) * ((b - a) / INR n)))).
  - rewrite simpsons_nodes, special_simpsons_nodes by assumption. cbv zeta.
    eexists. split; [reflexivity|]. unfold func.
    rewrite (np_sum_finite (fun k => f (node a b (simpson_n n) (1 + 2 * k)))).
    now rewrite
      (np_sum_finite (fun k => f (node a b (simpson_n n) (2 + 2 * k)))).
Qed.

(** *** Equal bounds *)

(** The sum of [k] copies of one value. *)
Lemma np_sum_const {A : Type} (v : pyfloat) (l : list A) :
  Np.sum (map (fun _ => v) l) =
  match l, v with
  | [], _ => finite 0
  | _ :: _, finite r => finite (INR (List.length l) * r)
  | _ :: _, _ => v
  end.
Proof.
  unfold Np.sum.
  induction l as [|x l IH]; [reflexivity|].
  cbn [map fold_right]. rewrite IH.
  destruct l as [|y l], v as [r|[|]|]; cbn [Np.add Bool.eqb];
    try reflexivity.
  - f_equal. cbn. lra.
  - f_equal. change (List.length (x :: y :: l)) with (S (List.length (y :: l))).
    rewrite S_INR. lra.
Qed.

Lemma zero_mul_add_inf (x : pyfloat) (s : bool) :
  Np.mul (finite 0) (Np.add x (inf s)) = nan.
Proof.
  destruct x as [r|t|]; cbn [Np.add Np.mul]; try reflexivity.
  - destruct (Req_dec_T 0 0); [reflexivity|lra].
  - destruct (Bool.eqb t s); [|reflexivity]. cbn [Np.mul].
    destruct (Req_dec_T 0 0); [reflexivity|lra].
Qed.

Lemma add_nan_r (x : pyfloat) : Np.add x nan = nan.
Proof. now destruct x. Qed.

(** What the trapezoidal rule and Simpson's rule add up when all their
    ordinates are [v], times a zero step. *)
Lemma zero_step_trapezoidal {A : Type} (v : pyfloat) (c : R) (l : list A) :
  Np.mul (finite 0)
         (Np.add (Np.add v (Np.mul (finite c)
                                   (Np.sum (map (fun _ => v) l))))
                 v) =
  match v with
  | finite _ => finite 0
  | _ => nan
  end.
Proof.
  rewrite np_sum_const. destruct v as [r|s|].
  - destruct l; cbn [Np.mul Np.add]; f_equal; lra.
  - apply zero_mul_add_inf.
  - now rewrite add_nan_r.
Qed.

Lemma zero_step_simpson {A B : Type} (v : pyfloat) (c1 c2 : R)
      (l1 : list A) (l2 : list B) :
  Np.mul (finite 0)
         (Np.add (Np.add (Np.add v (Np.mul (finite c1)
                                           (Np.sum (map (fun _ => v) l1))))
                         (Np.mul (finite c2) (Np.sum (map (fun _ => v) l2))))
                 v) =
  match v with
  | finite _ => finite 0
  | _ => nan
  end.
Proof.
  rewrite !np_sum_const. destruct v as [r|s|].
  - destruct l1, l2; cbn [Np.mul Np.add]; f_equal; lra.
  - apply zero_mul_add_inf.
  - now rewrite add_nan_r.
Qed.

Lemma node_equal_bounds (a : R) (n i : nat) : node a a n i = a.
Proof. unfold node. unfold Rdiv. rewrite Rminus_diag. ring. Qed.

Lemma special_equal_bounds (func : R -> pyfloat) (a : R) (n : nat) :
  (1 <= n)%nat ->
  let v := match func a with
           | finite _ => finite 0
           | _ => nan
           end in
  Special.trapezoidal_rule func a a n = Ok v /\
  Special.midpoint_rule func a a n = Ok v /\
  Special.simpsons_rule func a a n = Ok v.
Proof.
  intros Hn v.
  assert (Z : forall k c, (a - a) / INR k / c = 0).
  { intros k c. unfold Rdiv. rewrite Rminus_diag. ring. }
  assert (Z' : forall k, (a - a) / INR k = 0).
  { intros k. unfold Rdiv. rewrite Rminus_diag. ring. }
  split; [|split].
  - rewrite special_trapezoidal_nodes by assumption.
    rewrite (map_ext _ (fun _ => func a))
      by (intros i; now rewrite node_equal_bounds).
    rewrite !node_equal_bounds, Z. f_equal.
    apply zero_step_trapezoidal.
  - rewrite special_midpoint_nodes by assumption. rewrite Z'.
    rewrite (map_ext _ (fun _ => func a)).
    2:{ intros i. f_equal. ring. }
    rewrite np_sum_const. f_equal. unfold v.
    destruct n as [|n]; [lia|]. cbn [seq].
    destruct (func a) as [r|s|]; cbn [Np.mul]; try reflexivity.
    + f_equal. ring.
    + destruct (Req_dec_T 0 0); [reflexivity|lra].
  - rewrite special_simpsons_nodes by assumption. cbv zeta.
    rewrite (map_ext (fun k => func (node a a (simpson_n n) (1 + 2 * k)))
                     (fun _ => func a))
      by (intros i; now rewrite node_equal_bounds).
    rewrite (map_ext (fun k => func (node a a (simpson_n n) (2 + 2 * k)))
                     (fun _ => func a))
      by (intros i; now rewrite node_equal_bounds).
    rewrite !node_equal_bounds, Z. f_equal.
    apply zero_step_simpson.
Qed.

End SpecialFacts.

(** * The claims *)

Section RecordFacts.

Open Scope R_scope.

Lemma simpson_n_fix (n : nat) : Nat.even n = true -> simpson_n n = n.
Proof.
  intros He. unfold simpson_n.
  rewrite <- Nat.bit0_mod, Nat.bit0_odd, <- Nat.negb_even, He. reflexivity.
Qed.

(** Every record of the analysis carries the [n] of the request and
    [h = (b - a) / n] for that same [n], next to the value of the rule. *)
Lemma records_report_request (exact_integral : (R -> R) -> R -> R -> R * R)
      (f : R -> R) (a b : R) (methods : list method) (n_values : list nat) :
  methods <> [] -> n_values <> [] ->
  Forall (fun n => 1 <= n)%nat n_values ->
  exists r,
    analyze_convergence exact_integral f a b methods n_values = Ok r /\
    forall m, In m methods ->
      exists rs,
        Dict.get method_eqb (results r) m = Some rs /\
        map rec_n rs = sorted n_values /\
        Forall (fun rec =>
                  rec_h rec = (b - a) / INR (rec_n rec) /\
                  compute_integral f a b (rec_n rec) m = Ok (rec_approx rec))
               rs.
Proof.
  intros Hm Hn Hpos.
  destruct (analyze_convergence_spec exact_integral f a b methods n_values
              Hm Hn Hpos) as (r & Hr & _ & Hin & _).
  exists r. split; [assumption|]. intros m Hmm.
  destruct (Hin m Hmm) as (rs & Hrs & Hg). exists rs. split; [assumption|].
  apply convergence_loop_n in Hrs as [H1 H2]. split; [assumption|].
  eapply Forall_impl; [|exact H2]. cbn. intros rec (? & ? & _). auto.
Qed.

Lemma single_request (exact_integral : (R -> R) -> R -> R -> R * R)
      (f : R -> R) (a b : R) (m : method) (n : nat) :
  (1 <= n)%nat ->
  exists r rec,
    analyze_convergence exact_integral f a b [m] [n] = Ok r /\
    Dict.get method_eqb (results r) m = Some [rec] /\
    rec_n rec = n /\ rec_h rec = (b - a) / INR n /\
    compute_integral f a b n m = Ok (rec_approx rec).
Proof.
  intros Hn.
  destruct (records_report_request exact_integral f a b [m] [n])
    as (r & Hr & H);
    try discriminate.
  { now repeat constructor. }
  destruct (H m (or_introl eq_refl)) as (rs & Hg & Hns & Hall).
  cbn in Hns. destruct rs as [|rec [|rec' rs]]; try discriminate.
  injection Hns as Hrec. apply Forall_inv in Hall as [Hh Hv].
  rewrite Hrec in Hh, Hv. exists r, rec. auto.
Qed.

End RecordFacts.

Open Scope R_scope.

(** ** Simpson's even count *)

(** C1 (as stated, refuted): the record of a Simpson request with [n = 5]
    on [[0, 6]] reports [n = 5] and [h = 6/5], not the adjusted [n = 6] and
    [h = (6 - 0) / 6]. *)
Lemma simpson_record_counterexample :
  exists r rec,
    analyze_convergence (fun _ _ _ => (18, 0)) (fun x => x) 0 6
                        [simpson] [5%nat] = Ok r /\
    Dict.get method_eqb (results r) simpson = Some [rec] /\
    rec_n rec <> 6%nat /\ rec_h rec <> (6 - 0) / 6.
Proof.
  destruct (single_request (fun _ _ _ => (18, 0)) (fun x => x) 0 6 simpson 5)
    as (r & rec & Hr & Hg & Hn & Hh & _); [lia|].
  exists r, rec. repeat split; try assumption.
  - rewrite Hn. discriminate.
  - rewrite Hh. cbn [INR]. lra.
Qed.

(** C1 (amended): for an odd [n], Simpson's rule computes with the even count
    [n + 1], so with [h = (b - a) / (n + 1)]; the records of the convergence
    analysis report the [n] of the request and [h = (b - a) / n], next to
    the approximation computed with [n + 1]. *)
Theorem simpson_coerces_odd_count
        (exact_integral : (R -> R) -> R -> R -> R * R)
        (f : R -> R) (a b : R) (n : nat) :
  Nat.odd n = true ->
  simpsons_rule f a b n = simpsons_rule f a b (n + 1) /\
  simpsons_rule f a b n =
  Ok ((b - a) / INR (n + 1) / 3 *
      (f (node a b (n + 1) 0) +
       4 * Py.sum (map (fun k => f (node a b (n + 1) (1 + 2 * k)))
                       (seq 0 ((n + 1) / 2))) +
       2 * Py.sum (map (fun k => f (node a b (n + 1) (2 + 2 * k)))
                       (seq 0 ((n + 1) / 2 - 1))) +
       f (node a b (n + 1) (n + 1)))) /\
  exists r rec,
    analyze_convergence exact_integral f a b [simpson] [n] = Ok r /\
    Dict.get method_eqb (results r) simpson = Some [rec] /\
    rec_n rec = n /\ rec_h rec = (b - a) / INR n /\
    simpsons_rule f a b (n + 1) = Ok (rec_approx rec).
Proof.
  intros Ho.
  assert (Hn : (1 <= n)%nat) by (destruct n; [discriminate|lia]).
  assert (E1 : simpson_n n = (n + 1)%nat) by now apply simpson_n_odd.
  assert (E2 : simpson_n (n + 1) = (n + 1)%nat).
  { apply simpson_n_fix. rewrite Nat.add_1_r, Nat.even_succ. exact Ho. }
  assert (E : simpsons_rule f a b n = simpsons_rule f a b (n + 1)).
  { unfold simpsons_rule. now rewrite E1, E2. }
  split; [exact E|]. split.
  - rewrite simpsons_nodes by assumption. cbv zeta. now rewrite E1.
  - destruct (single_request exact_integral f a b simpson n Hn)
      as (r & rec & Hr & Hg & Hrn & Hh & Hv).
    exists r, rec. cbn [compute_integral] in Hv. rewrite E in Hv. auto.
Qed.

Lemma simpson_coerces_odd_count_witness :
  Nat.odd 5 = true /\
  exists r rec,
    analyze_convergence (fun _ _ _ => (18, 0)) (fun x => x) 0 6
                        [simpson] [5%nat] = Ok r /\
    Dict.get method_eqb (results r) simpson = Some [rec] /\
    rec_n rec = 5%nat /\ rec_h rec = (6 - 0) / INR 5 /\
    simpsons_rule (fun x => x) 0 6 (5 + 1) = Ok (rec_approx rec).
Proof.
  split; [reflexivity|].
  apply (simpson_coerces_odd_count (fun _ _ _ => (18, 0)) (fun x => x) 0 6 5).
  reflexivity.
Defined.

(** ** Exactness on lines *)

(** C5: on a polynomial of degree at most 1 the trapezoidal rule returns,
    for every [a], [b] and [n >= 1], the integral of [f] over [[a, b]]
    exactly; with [f = 2x + 1], [a = 0], [b = 2], [n = 1] it returns [6]. *)
Theorem trapezoidal_exact_on_lines (f : R -> R) (c1 c0 a b : R) (n : nat) :
  (forall x, f x = c1 * x + c0) ->
  (1 <= n)%nat ->
  exists v,
    trapezoidal_rule f a b n = Ok v /\
    v = c1 * (b * b - a * a) / 2 + c0 * (b - a) /\
    (exists pr : Riemann_integrable f a b, RiemannInt pr = v) /\
    forall pr : Riemann_integrable f a b, RiemannInt pr = v.
Proof.
  intros Hf Hn. eexists. split; [now apply (trapezoidal_affine f c1 c0)|].
  split; [reflexivity|]. split.
  - exists (line_integrable f c1 c0 a b Hf). now apply line_RiemannInt.
  - intros pr. now apply line_RiemannInt.
Qed.

Lemma trapezoidal_exact_on_lines_witness :
  trapezoidal_rule (fun x => 2 * x + 1) 0 2 1 = Ok 6.
Proof.
  destruct (trapezoidal_exact_on_lines (fun x => 2 * x + 1) 2 1 0 2 1
              (fun x => eq_refl) (le_n 1)) as (v & Hv & E & _).
  rewrite Hv, E. f_equal. lra.
Defined.

(** ** Reversed bounds *)

(** C6: for each of the three rules and every [n >= 1], swapping the bounds
    negates the result; so it does for [sin] between [0] and [PI]. *)
Theorem reversed_bounds_negate (f : R -> R) (a b : R) (n : nat) :
  (1 <= n)%nat ->
  (exists v, trapezoidal_rule f a b n = Ok v /\
             trapezoidal_rule f b a n = Ok (- v)) /\
  (exists v, midpoint_rule f a b n = Ok v /\
             midpoint_rule f b a n = Ok (- v)) /\
  (exists v, simpsons_rule f a b n = Ok v /\
             simpsons_rule f b a n = Ok (- v)).
Proof.
  intros Hn. split; [|split].
  - now apply trapezoidal_reversed.
  - now apply midpoint_reversed.
  - now apply simpsons_reversed.
Qed.

Lemma reversed_bounds_negate_witness :
  (exists v, trapezoidal_rule sin 0 PI 4 = Ok v /\
             trapezoidal_rule sin PI 0 4 = Ok (- v)) /\
  (exists v, midpoint_rule sin 0 PI 4 = Ok v /\
             midpoint_rule sin PI 0 4 = Ok (- v)) /\
  (exists v, simpsons_rule sin 0 PI 4 = Ok v /\
             simpsons_rule sin PI 0 4 = Ok (- v)).
Proof.
  apply (reversed_bounds_negate sin 0 PI 4). lia.
Defined.

(** ** Orders of convergence and the winner *)

(** C3: in every per-method list of records of the analysis the first
    record has no [eoc], and every later record has
    [eoc = ln(E1/E2) / ln(n2/n1)] from the absolute errors [E1] at [n1] of
    the record before it and [E2] at [n2 > n1] of its own, and has none when
    one of the two errors is exactly zero. *)
Theorem eoc_of_consecutive_records
        (exact_integral : (R -> R) -> R -> R -> R * R)
        (f : R -> R) (a b : R) (methods : list method)
        (n_values : list nat) :
  methods <> [] -> n_values <> [] ->
  Forall (fun n => 1 <= n)%nat n_values ->
  exists r,
    analyze_convergence exact_integral f a b methods n_values = Ok r /\
    forall m rs,
      Dict.get method_eqb (results r) m = Some rs ->
      (exists r0 tl, rs = r0 :: tl /\ rec_eoc r0 = None) /\
      forall i r1 r2,
        nth_error rs i = Some r1 -> nth_error rs (S i) = Some r2 ->
        let E1 := rec_abs_error r1 in
        let E2 := rec_abs_error r2 in
        E1 = Rabs (rec_approx r1 - exact_value r) /\
        E2 = Rabs (rec_approx r2 - exact_value r) /\
        (rec_n r1 <= rec_n r2)%nat /\
        ((rec_n r1 < rec_n r2)%nat ->
         (E1 = 0 \/ E2 = 0 -> rec_eoc r2 = None) /\
         (E1 <> 0 -> E2 <> 0 ->
          rec_eoc r2 =
          Some (ln (E1 / E2) / ln (INR (rec_n r2) / INR (rec_n r1))))).
Proof.
  intros Hm Hn Hpos.
  destruct (analyze_convergence_spec exact_integral f a b methods n_values
              Hm Hn Hpos) as (r & Hr & _ & Hin & Hout & _).
  exists r. split; [assumption|]. intros m rs Hg.
  assert (Hmm : In m methods).
  { destruct (in_dec (fun x y => reflect_dec _ _ (method_eqb_spec x y))
                     m methods) as [H|H]; [assumption|].
    rewrite (Hout m H) in Hg. discriminate. }
  destruct (Hin m Hmm) as (rs' & Hrs & Hg').
  rewrite Hg in Hg'. injection Hg' as <-.
  pose proof (method_results_nonempty _ _ _ _ _ _ _ Hn Hrs) as Hne.
  split.
  - destruct rs as [|r0 tl]; [congruence|]. exists r0, tl.
    split; [reflexivity|].
    apply (convergence_loop_first _ _ _ _ _ _ _ _ _ _ Hrs eq_refl).
  - intros i r1 r2 H1 H2 E1 E2.
    pose proof (convergence_loop_next _ _ _ _ _ _ _ _ _ _ _ Hrs H1 H2) as He.
    destruct (convergence_loop_n _ _ _ _ _ _ _ _ Hrs) as [Hns Hall].
    rewrite Forall_forall in Hall.
    destruct (Hall r1 (nth_error_In _ _ H1)) as (_ & _ & A1).
    destruct (Hall r2 (nth_error_In _ _ H2)) as (_ & _ & A2).
    split; [exact A1|]. split; [exact A2|]. split.
    + pose proof (sorted_ascending n_values) as Hs. rewrite <- Hns in Hs.
      apply (ascending_next _ i _ _ Hs); rewrite nth_error_map.
      * now rewrite H1.
      * now rewrite H2.
    + intros _. fold E1 E2 in He. unfold calculate_eoc in He.
      destruct (Req_dec_T E1 0) as [Z1|N1].
      { split; [auto|]. intros; contradiction. }
      destruct (Req_dec_T E2 0) as [Z2|N2].
      { split; [auto|]. intros; contradiction. }
      split; [intros [?|?]; contradiction|]. auto.
Qed.

Lemma eoc_of_consecutive_records_witness :
  exists r,
    analyze_convergence (fun _ _ _ => (2, 0)) sin 0 PI
                        [trapezoidal; simpson] [8; 4]%nat = Ok r /\
    forall m rs,
      Dict.get method_eqb (results r) m = Some rs ->
      (exists r0 tl, rs = r0 :: tl /\ rec_eoc r0 = None) /\
      forall i r1 r2,
        nth_error rs i = Some r1 -> nth_error rs (S i) = Some r2 ->
        let E1 := rec_abs_error r1 in
        let E2 := rec_abs_error r2 in
        E1 = Rabs (rec_approx r1 - exact_value r) /\
        E2 = Rabs (rec_approx r2 - exact_value r) /\
        (rec_n r1 <= rec_n r2)%nat /\
        ((rec_n r1 < rec_n r2)%nat ->
         (E1 = 0 \/ E2 = 0 -> rec_eoc r2 = None) /\
         (E1 <> 0 -> E2 <> 0 ->
          rec_eoc r2 =
          Some (ln (E1 / E2) / ln (INR (rec_n r2) / INR (rec_n r1))))).
Proof.
  apply (eoc_of_consecutive_records (fun _ _ _ => (2, 0)) sin 0 PI
           [trapezoidal; simpson] [8; 4]%nat).
  - discriminate.
  - discriminate.
  - repeat constructor.
Defined.

Section WinnerFacts.

Open Scope R_scope.

Lemma x_over_x_at_zero : Np.div (finite 0) (finite 0) = nan.
Proof.
  cbn [Np.div]. destruct (Req_dec_T 0 0) as [_|N]; [reflexivity|].
  exfalso. now apply N.
Qed.

Lemma x_over_x_elsewhere (x : R) :
  x <> 0 -> Np.div (finite x) (finite x) = finite 1.
Proof.
  intros Hx. cbn [Np.div]. destruct (Req_dec_T x 0) as [E|_];
    [contradiction|].
  f_equal. now field.
Qed.

(** [x / x] on [[0, 1]] with two subintervals: the trapezoidal rule samples
    [0] and returns NaN, the midpoint rule samples [1/4] and [3/4] and
    returns [1]. *)
Lemma x_over_x_trapezoidal :
  Special.trapezoidal_rule (fun x => Np.div (finite x) (finite x)) 0 1 2 =
  Ok nan.
Proof.
  rewrite special_trapezoidal_nodes by lia.
  replace (node 0 1 2 0) with 0 by (unfold node; cbn [INR]; lra).
  rewrite x_over_x_at_zero. reflexivity.
Qed.

Lemma x_over_x_midpoint :
  Special.midpoint_rule (fun x => Np.div (finite x) (finite x)) 0 1 2 =
  Ok (finite 1).
Proof.
  rewrite special_midpoint_nodes by lia. cbn [seq map INR].
  rewrite !x_over_x_elsewhere by lra.
  cbn [Np.sum fold_right Np.add Np.mul]. do 2 f_equal. lra.
Qed.

End WinnerFacts.

(** C4 (a defect of the code): [min] on the winner line compares the final
    errors with [<], which is false against NaN.  For [x / x] on [[0, 1]]
    with [n = 2], an expression the parser accepts, the trapezoidal rule
    samples [0], where the integrand is NaN: its final error is NaN, that of
    the midpoint rule is [0], and the winner is the trapezoidal rule, which
    is listed first. *)
Theorem winner_with_nan_error
        (calculate_eoc :
           pyfloat -> pyfloat -> nat -> nat -> result (option pyfloat)) :
  let x_over_x := fun x : R => Np.div (finite x) (finite x) in
  SafeExpressionParser.validate
    (Ast.BinOp (Ast.Name "x") Ast.Div (Ast.Name "x")) = Ok tt /\
  exists r,
    Special.analyze_convergence (fun _ _ _ => (1, 0)) calculate_eoc
                                x_over_x 0 1 [trapezoidal; midpoint] [2%nat]
    = Ok r /\
    Special.final_error r trapezoidal = Some nan /\
    Special.final_error r midpoint = Some (finite 0) /\
    Special.winner r = trapezoidal.
Proof.
  intros x_over_x. split; [reflexivity|].
  unfold Special.analyze_convergence.
  cbn [Special.methods_loop Special.method_results sorted insert_sorted
       Special.convergence_loop Special.compute_integral].
  unfold x_over_x. rewrite x_over_x_trapezoidal, x_over_x_midpoint.
  cbn [bind div_int Nat.eqb Special.calculate_errors fst snd Np.sub Np.opp
       Np.add Np.abs Dict.set method_eqb Special.final_errors rev app
       Special.rec_abs_error Dict.keys map py_min fold_left
       Special.get_error Dict.get Np.ltb].
  eexists. split; [reflexivity|].
  cbn [Special.final_error Special.results Dict.get method_eqb rev app
       Special.rec_abs_error Special.winner].
  split; [reflexivity|]. split; [|reflexivity].
  do 2 f_equal. rewrite Rplus_opp_r. apply Rabs_R0.
Qed.

(** ** Normalisation *)

Section NormalizeClaim.

Import Js JsAux.

(** C7: normalising an already normalised expression changes nothing:
    [normalizeForBackend (normalizeForBackend s) = normalizeForBackend s]
    for every string [s]. *)
Theorem normalizeForBackend_idempotent (s : jsstring) :
  normalizeForBackend (normalizeForBackend s) = normalizeForBackend s.
Proof.
  unfold normalizeForBackend at 2. cbv zeta.
  set (r0 := replace_caret s).
  set (r1 := replace_pair is_digit is_letter r0).
  set (r2 := replace_letter_digit [] r1).
  set (r3 := replace_pair (is_char rparen) (is_char lparen) r2).
  set (r4 := replace_pair is_digit (is_char lparen) r3).
  set (r5 := replace_pair (is_char rparen) is_digit r4).
  assert (P : forall c, c <> star -> forall x,
                is_char c x = true -> is_char star x = false).
  { intros c Hc x. now apply star_not_paren. }
  assert (Hr : rparen <> star) by discriminate.
  assert (Hl : lparen <> star) by discriminate.
  assert (I1 : ins r0 r1)
    by (apply ins_replace_pair; auto using star_not_digit, star_not_letter).
  assert (I2 : ins r1 r2) by apply ins_replace_letter_digit.
  assert (I3 : ins r2 r3) by (apply ins_replace_pair; eauto).
  assert (I4 : ins r3 r4)
    by (apply ins_replace_pair; eauto using star_not_digit).
  assert (I5 : ins r4 r5)
    by (apply ins_replace_pair; eauto using star_not_digit).
  assert (C5 : ~ In caret r5).
  { do 5 (eapply ins_no_caret; [eassumption|]). apply replace_caret_no_caret. }
  assert (D5 : no_pair is_digit is_letter r5 = true).
  { do 4 (eapply no_pair_ins; [reflexivity|reflexivity|eassumption|]).
    apply no_pair_replace_pair; auto using digit_not_letter. }
  assert (S5 : stable 0 r5 = true).
  { do 3 (eapply stable_ins; [eassumption|]).
    apply (stable_establish r1 []). }
  assert (P5 : no_pair (is_char rparen) (is_char lparen) r5 = true).
  { do 2 (eapply no_pair_ins; [reflexivity|reflexivity|eassumption|]).
    apply no_pair_replace_pair; auto.
    intros c Hc. apply N.eqb_eq in Hc. now subst. }
  assert (Q5 : no_pair is_digit (is_char lparen) r5 = true).
  { eapply no_pair_ins; [reflexivity|reflexivity|eassumption|].
    apply no_pair_replace_pair; auto.
    intros c Hc. apply N.eqb_eq in Hc. now subst. }
  assert (R5 : no_pair (is_char rparen) is_digit r5 = true).
  { apply no_pair_replace_pair; auto.
    intros c Hc. unfold is_char, rparen. apply N.eqb_neq.
    apply andb_true_iff in Hc as [Hc _]. apply N.leb_le in Hc. lia. }
  unfold normalizeForBackend.
  rewrite (replace_caret_fix _ C5), (no_pair_fix _ _ _ D5).
  rewrite (stable_fix r5 [] S5).
  now rewrite (no_pair_fix _ _ _ P5), (no_pair_fix _ _ _ Q5),
    (no_pair_fix _ _ _ R5).
Qed.

End NormalizeClaim.

Example normalize_implicit_product :
  normalizeForBackend (js "2x+1") = js "2*x+1".
Proof. reflexivity. Qed.

Example normalize_mixed :
  normalizeForBackend (js "x2(3)(x^2)4y") = js "x*2*(3)*(x**2)*4*y".
Proof. reflexivity. Qed.

Example normalize_keeps_power_digit :
  normalizeForBackend (js "2^x3") = js "2**x3".
Proof. reflexivity. Qed.

(** ** Shapes of the visualisation *)

Lemma range3_length (n : nat) :
  List.length (Py.range3 0 n 2) = (simpson_n n / 2)%nat.
Proof.
  unfold Py.range3. rewrite length_map, length_seq.
  replace (n - 0 + (2 - 1))%nat with (n + 1)%nat by lia.
  unfold simpson_n. destruct (Nat.eqb_spec (n mod 2) 0) as [E|E]; cbn [negb].
  - pose proof (Nat.div_mod_eq n 2) as D. rewrite E in D.
    rewrite D at 1. replace (2 * (n / 2) + 0 + 1)%nat
      with (1 + (n / 2) * 2)%nat by lia.
    rewrite Nat.div_add by lia. reflexivity.
  - reflexivity.
Qed.

(** C8: the visualisation data hold one shape per subinterval for the
    trapezoidal and midpoint methods ([n] shapes) and one parabola per pair
    of subintervals for Simpson ([n / 2] shapes for the even count made of
    [n]), each of the kind of its method. *)
Theorem shapes_per_subinterval (curve_resolution : nat) (f : R -> R)
        (a b : R) (n : nat) :
  let count m :=
    List.length (shapes (get_visualization_data curve_resolution f a b n m)) in
  count trapezoidal = n /\ count midpoint = n /\
  count simpson = (simpson_n n / 2)%nat /\
  Forall (fun s => exists x0 x1 y0 y1, s = Trapezoid x0 x1 y0 y1)
         (shapes (get_visualization_data curve_resolution f a b n
                                         trapezoidal)) /\
  Forall (fun s => exists x0 x1 y, s = Rectangle x0 x1 y)
         (shapes (get_visualization_data curve_resolution f a b n midpoint)) /\
  Forall (fun s => exists x0 x1 x2 y0 y1 y2, s = Parabola x0 x1 x2 y0 y1 y2)
         (shapes (get_visualization_data curve_resolution f a b n simpson)).
Proof.
  cbv zeta. unfold get_visualization_data, Py.range. cbn [shapes].
  rewrite !length_map, length_seq, range3_length.
  repeat split; try reflexivity; apply Forall_forall; intros s Hs;
    apply in_map_iff in Hs as (i & <- & _); eauto 10.
Qed.

Example shapes_simpson_5 :
  List.length (shapes (get_visualization_data 200 (fun x => x) 0 1 5 simpson))
  = 3%nat.
Proof. reflexivity. Qed.

(** ** The interval-count control *)

Section ControlFacts.

Import JsNumber MethodControls.

Open Scope Z_scope.

Lemma change_forwards (value : jsstring) (st : state) :
  snd (handleCustomNChange value st) =
  match parseInt value with
  | Int z => if (1 <=? z) && (z <=? 1024) then [Int z] else []
  | NaN => []
  end.
Proof.
  unfold handleCustomNChange. destruct (parseInt value) as [|z]; cbn.
  - reflexivity.
  - rewrite Z.geb_leb. now destruct ((1 <=? z) && (z <=? 1024)).
Qed.

Lemma blur_forwards (st : state) :
  snd (handleCustomNBlur st) =
  [Int match parseInt (customN st) with
       | Int z => Z.min 1024 (Z.max 1 z)
       | NaN => 1
       end].
Proof.
  unfold handleCustomNBlur. destruct (parseInt (customN st)) as [|z]; cbn.
  - reflexivity.
  - destruct (Z.ltb_spec z 1); cbn.
    + rewrite Z.max_l, Z.min_r by lia. reflexivity.
    + rewrite Z.max_r by lia. rewrite Z.gtb_ltb.
      destruct (Z.ltb_spec 1024 z).
      * now rewrite Z.min_l by lia.
      * now rewrite Z.min_r by lia.
Qed.

Lemma handle_in_range (ev : event) (st : state) :
  Forall in_range (snd (handle ev st)).
Proof.
  destruct ev as [value| |key|i|]; cbn [handle].
  - rewrite change_forwards. destruct (parseInt value) as [|z]; [constructor|].
    destruct (Z.leb_spec 1 z), (Z.leb_spec z 1024); cbn; repeat constructor;
      assumption.
  - rewrite blur_forwards. repeat constructor;
      destruct (parseInt (customN st)); cbn; lia.
  - destruct (list_eq_dec N.eq_dec key (js "Enter")); [|constructor].
    rewrite blur_forwards. repeat constructor;
      destruct (parseInt (customN st)); cbn; lia.
  - destruct (nth_error presetValues i) as [value|] eqn:E; [|constructor].
    apply nth_error_In in E. cbn. repeat constructor;
      cbn in E; intuition (subst; lia).
  - constructor.
Qed.

End ControlFacts.

(** C9: every value the control forwards through [onNChange] is an integer
    between 1 and 1024: typing forwards the parsed value exactly when it is
    an integer in that range, leaving the input forwards the parsed value
    clamped into it ([1] when the input is not a number), and so no sequence
    of user events forwards anything else. *)
Theorem forwarded_count_in_range :
  (forall value st,
      snd (MethodControls.handleCustomNChange value st) =
      match JsNumber.parseInt value with
      | Int z => if ((1 <=? z) && (z <=? 1024))%Z then [Int z] else []
      | NaN => []
      end) /\
  (forall st,
      snd (MethodControls.handleCustomNBlur st) =
      [Int match JsNumber.parseInt (MethodControls.customN st) with
           | Int z => Z.min 1024 (Z.max 1 z)
           | NaN => 1%Z
           end]) /\
  (forall evs st,
      Forall MethodControls.in_range (snd (MethodControls.run evs st))).
Proof.
  split; [exact change_forwards|]. split; [exact blur_forwards|].
  induction evs as [|ev evs IH]; intros st; cbn [MethodControls.run].
  - constructor.
  - pose proof (handle_in_range ev st) as H.
    destruct (MethodControls.handle ev st) as [st1 out1].
    specialize (IH st1).
    destruct (MethodControls.run evs st1) as [st2 out2].
    cbn [snd] in *. apply Forall_app. now split.
Qed.

Example typing_then_leaving :
  snd (MethodControls.run
         [MethodControls.Change (js "12"); MethodControls.Change (js "5000");
          MethodControls.Blur; MethodControls.Change (js "abc");
          MethodControls.Blur; MethodControls.Change (js "-3");
          MethodControls.KeyDown (js "Enter")]
         (MethodControls.initial 64)) =
  [Int 12; Int 1024; Int 1; Int 1].
Proof. reflexivity. Qed.

(** ** The selected methods *)

Section ToggleFacts.

Import App.

Lemma includes_In (l : list string) (x : string) :
  includes l x = true <-> In x l.
Proof.
  unfold includes. rewrite existsb_exists. split.
  - intros (y & Hy & E). apply String.eqb_eq in E. now subst.
  - intros H. exists x. split; [assumption|apply String.eqb_refl].
Qed.

Lemma toggle_present (m : string) (prev : list string) :
  In m prev ->
  handleMethodToggle m prev =
  filter (fun x => negb (String.eqb x m)) prev.
Proof.
  intros H. unfold handleMethodToggle.
  apply includes_In in H. now rewrite H.
Qed.

Lemma toggle_absent (m : string) (prev : list string) :
  ~ In m prev -> handleMethodToggle m prev = prev ++ [m].
Proof.
  intros H. unfold handleMethodToggle.
  destruct (includes prev m) eqn:E; [|reflexivity].
  apply includes_In in E. contradiction.
Qed.

Lemma toggle_In (m x : string) (prev : list string) :
  In x (handleMethodToggle m prev) <->
  (In x prev /\ x <> m) \/ (x = m /\ ~ In m prev).
Proof.
  destruct (in_dec string_dec m prev) as [H|H].
  - rewrite toggle_present by assumption. rewrite filter_In, negb_true_iff.
    rewrite String.eqb_neq. tauto.
  - rewrite toggle_absent by assumption. rewrite in_app_iff. cbn.
    split.
    + intros [Hx|[<-|[]]]; [|tauto]. left. split; [assumption|].
      intros ->. contradiction.
    + intros [[Hx _]|[-> _]]; auto.
Qed.

Lemma toggle_NoDup (m : string) (prev : list string) :
  NoDup prev -> NoDup (handleMethodToggle m prev).
Proof.
  intros Hn. destruct (in_dec string_dec m prev) as [H|H].
  - rewrite toggle_present by assumption. now apply NoDup_filter.
  - rewrite toggle_absent by assumption. apply NoDup_app; auto.
    + repeat constructor. intros [].
    + intros x Hx [<-|[]]. contradiction.
Qed.

End ToggleFacts.

(** C10: toggling a method twice gives back a list with the members of the
    list before; one toggle removes the method when it is selected (every
    occurrence) and appends it once otherwise; so a list without repetition
    stays without repetition, and no list the dashboard reaches selects a
    method twice. *)
Theorem toggle_twice_same_members (prev : list string) (m : string) :
  (forall x, In x (App.handleMethodToggle m (App.handleMethodToggle m prev))
             <-> In x prev) /\
  (In m prev ->
   App.handleMethodToggle m prev =
   filter (fun x => negb (String.eqb x m)) prev /\
   ~ In m (App.handleMethodToggle m prev)) /\
  (~ In m prev ->
   App.handleMethodToggle m prev = prev ++ [m] /\
   count_occ string_dec (App.handleMethodToggle m prev) m = 1%nat) /\
  (NoDup prev -> NoDup (App.handleMethodToggle m prev)) /\
  (forall l, App.reachable l -> NoDup l).
Proof.
  split; [|split; [|split; [|split]]].
  - intros x. rewrite !toggle_In.
    destruct (string_dec x m) as [->|Hx]; tauto.
  - intros H. split; [now apply toggle_present|].
    rewrite toggle_In. tauto.
  - intros H. rewrite toggle_absent by assumption. split; [reflexivity|].
    rewrite count_occ_app. cbn.
    destruct (string_dec m m); [|congruence].
    apply (count_occ_not_In string_dec) in H. rewrite H. reflexivity.
  - apply toggle_NoDup.
  - induction 1 as [|m' l Hl IH].
    + repeat constructor; cbn; intuition discriminate.
    + now apply toggle_NoDup.
Qed.

Lemma toggle_twice_same_members_witness :
  (forall x,
      In x (App.handleMethodToggle
              "midpoint" (App.handleMethodToggle "midpoint"
                                                 App.initialMethods))
      <-> In x App.initialMethods) /\
  NoDup (App.handleMethodToggle "midpoint" App.initialMethods).
Proof.
  destruct (toggle_twice_same_members App.initialMethods "midpoint")
    as (H1 & _ & _ & H4 & H5).
  split; [exact H1|]. apply H4, H5. constructor.
Defined.

Example toggle_examples :
  App.handleMethodToggle "midpoint" App.initialMethods
  = ["trapezoidal"; "simpson"]%string /\
  App.handleMethodToggle "midpoint" ["trapezoidal"; "simpson"]%string
  = ["trapezoidal"; "simpson"; "midpoint"]%string.
Proof. split; reflexivity. Qed.

(** ** The safe expression parser *)

Section ParserFacts.

Import Ast SafeExpressionParser.

(** Induction over expressions, through the argument lists. *)
Lemma expr_ind' (P : expr -> Prop) :
  (forall c, P (Constant c)) ->
  (forall id, P (Name id)) ->
  (forall l op r, P l -> P r -> P (BinOp l op r)) ->
  (forall op a, P a -> P (UnaryOp op a)) ->
  (forall fn args, P fn -> Forall P args -> P (Call fn args)) ->
  (forall v attr, P v -> P (Attribute v attr)) ->
  (forall v i, P v -> P i -> P (Subscript v i)) ->
  (forall elts, Forall P elts -> P (ListExpr elts)) ->
  forall e, P e.
Proof.
  intros Hc Hn Hb Hu Hcall Ha Hs Hl.
  fix IH 1. intros [c|id|l op r|op a|fn args|v attr|v i|elts].
  - apply Hc.
  - apply Hn.
  - apply Hb; apply IH.
  - apply Hu; apply IH.
  - apply Hcall; [apply IH|].
    induction args as [|a args IHargs]; constructor; [apply IH|exact IHargs].
  - apply Ha; apply IH.
  - apply Hs; apply IH.
  - apply Hl.
    induction elts as [|a elts IHelts]; constructor; [apply IH|exact IHelts].
Qed.

Lemma validate_call (f : string) (args : list expr) :
  validate (Call (Name f) args) =
  if mem f ALLOWED_FUNCTIONS
  then fold_right (fun a k => let* _ := validate a in k) (Ok tt) args
  else Raise (InvalidExpressionError f).
Proof. reflexivity. Qed.

Lemma validate_result (e : expr) : validate e = Ok tt \/ rejected (validate e).
Proof.
  induction e as [c|id|l op r IHl IHr|op a IHa|fn args _ IHargs|v attr _
                 |v i _ _|elts _] using expr_ind';
    try (right; eexists; reflexivity);
    try (cbn [validate]; fail).
  - destruct c; [now left|right; eexists; reflexivity..].
  - cbn [validate].
    destruct (mem id ALLOWED_VARIABLES); [now left|right; eexists; reflexivity].
  - cbn [validate].
    destruct (allowed_operator op); [|right; eexists; reflexivity].
    destruct IHl as [->|[c ->]]; [exact IHr|right; eexists; reflexivity].
  - cbn [validate].
    destruct (allowed_unaryop op); [exact IHa|right; eexists; reflexivity].
  - destruct fn; try (right; eexists; reflexivity).
    rewrite validate_call.
    destruct (mem id ALLOWED_FUNCTIONS); [|right; eexists; reflexivity].
    induction IHargs as [|a args Ha _ IH]; cbn [fold_right].
    + now left.
    + destruct Ha as [->|[c ->]]; [exact IH|right; eexists; reflexivity].
Qed.

Lemma validate_rejects (e : expr) :
  contains_excluded e -> rejected (validate e).
Proof.
  induction e as [c|id|l op r IHl IHr|op a IHa|fn args _ IHargs|v attr _
                 |v i _ _|elts _] using expr_ind'; intros H;
    try (eexists; reflexivity).
  - inversion H as [e He| | | |]; subst. destruct c; cbn in He;
      [contradiction|eexists; reflexivity..].
  - inversion H as [e He| | | |]; subst.
    change (mem id ALLOWED_VARIABLES = false) in He. cbn [validate].
    rewrite He. eexists; reflexivity.
  - cbn [validate].
    destruct (allowed_operator op); [|eexists; reflexivity].
    inversion H as [e He|l' op' r' Hl|l' op' r' Hr| |]; subst.
    + destruct He.
    + destruct (IHl Hl) as [c ->]. eexists; reflexivity.
    + destruct (validate_result l) as [->|[c ->]]; [|eexists; reflexivity].
      exact (IHr Hr).
  - cbn [validate].
    destruct (allowed_unaryop op); [|eexists; reflexivity].
    inversion H as [e He| | |op' a' Ha|]; subst; [destruct He|].
    exact (IHa Ha).
  - destruct fn; try (eexists; reflexivity).
    rewrite validate_call.
    destruct (mem id ALLOWED_FUNCTIONS) eqn:Ef; [|eexists; reflexivity].
    inversion H as [e He| | | |f' a' args' Hin Ha]; subst.
    { change (mem id ALLOWED_FUNCTIONS = false) in He. congruence. }
    clear H. induction IHargs as [|a0 args Ha0 _ IH]; [contradiction|].
    cbn [fold_right].
    destruct Hin as [->|Hin].
    + destruct (Ha0 Ha) as [c ->]. eexists; reflexivity.
    + destruct (validate_result a0) as [->|[c ->]]; [|eexists; reflexivity].
      exact (IH Hin).
Qed.

End ParserFacts.

(** C2: a source text that is a statement, or whose expression holds an
    identifier other than [x], [pi], [e], an attribute access, a subscript,
    a literal that is not a number, or a call of anything but [sin], [cos],
    [tan], [exp], [log], [sqrt], [abs], is rejected with
    [InvalidExpressionError] and yields no callable; so is [import os],
    which is not an expression. *)
Theorem forbidden_input_is_rejected
        (ast_parse : string -> Ast.parsed) (float_pow : R -> R -> R)
        (source : string) :
  match ast_parse source with
  | Ast.SyntaxError => True
  | Ast.Statements _ => True
  | Ast.Expression tree => SafeExpressionParser.contains_excluded tree
  end ->
  exists construct,
    SafeExpressionParser.evaluate_expression ast_parse float_pow source =
    Raise (InvalidExpressionError construct).
Proof.
  unfold SafeExpressionParser.evaluate_expression.
  destruct (ast_parse source) as [|body|tree]; intros H.
  - eexists; reflexivity.
  - eexists; reflexivity.
  - destruct (validate_rejects tree H) as [c ->]. eexists; reflexivity.
Qed.

Lemma forbidden_input_is_rejected_witness :
  exists construct,
    SafeExpressionParser.evaluate_expression
      (fun s => if String.eqb s "import os"
                then Ast.Statements [Ast.Import ["os"%string]]
                else Ast.SyntaxError)
      Rpower "import os" =
    Raise (InvalidExpressionError construct).
Proof.
  apply (forbidden_input_is_rejected
           (fun s => if String.eqb s "import os"
                     then Ast.Statements [Ast.Import ["os"%string]]
                     else Ast.SyntaxError)
           Rpower "import os").
  exact I.
Defined.

Example call_outside_whitelist_rejected :
  SafeExpressionParser.validate
    (Ast.BinOp (Ast.Name "x") Ast.Add
               (Ast.Call (Ast.Name "sin")
                         [Ast.Call (Ast.Name "open")
                                   [Ast.Constant (Ast.Str "f")]])) =
  Raise (InvalidExpressionError "open").
Proof. reflexivity. Qed.

Example line_accepted_and_evaluated :
  let tree := Ast.BinOp (Ast.BinOp (Ast.Constant (Ast.Num 2)) Ast.Mult
                                   (Ast.Name "x"))
                        Ast.Add (Ast.Constant (Ast.Num 1)) in
  SafeExpressionParser.validate tree = Ok tt /\
  exists v, SafeExpressionParser.eval Rpower tree 3 = Ok v /\ v = 7.
Proof.
  split; [reflexivity|]. eexists. split; [reflexivity|]. lra.
Qed.

(** * Further properties of the integration service *)

Section PanelFacts.

Open Scope R_scope.

Lemma sum_scal (c : R) (l : list R) :
  Py.sum (map (fun v => c * v) l) = c * Py.sum l.
Proof.
  induction l as [|x l IH]; cbn; [lra|]. fold (Py.sum (map (fun v => c * v) l)).
  fold (Py.sum l). rewrite IH. lra.
Qed.

Lemma sum_map_plus {A : Type} (G H : A -> R) (l : list A) :
  Py.sum (map (fun i => G i + H i) l) = Py.sum (map G l) + Py.sum (map H l).
Proof.
  induction l as [|x l IH]; cbn; [lra|].
  fold (Py.sum (map (fun i => G i + H i) l)).
  fold (Py.sum (map G l)). fold (Py.sum (map H l)). rewrite IH. lra.
Qed.

Lemma sum_map_scal {A : Type} (c : R) (G : A -> R) (l : list A) :
  Py.sum (map (fun i => c * G i) l) = c * Py.sum (map G l).
Proof. rewrite <- sum_scal, map_map. reflexivity. Qed.

Lemma sum_map_le {A : Type} (G H : A -> R) (l : list A) :
  (forall i, In i l -> G i <= H i) ->
  Py.sum (map G l) <= Py.sum (map H l).
Proof.
  induction l as [|x l IH]; cbn; intros Hle; [lra|].
  fold (Py.sum (map G l)). fold (Py.sum (map H l)).
  pose proof (Hle x (or_introl eq_refl)).
  assert (Py.sum (map G l) <= Py.sum (map H l)) by (apply IH; auto). lra.
Qed.

(** A sum of panels whose values telescope up to a constant defect. *)
Lemma sum_telescope (P X : nat -> R) (e : R) (n : nat) :
  (forall i, (i < n)%nat -> P i = X (S i) - X i + e) ->
  Py.sum (map P (seq 0 n)) = X n - X 0%nat + INR n * e.
Proof.
  induction n as [|n IH]; intros HP.
  - cbn. lra.
  - rewrite seq_S, map_app, sum_app, IH by (intros; apply HP; lia).
    cbn [map Py.sum fold_right Nat.add]. rewrite (HP n) by lia.
    rewrite S_INR. lra.
Qed.

(** The weights [1, 2, ..., 2, 1] as one panel per subinterval. *)
Lemma trapezoid_weights (G : nat -> R) (n : nat) :
  (1 <= n)%nat ->
  G 0%nat + 2 * Py.sum (map G (seq 1 (n - 1))) + G n =
  Py.sum (map (fun i => G i + G (S i)) (seq 0 n)).
Proof.
  intros Hn. destruct n as [|n]; [lia|]. clear Hn.
  replace (S n - 1)%nat with n by lia.
  induction n as [|n IH].
  - cbn. lra.
  - rewrite (seq_S (S n)), map_app, sum_app, <- IH.
    rewrite seq_S, map_app, sum_app.
    cbn [map Py.sum fold_right Nat.add]. lra.
Qed.

Lemma sum_snoc (H : nat -> R) (m : nat) :
  Py.sum (map H (seq 0 (S m))) = Py.sum (map H (seq 0 m)) + H m.
Proof.
  rewrite seq_S, map_app, sum_app. cbn. lra.
Qed.

(** The weights [1, 4, 2, 4, ..., 2, 4, 1] as one panel per pair. *)
Lemma simpson_weights (G : nat -> R) (k : nat) :
  (1 <= k)%nat ->
  G 0%nat + 4 * Py.sum (map (fun j => G (1 + 2 * j)%nat) (seq 0 k))
  + 2 * Py.sum (map (fun j => G (2 + 2 * j)%nat) (seq 0 (k - 1)))
  + G (2 * k)%nat =
  Py.sum (map (fun j => G (2 * j)%nat + 4 * G (1 + 2 * j)%nat
                        + G (2 + 2 * j)%nat) (seq 0 k)).
Proof.
  intros Hk. destruct k as [|k]; [lia|]. clear Hk.
  replace (S k - 1)%nat with k by lia.
  induction k as [|k IH].
  - cbn. lra.
  - rewrite (sum_snoc (fun j => G (1 + 2 * j)%nat) (S k)).
    rewrite (sum_snoc (fun j => G (2 + 2 * j)%nat) k).
    rewrite (sum_snoc (fun j => G (2 * j)%nat + 4 * G (1 + 2 * j)%nat
                                + G (2 + 2 * j)%nat) (S k)).
    rewrite <- IH.
    replace (2 + 2 * k)%nat with (2 * S k)%nat by lia.
    replace (2 + 2 * S k)%nat with (2 * S (S k))%nat by lia. lra.
Qed.

Lemma node_S (a b : R) (n i : nat) :
  node a b n (S i) = node a b n i + (b - a) / INR n.
Proof. unfold node. rewrite S_INR. lra. Qed.

Lemma node_0 (a b : R) (n : nat) : node a b n 0 = a.
Proof. unfold node. cbn. lra. Qed.

Lemma node_n (a b : R) (n : nat) : (1 <= n)%nat -> node a b n n = b.
Proof. intros Hn. unfold node. field. apply not_0_INR. lia. Qed.

Lemma trapezoidal_panels (f : R -> R) (a b : R) (n : nat) :
  (1 <= n)%nat ->
  trapezoidal_rule f a b n =
  Ok (Py.sum (map (fun i => (b - a) / INR n / 2 *
                            (f (node a b n i) + f (node a b n (S i))))
                  (seq 0 n))).
Proof.
  intros Hn. rewrite trapezoidal_nodes by assumption. f_equal.
  rewrite (sum_map_scal ((b - a) / INR n / 2)
                        (fun i => f (node a b n i) + f (node a b n (S i)))).
  f_equal. exact (trapezoid_weights (fun i => f (node a b n i)) n Hn).
Qed.

Lemma simpsons_panels (f : R -> R) (a b : R) (n : nat) :
  (1 <= n)%nat ->
  let N := simpson_n n in
  simpsons_rule f a b n =
  Ok (Py.sum (map (fun j => (b - a) / INR N / 3 *
                            (f (node a b N (2 * j))
                             + 4 * f (node a b N (1 + 2 * j))
                             + f (node a b N (2 + 2 * j))))
                  (seq 0 (N / 2)))).
Proof.
  intros Hn N. rewrite simpsons_nodes by assumption. cbv zeta. fold N.
  pose proof (simpson_n_ge n) as Hge. pose proof (simpson_n_even n) as Hev.
  fold N in Hge, Hev.
  assert (HN : N = (2 * (N / 2))%nat).
  { pose proof (Nat.div_mod_eq N 2). lia. }
  f_equal.
  rewrite (sum_map_scal ((b - a) / INR N / 3)
             (fun j => f (node a b N (2 * j))
                       + 4 * f (node a b N (1 + 2 * j))
                       + f (node a b N (2 + 2 * j)))).
  f_equal.
  rewrite <- (simpson_weights (fun i => f (node a b N i)) (N / 2)) by lia.
  now rewrite <- HN.
Qed.

End PanelFacts.

(** ** Accuracy on polynomials *)

Section AccuracyFacts.

Open Scope R_scope.

(** The fundamental theorem of calculus, for a primitive given pointwise. *)
Lemma RiemannInt_primitive (F f : R -> R) (a b : R)
      (pr : Riemann_integrable f a b) :
  (forall x, derivable_pt_lim F x (f x)) ->
  continuity f ->
  RiemannInt pr = F b - F a.
Proof.
  intros HF Hc.
  pose (dF := (fun x => exist _ (f x) (HF x)) : derivable F).
  assert (Hd : continuity (derive F dF)) by exact Hc.
  pose (Fc := mkC1 Hd).
  destruct (Rle_dec a b) as [Hab|Hab].
  - pose (pr' := RiemannInt_P32 Fc a b).
    rewrite (RiemannInt_P18 pr pr' Hab).
    + now rewrite FTC_Riemann.
    + intros x _. reflexivity.
  - assert (Hba : b <= a) by lra.
    pose (pr1 := RiemannInt_P1 pr).
    pose (pr' := RiemannInt_P32 Fc b a).
    rewrite (RiemannInt_P8 pr pr1), (RiemannInt_P18 pr1 pr' Hba).
    + rewrite FTC_Riemann. cbn [Fc RiemannInt.c1]. lra.
    + intros x _. reflexivity.
Qed.

Lemma monomial_lim (k : R) (n : nat) (x : R) :
  derivable_pt_lim (fun y => k * y ^ n) x (k * (INR n * x ^ pred n)).
Proof.
  apply (derivable_pt_lim_scal (fun y => y ^ n)), derivable_pt_lim_pow.
Qed.

Lemma poly4_primitive_lim (c4 c3 c2 c1 c0 x : R) :
  derivable_pt_lim (poly4_primitive c4 c3 c2 c1 c0) x
                   (poly4 c4 c3 c2 c1 c0 x).
Proof.
  unfold poly4_primitive, poly4.
  replace (c4 * x ^ 4 + c3 * x ^ 3 + c2 * x ^ 2 + c1 * x + c0)
    with (c4 / 5 * (INR 5 * x ^ pred 5) + c3 / 4 * (INR 4 * x ^ pred 4)
          + c2 / 3 * (INR 3 * x ^ pred 3) + c1 / 2 * (INR 2 * x ^ pred 2)
          + c0 * 1)
    by (cbn [INR pred]; field).
  repeat apply (derivable_pt_lim_plus _ _ x).
  - apply monomial_lim.
  - apply monomial_lim.
  - apply monomial_lim.
  - apply monomial_lim.
  - apply (derivable_pt_lim_scal id), derivable_pt_lim_id.
Qed.

Lemma poly4_continuity (f : R -> R) (c4 c3 c2 c1 c0 : R) :
  (forall x, f x = poly4 c4 c3 c2 c1 c0 x) -> continuity f.
Proof.
  intros Hf x.
  assert (Hp : continuity_pt (poly4 c4 c3 c2 c1 c0) x).
  { apply derivable_continuous_pt.
    exists (c4 * (INR 4 * x ^ pred 4) + c3 * (INR 3 * x ^ pred 3)
            + c2 * (INR 2 * x ^ pred 2) + c1 * 1 + 0).
    unfold poly4. repeat apply (derivable_pt_lim_plus _ _ x).
    - apply monomial_lim.
    - apply monomial_lim.
    - apply monomial_lim.
    - apply (derivable_pt_lim_scal id), derivable_pt_lim_id.
    - apply derivable_pt_lim_const. }
  unfold continuity_pt, continue_in, limit1_in, limit_in in *.
  intros eps Heps. destruct (Hp eps Heps) as (alp & Halp & H).
  exists alp. split; [assumption|]. intros x' Hx'. rewrite !Hf.
  exact (H x' Hx').
Qed.

Lemma poly4_RiemannInt (f : R -> R) (c4 c3 c2 c1 c0 a b : R)
      (pr : Riemann_integrable f a b) :
  (forall x, f x = poly4 c4 c3 c2 c1 c0 x) ->
  RiemannInt pr =
  poly4_primitive c4 c3 c2 c1 c0 b - poly4_primitive c4 c3 c2 c1 c0 a.
Proof.
  intros Hf. apply RiemannInt_primitive.
  - intros x. rewrite Hf. apply poly4_primitive_lim.
  - now apply (poly4_continuity f c4 c3 c2 c1 c0).
Qed.

Lemma poly4_integrable (f : R -> R) (c4 c3 c2 c1 c0 a b : R) :
  (forall x, f x = poly4 c4 c3 c2 c1 c0 x) -> Riemann_integrable f a b.
Proof.
  intros Hf. pose proof (poly4_continuity f c4 c3 c2 c1 c0 Hf) as Hc.
  destruct (Rle_dec a b) as [Hab|Hab].
  - apply continuity_implies_RiemannInt; [assumption|]. intros; apply Hc.
  - apply RiemannInt_P1, continuity_implies_RiemannInt; [lra|].
    intros; apply Hc.
Qed.

Lemma trapezoidal_quadratic (f : R -> R) (c2 c1 c0 a b : R) (n : nat) :
  (forall x, f x = poly4 0 0 c2 c1 c0 x) ->
  (1 <= n)%nat ->
  trapezoidal_rule f a b n =
  Ok (poly4_primitive 0 0 c2 c1 c0 b - poly4_primitive 0 0 c2 c1 c0 a
      + c2 * (b - a) ^ 3 / (6 * INR n ^ 2)).
Proof.
  intros Hf Hn. rewrite trapezoidal_panels by assumption. f_equal.
  assert (H0 : INR n <> 0) by (apply not_0_INR; lia).
  rewrite (sum_telescope _
             (fun i => poly4_primitive 0 0 c2 c1 c0 (node a b n i))
             (c2 * ((b - a) / INR n) ^ 3 / 6)).
  - rewrite node_0, node_n by assumption. field. assumption.
  - intros i _. rewrite node_S, !Hf. unfold poly4, poly4_primitive. field.
    assumption.
Qed.

Lemma midpoint_quadratic (f : R -> R) (c2 c1 c0 a b : R) (n : nat) :
  (forall x, f x = poly4 0 0 c2 c1 c0 x) ->
  (1 <= n)%nat ->
  midpoint_rule f a b n =
  Ok (poly4_primitive 0 0 c2 c1 c0 b - poly4_primitive 0 0 c2 c1 c0 a
      - c2 * (b - a) ^ 3 / (12 * INR n ^ 2)).
Proof.
  intros Hf Hn. rewrite midpoint_nodes by assumption. f_equal.
  assert (H0 : INR n <> 0) by (apply not_0_INR; lia).
  rewrite <- sum_map_scal.
  rewrite (sum_telescope _
             (fun i => poly4_primitive 0 0 c2 c1 c0 (node a b n i))
             (- (c2 * ((b - a) / INR n) ^ 3 / 12))).
  - rewrite node_0, node_n by assumption. field. assumption.
  - intros i _. rewrite node_S, !Hf. unfold poly4, poly4_primitive, node.
    replace 0.5 with (/ 2) by lra. field. assumption.
Qed.

Lemma simpsons_quartic (f : R -> R) (c4 c3 c2 c1 c0 a b : R) (n : nat) :
  (forall x, f x = poly4 c4 c3 c2 c1 c0 x) ->
  (1 <= n)%nat ->
  simpsons_rule f a b n =
  Ok (poly4_primitive c4 c3 c2 c1 c0 b - poly4_primitive c4 c3 c2 c1 c0 a
      + c4 * (2 * (b - a) ^ 5) / (15 * INR (simpson_n n) ^ 4)).
Proof.
  intros Hf Hn. rewrite simpsons_panels by assumption. cbv zeta.
  pose proof (simpson_n_ge n) as Hge. pose proof (simpson_n_even n) as Hev.
  set (N := simpson_n n) in *.
  assert (HN : N = (2 * (N / 2))%nat).
  { pose proof (Nat.div_mod_eq N 2). lia. }
  assert (H0 : INR N <> 0) by (apply not_0_INR; lia).
  assert (HK : INR (N / 2) = INR N / 2).
  { rewrite HN at 2. rewrite mult_INR. cbn [INR]. lra. }
  f_equal.
  rewrite (sum_telescope _
             (fun j => poly4_primitive c4 c3 c2 c1 c0 (node a b N (2 * j)))
             (c4 * (4 * ((b - a) / INR N) ^ 5) / 15)).
  - rewrite <- HN, Nat.mul_0_r, node_0, node_n by lia. rewrite HK.
    field. assumption.
  - intros j _.
    replace (2 * S j)%nat with (S (S (2 * j))) by lia.
    replace (2 + 2 * j)%nat with (S (S (2 * j))) by lia.
    replace (1 + 2 * j)%nat with (S (2 * j)) by lia.
    rewrite !node_S, !Hf. unfold poly4, poly4_primitive. field. assumption.
Qed.

End AccuracyFacts.

(** ** How the rules relate *)

Section RuleFacts.

Open Scope R_scope.

Lemma sum_snoc_at (H : nat -> R) (s m : nat) :
  Py.sum (map H (seq s (S m))) = Py.sum (map H (seq s m)) + H (s + m)%nat.
Proof.
  rewrite seq_S, map_app, sum_app. cbn. lra.
Qed.

Lemma sum_split_parity (G : nat -> R) (n : nat) :
  (1 <= n)%nat ->
  Py.sum (map G (seq 1 (2 * n - 1))) =
  Py.sum (map (fun k => G (1 + 2 * k)%nat) (seq 0 n))
  + Py.sum (map (fun k => G (2 + 2 * k)%nat) (seq 0 (n - 1))).
Proof.
  intros Hn. destruct n as [|m]; [lia|]. clear Hn.
  replace (S m - 1)%nat with m by lia.
  induction m as [|m IH].
  - cbn. lra.
  - replace (2 * S (S m) - 1)%nat with (S (S (2 * S m - 1))) by lia.
    rewrite (sum_snoc_at G 1 (S (2 * S m - 1))).
    rewrite (sum_snoc_at G 1 (2 * S m - 1)), IH.
    rewrite (sum_snoc (fun k => G (1 + 2 * k)%nat) (S m)).
    rewrite (sum_snoc (fun k => G (2 + 2 * k)%nat) m).
    replace (1 + (2 * S m - 1))%nat with (2 + 2 * m)%nat by lia.
    replace (1 + S (2 * S m - 1))%nat with (1 + 2 * S m)%nat by lia.
    lra.
Qed.

Lemma node_double_even (a b : R) (n k : nat) :
  (1 <= n)%nat -> node a b (2 * n) (2 * k) = node a b n k.
Proof.
  intros Hn. unfold node. rewrite !mult_INR. cbn [INR].
  field. apply not_0_INR. lia.
Qed.

Lemma node_double_odd (a b : R) (n k : nat) :
  (1 <= n)%nat ->
  node a b (2 * n) (1 + 2 * k) = a + (INR k + 0.5) * ((b - a) / INR n).
Proof.
  intros Hn. unfold node. rewrite plus_INR, !mult_INR. cbn [INR].
  replace 0.5 with (/ 2) by lra. field. apply not_0_INR. lia.
Qed.

Lemma simpson_n_double (n : nat) : simpson_n (2 * n) = (2 * n)%nat.
Proof.
  apply simpson_n_fix. rewrite Nat.even_mul. reflexivity.
Qed.

Lemma refinement_nodes (f : R -> R) (a b : R) (n : nat) :
  (1 <= n)%nat ->
  Py.sum (map (fun k => f (node a b (2 * n) (1 + 2 * k))) (seq 0 n)) =
  Py.sum (map (fun i => f (a + (INR i + 0.5) * ((b - a) / INR n))) (seq 0 n))
  /\
  Py.sum (map (fun k => f (node a b (2 * n) (2 + 2 * k))) (seq 0 (n - 1))) =
  Py.sum (map (fun i => f (node a b n i)) (seq 1 (n - 1))).
Proof.
  intros Hn. split.
  - f_equal. apply map_ext. intros k. now rewrite node_double_odd.
  - rewrite <- seq_shift, map_map. f_equal. apply map_ext. intros k.
    replace (2 + 2 * k)%nat with (2 * S k)%nat by lia.
    now rewrite node_double_even.
Qed.


Lemma node_range (a b : R) (n i : nat) :
  (1 <= n)%nat -> (i <= n)%nat -> a <= b -> a <= node a b n i <= b.
Proof.
  intros Hn Hi Hab. unfold node.
  assert (H0 : 0 < INR n) by (apply lt_0_INR; lia).
  assert (Hh : 0 <= (b - a) / INR n).
  { apply Rmult_le_pos; [lra|]. left. now apply Rinv_0_lt_compat. }
  assert (Hi0 : 0 <= INR i) by apply pos_INR.
  assert (Hin : INR i <= INR n) by now apply le_INR.
  assert (E : b - a = INR n * ((b - a) / INR n)) by (field; lra).
  split.
  - pose proof (Rmult_le_pos _ _ Hi0 Hh). lra.
  - assert (INR i * ((b - a) / INR n) <= INR n * ((b - a) / INR n))
      by (apply Rmult_le_compat_r; assumption).
    lra.
Qed.

Lemma midpoint_range (a b : R) (n i : nat) :
  (i < n)%nat -> a <= b ->
  a <= a + (INR i + 0.5) * ((b - a) / INR n) <= b.
Proof.
  intros Hi Hab.
  assert (H0 : 0 < INR n) by (apply lt_0_INR; lia).
  assert (Hh : 0 <= (b - a) / INR n).
  { apply Rmult_le_pos; [lra|]. left. now apply Rinv_0_lt_compat. }
  assert (Hi0 : 0 <= INR i) by apply pos_INR.
  assert (Hin : INR i + 1 <= INR n).
  { rewrite <- S_INR. apply le_INR. lia. }
  assert (E : b - a = INR n * ((b - a) / INR n)) by (field; lra).
  split.
  - assert (0 <= (INR i + 0.5) * ((b - a) / INR n))
      by (apply Rmult_le_pos; lra).
    lra.
  - assert ((INR i + 0.5) * ((b - a) / INR n)
            <= INR n * ((b - a) / INR n))
      by (apply Rmult_le_compat_r; lra).
    lra.
Qed.

Lemma step_nonneg (a b : R) (n : nat) :
  (1 <= n)%nat -> a <= b -> 0 <= (b - a) / INR n.
Proof.
  intros Hn Hab. apply Rmult_le_pos; [lra|]. left.
  apply Rinv_0_lt_compat, lt_0_INR. lia.
Qed.

Lemma trapezoidal_monotone (f g : R -> R) (a b : R) (n : nat) :
  (1 <= n)%nat -> a <= b ->
  (forall x, a <= x <= b -> f x <= g x) ->
  exists vf vg, trapezoidal_rule f a b n = Ok vf /\
                trapezoidal_rule g a b n = Ok vg /\ vf <= vg.
Proof.
  intros Hn Hab Hfg. rewrite !trapezoidal_panels by assumption.
  do 2 eexists. split; [reflexivity|]. split; [reflexivity|].
  apply sum_map_le. intros i Hi. apply in_seq in Hi.
  pose proof (step_nonneg a b n Hn Hab) as Hh.
  pose proof (Hfg _ (node_range a b n i Hn ltac:(lia) Hab)).
  pose proof (Hfg _ (node_range a b n (S i) Hn ltac:(lia) Hab)).
  apply Rmult_le_compat_l; lra.
Qed.

Lemma midpoint_monotone (f g : R -> R) (a b : R) (n : nat) :
  (1 <= n)%nat -> a <= b ->
  (forall x, a <= x <= b -> f x <= g x) ->
  exists vf vg, midpoint_rule f a b n = Ok vf /\
                midpoint_rule g a b n = Ok vg /\ vf <= vg.
Proof.
  intros Hn Hab Hfg. rewrite !midpoint_nodes by assumption.
  do 2 eexists. split; [reflexivity|]. split; [reflexivity|].
  apply Rmult_le_compat_l; [now apply step_nonneg|].
  apply sum_map_le. intros i Hi. apply in_seq in Hi.
  apply Hfg, midpoint_range; [lia|assumption].
Qed.

Lemma simpsons_monotone (f g : R -> R) (a b : R) (n : nat) :
  (1 <= n)%nat -> a <= b ->
  (forall x, a <= x <= b -> f x <= g x) ->
  exists vf vg, simpsons_rule f a b n = Ok vf /\
                simpsons_rule g a b n = Ok vg /\ vf <= vg.
Proof.
  intros Hn Hab Hfg. rewrite !simpsons_panels by assumption. cbv zeta.
  pose proof (simpson_n_ge n) as Hge. pose proof (simpson_n_even n) as Hev.
  set (N := simpson_n n) in *.
  assert (HN : N = (2 * (N / 2))%nat).
  { pose proof (Nat.div_mod_eq N 2). lia. }
  do 2 eexists. split; [reflexivity|]. split; [reflexivity|].
  apply sum_map_le. intros j Hj. apply in_seq in Hj.
  assert (HN1 : (1 <= N)%nat) by lia.
  pose proof (step_nonneg a b N HN1 Hab) as Hh.
  pose proof (Hfg _ (node_range a b N (2 * j) HN1 ltac:(lia) Hab)).
  pose proof (Hfg _ (node_range a b N (1 + 2 * j) HN1 ltac:(lia) Hab)).
  pose proof (Hfg _ (node_range a b N (2 + 2 * j) HN1 ltac:(lia) Hab)).
  apply Rmult_le_compat_l; lra.
Qed.

Lemma rules_constant (c a b : R) (n : nat) :
  (1 <= n)%nat ->
  trapezoidal_rule (fun _ => c) a b n = Ok (c * (b - a)) /\
  midpoint_rule (fun _ => c) a b n = Ok (c * (b - a)) /\
  simpsons_rule (fun _ => c) a b n = Ok (c * (b - a)).
Proof.
  intros Hn.
  assert (Hc : forall x : R, c = poly4 0 0 0 0 c x)
    by (intros x; unfold poly4; ring).
  assert (H0 : INR n <> 0) by (apply not_0_INR; lia).
  assert (H1 : INR (simpson_n n) <> 0).
  { apply not_0_INR. pose proof (simpson_n_ge n). lia. }
  split; [|split].
  - rewrite (trapezoidal_quadratic _ 0 0 c a b n Hc Hn). f_equal.
    unfold poly4_primitive. field. assumption.
  - rewrite (midpoint_quadratic _ 0 0 c a b n Hc Hn). f_equal.
    unfold poly4_primitive. field. assumption.
  - rewrite (simpsons_quartic _ 0 0 0 0 c a b n Hc Hn). f_equal.
    unfold poly4_primitive. field. assumption.
Qed.

End RuleFacts.

(** * Further results: the integration service *)

Open Scope R_scope.

(** The trapezoidal rule on a quadratic [c2 x^2 + c1 x + c0] misses the
    integral by exactly [c2 (b - a)^3 / (6 n^2)]: second order in [1/n], as
    the report's error table has it ([f'' = 2 c2]). *)
Theorem trapezoidal_error_on_quadratics
        (f : R -> R) (c2 c1 c0 a b : R) (n : nat) :
  (forall x, f x = c2 * x ^ 2 + c1 * x + c0) ->
  (1 <= n)%nat ->
  exists I,
    (exists pr : Riemann_integrable f a b, RiemannInt pr = I) /\
    (forall pr : Riemann_integrable f a b, RiemannInt pr = I) /\
    trapezoidal_rule f a b n = Ok (I + c2 * (b - a) ^ 3 / (6 * INR n ^ 2)).
Proof.
  intros Hf Hn.
  assert (Hp : forall x, f x = poly4 0 0 c2 c1 c0 x).
  { intros x. rewrite Hf. unfold poly4. ring. }
  exists (poly4_primitive 0 0 c2 c1 c0 b - poly4_primitive 0 0 c2 c1 c0 a).
  split; [|split].
  - exists (poly4_integrable f 0 0 c2 c1 c0 a b Hp).
    now apply poly4_RiemannInt.
  - intros pr. now apply poly4_RiemannInt.
  - now apply trapezoidal_quadratic.
Qed.

Lemma trapezoidal_error_on_quadratics_witness :
  exists I,
    (exists pr : Riemann_integrable (fun x => 1 * x ^ 2 + 0 * x + 0) 0 3,
        RiemannInt pr = I) /\
    (forall pr : Riemann_integrable (fun x => 1 * x ^ 2 + 0 * x + 0) 0 3,
        RiemannInt pr = I) /\
    trapezoidal_rule (fun x => 1 * x ^ 2 + 0 * x + 0) 0 3 3 =
    Ok (I + 1 * (3 - 0) ^ 3 / (6 * INR 3 ^ 2)).
Proof.
  apply (trapezoidal_error_on_quadratics
           (fun x => 1 * x ^ 2 + 0 * x + 0) 1 0 0 0 3 3).
  - reflexivity.
  - lia.
Defined.

(** The midpoint rule on a quadratic misses the integral by exactly
    [- c2 (b - a)^3 / (12 n^2)], half the defect of the trapezoidal rule and
    of the other sign; on a line ([c2 = 0]) it is exact. *)
Theorem midpoint_error_on_quadratics
        (f : R -> R) (c2 c1 c0 a b : R) (n : nat) :
  (forall x, f x = c2 * x ^ 2 + c1 * x + c0) ->
  (1 <= n)%nat ->
  exists I,
    (exists pr : Riemann_integrable f a b, RiemannInt pr = I) /\
    (forall pr : Riemann_integrable f a b, RiemannInt pr = I) /\
    midpoint_rule f a b n = Ok (I - c2 * (b - a) ^ 3 / (12 * INR n ^ 2)) /\
    (c2 = 0 -> midpoint_rule f a b n = Ok I).
Proof.
  intros Hf Hn.
  assert (Hp : forall x, f x = poly4 0 0 c2 c1 c0 x).
  { intros x. rewrite Hf. unfold poly4. ring. }
  assert (H0 : INR n <> 0) by (apply not_0_INR; lia).
  exists (poly4_primitive 0 0 c2 c1 c0 b - poly4_primitive 0 0 c2 c1 c0 a).
  split; [|split; [|split]].
  - exists (poly4_integrable f 0 0 c2 c1 c0 a b Hp).
    now apply poly4_RiemannInt.
  - intros pr. now apply poly4_RiemannInt.
  - now apply midpoint_quadratic.
  - intros Hc. rewrite (midpoint_quadratic f c2 c1 c0 a b n Hp Hn).
    f_equal. rewrite Hc. field. assumption.
Qed.

Lemma midpoint_error_on_quadratics_witness :
  exists I,
    (exists pr : Riemann_integrable (fun x => 1 * x ^ 2 + 0 * x + 0) 0 3,
        RiemannInt pr = I) /\
    (forall pr : Riemann_integrable (fun x => 1 * x ^ 2 + 0 * x + 0) 0 3,
        RiemannInt pr = I) /\
    midpoint_rule (fun x => 1 * x ^ 2 + 0 * x + 0) 0 3 3 =
    Ok (I - 1 * (3 - 0) ^ 3 / (12 * INR 3 ^ 2)) /\
    (1 = 0 -> midpoint_rule (fun x => 1 * x ^ 2 + 0 * x + 0) 0 3 3 = Ok I).
Proof.
  apply (midpoint_error_on_quadratics
           (fun x => 1 * x ^ 2 + 0 * x + 0) 1 0 0 0 3 3).
  - reflexivity.
  - lia.
Defined.

(** Simpson's rule on a quartic misses the integral by exactly
    [2 c4 (b - a)^5 / (15 N^4)], with [N] the even count it computes with:
    fourth order in [1/N], as the report's error table has it
    ([f'''' = 24 c4]); on a cubic ([c4 = 0]) it is exact, for odd requests
    too. *)
Theorem simpsons_error_on_quartics
        (f : R -> R) (c4 c3 c2 c1 c0 a b : R) (n : nat) :
  (forall x, f x = c4 * x ^ 4 + c3 * x ^ 3 + c2 * x ^ 2 + c1 * x + c0) ->
  (1 <= n)%nat ->
  exists I,
    (exists pr : Riemann_integrable f a b, RiemannInt pr = I) /\
    (forall pr : Riemann_integrable f a b, RiemannInt pr = I) /\
    simpsons_rule f a b n =
    Ok (I + c4 * (2 * (b - a) ^ 5) / (15 * INR (simpson_n n) ^ 4)) /\
    (c4 = 0 -> simpsons_rule f a b n = Ok I).
Proof.
  intros Hf Hn.
  assert (H1 : INR (simpson_n n) <> 0).
  { apply not_0_INR. pose proof (simpson_n_ge n). lia. }
  exists (poly4_primitive c4 c3 c2 c1 c0 b - poly4_primitive c4 c3 c2 c1 c0 a).
  split; [|split; [|split]].
  - exists (poly4_integrable f c4 c3 c2 c1 c0 a b Hf).
    now apply poly4_RiemannInt.
  - intros pr. now apply poly4_RiemannInt.
  - now apply simpsons_quartic.
  - intros Hc. rewrite (simpsons_quartic f c4 c3 c2 c1 c0 a b n Hf Hn).
    f_equal. rewrite Hc. field. assumption.
Qed.

Lemma simpsons_error_on_quartics_witness :
  exists I,
    (exists pr : Riemann_integrable
                   (fun x => 1 * x ^ 4 + 0 * x ^ 3 + 0 * x ^ 2 + 0 * x + 0)
                   0 2,
        RiemannInt pr = I) /\
    (forall pr : Riemann_integrable
                   (fun x => 1 * x ^ 4 + 0 * x ^ 3 + 0 * x ^ 2 + 0 * x + 0)
                   0 2,
        RiemannInt pr = I) /\
    simpsons_rule (fun x => 1 * x ^ 4 + 0 * x ^ 3 + 0 * x ^ 2 + 0 * x + 0)
                  0 2 1 =
    Ok (I + 1 * (2 * (2 - 0) ^ 5) / (15 * INR (simpson_n 1) ^ 4)) /\
    (1 = 0 ->
     simpsons_rule (fun x => 1 * x ^ 4 + 0 * x ^ 3 + 0 * x ^ 2 + 0 * x + 0)
                   0 2 1 = Ok I).
Proof.
  apply (simpsons_error_on_quartics
           (fun x => 1 * x ^ 4 + 0 * x ^ 3 + 0 * x ^ 2 + 0 * x + 0)
           1 0 0 0 0 0 2 1).
  - reflexivity.
  - lia.
Defined.

(** Halving the step: Simpson's rule with [2n] subintervals is
    [(T + 2 M) / 3] and the trapezoidal rule with [2n] subintervals is
    [(T + M) / 2], for the trapezoidal value [T] and the midpoint value [M]
    with [n] subintervals. *)
Theorem simpson_from_trapezoid_and_midpoint
        (f : R -> R) (a b : R) (n : nat) :
  (1 <= n)%nat ->
  exists t m,
    trapezoidal_rule f a b n = Ok t /\
    midpoint_rule f a b n = Ok m /\
    simpsons_rule f a b (2 * n) = Ok ((t + 2 * m) / 3) /\
    trapezoidal_rule f a b (2 * n) = Ok ((t + m) / 2).
Proof.
  intros Hn.
  assert (H0 : INR n <> 0) by (apply not_0_INR; lia).
  assert (H2 : (1 <= 2 * n)%nat) by lia.
  destruct (refinement_nodes f a b n Hn) as [Eo Ee].
  rewrite (trapezoidal_nodes f a b n Hn), (midpoint_nodes f a b n Hn).
  rewrite (simpsons_nodes f a b (2 * n) H2). cbv zeta.
  rewrite (trapezoidal_nodes f a b (2 * n) H2).
  rewrite simpson_n_double.
  rewrite (sum_split_parity (fun i => f (node a b (2 * n) i)) n Hn).
  replace (2 * n / 2)%nat with n
    by (rewrite Nat.mul_comm, Nat.div_mul; lia).
  rewrite Eo, Ee.
  rewrite (node_0 a b (2 * n)), (node_0 a b n), (node_n a b n Hn),
    (node_n a b (2 * n) H2).
  do 2 eexists. split; [reflexivity|]. split; [reflexivity|].
  rewrite mult_INR. cbn [INR].
  split; f_equal; field; assumption.
Qed.

Lemma simpson_from_trapezoid_and_midpoint_witness :
  exists t m,
    trapezoidal_rule exp 0 1 4 = Ok t /\
    midpoint_rule exp 0 1 4 = Ok m /\
    simpsons_rule exp 0 1 (2 * 4) = Ok ((t + 2 * m) / 3) /\
    trapezoidal_rule exp 0 1 (2 * 4) = Ok ((t + m) / 2).
Proof.
  apply (simpson_from_trapezoid_and_midpoint exp 0 1 4). lia.
Defined.

(** Each rule is linear in the integrand. *)
Theorem rules_are_linear (f g : R -> R) (al be a b : R) (n : nat) :
  (1 <= n)%nat ->
  let fg := fun x => al * f x + be * g x in
  (exists vf vg, trapezoidal_rule f a b n = Ok vf /\
                 trapezoidal_rule g a b n = Ok vg /\
                 trapezoidal_rule fg a b n = Ok (al * vf + be * vg)) /\
  (exists vf vg, midpoint_rule f a b n = Ok vf /\
                 midpoint_rule g a b n = Ok vg /\
                 midpoint_rule fg a b n = Ok (al * vf + be * vg)) /\
  (exists vf vg, simpsons_rule f a b n = Ok vf /\
                 simpsons_rule g a b n = Ok vg /\
                 simpsons_rule fg a b n = Ok (al * vf + be * vg)).
Proof.
  intros Hn fg.
  assert (L : forall (A : Type) (F G : A -> R) (l : list A),
             Py.sum (map (fun i => al * F i + be * G i) l) =
             al * Py.sum (map F l) + be * Py.sum (map G l)).
  { intros A F G l.
    rewrite (sum_map_plus (fun i => al * F i) (fun i => be * G i)).
    now rewrite !sum_map_scal. }
  split; [|split].
  - rewrite !trapezoidal_nodes by assumption.
    do 2 eexists. split; [reflexivity|]. split; [reflexivity|].
    f_equal. unfold fg.
    rewrite (L _ (fun i => f (node a b n i)) (fun i => g (node a b n i))).
    ring.
  - rewrite !midpoint_nodes by assumption.
    do 2 eexists. split; [reflexivity|]. split; [reflexivity|].
    f_equal. unfold fg.
    rewrite (L _ (fun i => f (a + (INR i + 0.5) * ((b - a) / INR n)))
               (fun i => g (a + (INR i + 0.5) * ((b - a) / INR n)))).
    ring.
  - rewrite !simpsons_nodes by assumption. cbv zeta.
    do 2 eexists. split; [reflexivity|]. split; [reflexivity|].
    f_equal. unfold fg.
    rewrite (L _ (fun k => f (node a b (simpson_n n) (1 + 2 * k)))
               (fun k => g (node a b (simpson_n n) (1 + 2 * k)))).
    rewrite (L _ (fun k => f (node a b (simpson_n n) (2 + 2 * k)))
               (fun k => g (node a b (simpson_n n) (2 + 2 * k)))).
    ring.
Qed.

Lemma rules_are_linear_witness :
  let fg := fun x => 2 * sin x + 3 * cos x in
  (exists vf vg, trapezoidal_rule sin 0 1 5 = Ok vf /\
                 trapezoidal_rule cos 0 1 5 = Ok vg /\
                 trapezoidal_rule fg 0 1 5 = Ok (2 * vf + 3 * vg)) /\
  (exists vf vg, midpoint_rule sin 0 1 5 = Ok vf /\
                 midpoint_rule cos 0 1 5 = Ok vg /\
                 midpoint_rule fg 0 1 5 = Ok (2 * vf + 3 * vg)) /\
  (exists vf vg, simpsons_rule sin 0 1 5 = Ok vf /\
                 simpsons_rule cos 0 1 5 = Ok vg /\
                 simpsons_rule fg 0 1 5 = Ok (2 * vf + 3 * vg)).
Proof.
  apply (rules_are_linear sin cos 2 3 0 1 5). lia.
Defined.



(** In exact arithmetic, for [a <= b] the value of each rule lies between
    [lo (b - a)] and [hi (b - a)] when the integrand lies between [lo] and
    [hi] on [[a, b]]. *)
Theorem rules_within_bounds (f : R -> R) (lo hi a b : R) (n : nat) :
  (1 <= n)%nat -> a <= b ->
  (forall x, a <= x <= b -> lo <= f x <= hi) ->
  (exists v, trapezoidal_rule f a b n = Ok v /\
             lo * (b - a) <= v <= hi * (b - a)) /\
  (exists v, midpoint_rule f a b n = Ok v /\
             lo * (b - a) <= v <= hi * (b - a)) /\
  (exists v, simpsons_rule f a b n = Ok v /\
             lo * (b - a) <= v <= hi * (b - a)).
Proof.
  intros Hn Hab Hf.
  destruct (rules_constant lo a b n Hn) as (Tl & Ml & Sl).
  destruct (rules_constant hi a b n Hn) as (Th & Mh & Sh).
  assert (Hlo : forall x, a <= x <= b -> (fun _ : R => lo) x <= f x)
    by (intros x Hx; apply Hf, Hx).
  assert (Hhi : forall x, a <= x <= b -> f x <= (fun _ : R => hi) x)
    by (intros x Hx; apply Hf, Hx).
  split; [|split].
  - destruct (trapezoidal_monotone _ _ a b n Hn Hab Hlo)
      as (v1 & v & E1 & Ev & H1).
    destruct (trapezoidal_monotone _ _ a b n Hn Hab Hhi)
      as (v' & v2 & Ev' & E2 & H2).
    rewrite Ev in Ev'. injection Ev' as <-.
    rewrite Tl in E1. injection E1 as <-.
    rewrite Th in E2. injection E2 as <-. eauto.
  - destruct (midpoint_monotone _ _ a b n Hn Hab Hlo)
      as (v1 & v & E1 & Ev & H1).
    destruct (midpoint_monotone _ _ a b n Hn Hab Hhi)
      as (v' & v2 & Ev' & E2 & H2).
    rewrite Ev in Ev'. injection Ev' as <-.
    rewrite Ml in E1. injection E1 as <-.
    rewrite Mh in E2. injection E2 as <-. eauto.
  - destruct (simpsons_monotone _ _ a b n Hn Hab Hlo)
      as (v1 & v & E1 & Ev & H1).
    destruct (simpsons_monotone _ _ a b n Hn Hab Hhi)
      as (v' & v2 & Ev' & E2 & H2).
    rewrite Ev in Ev'. injection Ev' as <-.
    rewrite Sl in E1. injection E1 as <-.
    rewrite Sh in E2. injection E2 as <-. eauto.
Qed.

Lemma rules_within_bounds_witness :
  (exists v, trapezoidal_rule sin 0 1 4 = Ok v /\
             (-1) * (1 - 0) <= v <= 1 * (1 - 0)) /\
  (exists v, midpoint_rule sin 0 1 4 = Ok v /\
             (-1) * (1 - 0) <= v <= 1 * (1 - 0)) /\
  (exists v, simpsons_rule sin 0 1 4 = Ok v /\
             (-1) * (1 - 0) <= v <= 1 * (1 - 0)).
Proof.
  apply (rules_within_bounds sin (-1) 1 0 1 4).
  - lia.
  - lra.
  - intros x _. apply SIN_bound.
Defined.

(** No rule checks its arguments.  A count of zero raises
    [ZeroDivisionError], whatever the integrand and the bounds.  With equal
    bounds and a count [n >= 1] the step is zero and every sample point is
    [a]: each rule returns [0] when the integrand is finite at [a], and NaN
    when it is infinite or NaN there ([0 * inf]); none raises. *)
Theorem rules_on_degenerate_requests
        (func : R -> pyfloat) (a b : R) (n : nat) :
  (Special.trapezoidal_rule func a b 0 = Raise ZeroDivisionError /\
   Special.midpoint_rule func a b 0 = Raise ZeroDivisionError /\
   Special.simpsons_rule func a b 0 = Raise ZeroDivisionError) /\
  ((1 <= n)%nat ->
   let v := match func a with
            | finite _ => finite 0
            | _ => nan
            end in
   Special.trapezoidal_rule func a a n = Ok v /\
   Special.midpoint_rule func a a n = Ok v /\
   Special.simpsons_rule func a a n = Ok v).
Proof.
  split; [repeat split; reflexivity|].
  intros Hn. now apply special_equal_bounds.
Qed.

Lemma rules_on_degenerate_requests_witness :
  let one_over_x := fun x : R => Np.div (finite 1) (finite x) in
  Special.trapezoidal_rule one_over_x 0 0 3 = Ok nan /\
  Special.midpoint_rule one_over_x 0 0 3 = Ok nan /\
  Special.simpsons_rule one_over_x 0 0 3 = Ok nan.
Proof.
  intros one_over_x.
  destruct (rules_on_degenerate_requests one_over_x 0 0 3) as [_ H].
  assert (E : one_over_x 0 = inf false).
  { unfold one_over_x. cbn [Np.div].
    destruct (Req_dec_T 0 0) as [_|N]; [|exfalso; now apply N].
    destruct (Req_dec_T 1 0) as [E|_]; [lra|].
    unfold Np.negative. destruct (Rlt_dec 1 0); [lra|reflexivity]. }
  rewrite E in H. apply H. lia.
Defined.



(** * Further properties of the frontend *)

Section CalculatorFacts.

Import Js JsAux JsNumber Calculator.

Lemma ins_filter (p : char -> bool) (s s' : jsstring) :
  p star = false -> ins s s' -> filter p s' = filter p s.
Proof.
  intros Hp. induction 1 as [|c s s' _ IH|c1 c2 s s' _ _ _ IH].
  - reflexivity.
  - cbn. now rewrite IH.
  - cbn [filter]. rewrite Hp. cbn [filter] in IH. now rewrite IH.
Qed.

Lemma normalize_ins (s : jsstring) :
  exists r1 r2 r3 r4,
    ins (replace_caret s) r1 /\ ins r1 r2 /\ ins r2 r3 /\ ins r3 r4 /\
    ins r4 (normalizeForBackend s).
Proof.
  assert (P : forall c, c <> star -> forall x,
                is_char c x = true -> is_char star x = false).
  { intros c Hc x. now apply star_not_paren. }
  assert (Hr : rparen <> star) by discriminate.
  assert (Hl : lparen <> star) by discriminate.
  unfold normalizeForBackend. cbv zeta.
  set (r0 := replace_caret s).
  set (r1 := replace_pair is_digit is_letter r0).
  set (r2 := replace_letter_digit [] r1).
  set (r3 := replace_pair (is_char rparen) (is_char lparen) r2).
  set (r4 := replace_pair is_digit (is_char lparen) r3).
  exists r1, r2, r3, r4.
  split; [|split; [|split; [|split]]].
  - apply ins_replace_pair; auto using star_not_digit, star_not_letter.
  - apply ins_replace_letter_digit.
  - apply ins_replace_pair; eauto.
  - apply ins_replace_pair; eauto using star_not_digit.
  - apply ins_replace_pair; eauto using star_not_digit.
Qed.

Lemma normalize_filter (p : char -> bool) (s : jsstring) :
  p star = false ->
  filter p (normalizeForBackend s) = filter p (replace_caret s).
Proof.
  intros Hp. destruct (normalize_ins s) as (r1 & r2 & r3 & r4 & I1 & I2 & I3
                                            & I4 & I5).
  rewrite (ins_filter p _ _ Hp I5), (ins_filter p _ _ Hp I4),
    (ins_filter p _ _ Hp I3), (ins_filter p _ _ Hp I2).
  apply (ins_filter p _ _ Hp I1).
Qed.

Lemma replace_char_filter (p : char -> bool) (c : char) (rep s : jsstring) :
  filter p rep = [] ->
  filter p (replace_char c rep s) =
  filter (fun x => p x && negb (is_char c x)) s.
Proof.
  intros Hrep. unfold replace_char.
  induction s as [|x s IH]; [reflexivity|].
  cbn [flat_map filter]. rewrite filter_app, IH.
  destruct (is_char c x); cbn [negb].
  - rewrite Hrep, andb_false_r. reflexivity.
  - rewrite andb_true_r. cbn. now destruct (p x).
Qed.

(** *** Counting parentheses *)

Lemma count_parens_other (k : Z) (c : char) (s : jsstring) :
  (0 <= k)%Z -> is_char lparen c = false -> is_char rparen c = false ->
  count_parens k (c :: s) = count_parens k s.
Proof.
  intros Hk Hl Hr. cbn [count_parens]. rewrite Hl, Hr.
  destruct (Z.ltb_spec k 0); [lia|reflexivity].
Qed.

Lemma count_parens_nonneg (s : jsstring) : forall k c,
  count_parens k s = Some c -> (0 <= k)%Z -> (0 <= c)%Z.
Proof.
  induction s as [|x s IH]; intros k c; cbn [count_parens].
  - now intros [= <-].
  - set (k1 := if is_char lparen x then (k + 1)%Z else k).
    set (k2 := if is_char rparen x then (k1 - 1)%Z else k1).
    destruct (Z.ltb_spec k2 0); [discriminate|]. intros H' _.
    now apply (IH k2).
Qed.

Lemma count_parens_app (rep s : jsstring) (k : Z) :
  (0 <= k)%Z ->
  forallb (fun c => negb (is_char lparen c || is_char rparen c)) rep = true ->
  count_parens k (rep ++ s) = count_parens k s.
Proof.
  intros Hk. induction rep as [|c rep IH]; [reflexivity|].
  cbn [forallb app]. intros H. apply andb_true_iff in H as [Hc Hrep].
  apply negb_true_iff, orb_false_iff in Hc as [Hl Hr].
  rewrite count_parens_other by assumption. now apply IH.
Qed.

Lemma count_parens_step (k : Z) (c : char) (s : jsstring) :
  count_parens k (c :: s) =
  let k2 := ((if is_char lparen c then k + 1 else k)
             - (if is_char rparen c then 1 else 0))%Z in
  if (k2 <? 0)%Z then None else count_parens k2 s.
Proof.
  cbn [count_parens]. cbv zeta.
  replace (if is_char rparen c
           then ((if is_char lparen c then k + 1 else k) - 1)%Z
           else if is_char lparen c then (k + 1)%Z else k)
    with ((if is_char lparen c then k + 1 else k)
          - (if is_char rparen c then 1 else 0))%Z
    by (destruct (is_char rparen c), (is_char lparen c); lia).
  reflexivity.
Qed.

Lemma count_parens_replace_char (c : char) (rep s : jsstring) :
  is_char lparen c = false -> is_char rparen c = false ->
  forallb (fun x => negb (is_char lparen x || is_char rparen x)) rep = true ->
  forall k, (0 <= k)%Z ->
            count_parens k (replace_char c rep s) = count_parens k s.
Proof.
  intros Hl Hr Hrep. unfold replace_char.
  induction s as [|x s IH]; intros k Hk; [reflexivity|].
  cbn [flat_map]. destruct (is_char c x) eqn:E.
  - rewrite count_parens_app by assumption.
    apply N.eqb_eq in E. subst x.
    rewrite (count_parens_other k c s) by assumption. now apply IH.
  - cbn [app]. rewrite !count_parens_step. cbv zeta.
    destruct (Z.ltb_spec ((if is_char lparen x then k + 1 else k)
                          - (if is_char rparen x then 1 else 0)) 0);
      [reflexivity|]. now apply IH.
Qed.

Lemma count_parens_ins (s s' : jsstring) :
  ins s s' ->
  forall k, (0 <= k)%Z -> count_parens k s' = count_parens k s.
Proof.
  induction 1 as [|c s s' _ IH|c1 c2 s s' _ _ _ IH]; intros k Hk.
  - reflexivity.
  - rewrite !count_parens_step. cbv zeta.
    destruct (Z.ltb_spec ((if is_char lparen c then k + 1 else k)
                          - (if is_char rparen c then 1 else 0)) 0);
      [reflexivity|]. now apply IH.
  - rewrite !(count_parens_step k c1). cbv zeta.
    destruct (Z.ltb_spec ((if is_char lparen c1 then k + 1 else k)
                          - (if is_char rparen c1 then 1 else 0)) 0);
      [reflexivity|].
    rewrite (count_parens_other _ star) by (assumption || reflexivity).
    now apply IH.
Qed.

Lemma opens_cons (c : char) (s : jsstring) :
  opens (c :: s) = ((if is_char lparen c then 1 else 0) + opens s)%Z.
Proof.
  unfold opens. cbn [filter]. destruct (is_char lparen c); cbn [List.length];
    lia.
Qed.

Lemma closes_cons (c : char) (s : jsstring) :
  closes (c :: s) = ((if is_char rparen c then 1 else 0) + closes s)%Z.
Proof.
  unfold closes. cbn [filter]. destruct (is_char rparen c); cbn [List.length];
    lia.
Qed.

(** What the loop computes, in terms of the prefixes of the string. *)
Lemma count_parens_spec (s : jsstring) : forall k,
  match count_parens k s with
  | Some c =>
      c = (k + opens s - closes s)%Z /\
      forall j, (0 <= k + opens (firstn j s) - closes (firstn j s))%Z \/
                (k < 0)%Z
  | None =>
      exists j, (k + opens (firstn j s) - closes (firstn j s) < 0)%Z
  end.
Proof.
  induction s as [|c s IH]; intros k.
  - cbn [count_parens]. split; [cbn; lia|]. intros j. rewrite firstn_nil.
    cbn. lia.
  - rewrite count_parens_step. cbv zeta.
    set (k2 := ((if is_char lparen c then k + 1 else k)
                - (if is_char rparen c then 1 else 0))%Z).
    assert (E : forall t, (k2 + opens t - closes t
                           = k + opens (c :: t) - closes (c :: t))%Z).
    { intros t. rewrite opens_cons, closes_cons. unfold k2.
      destruct (is_char lparen c), (is_char rparen c); lia. }
    destruct (Z.ltb_spec k2 0) as [Hneg|Hpos].
    + exists 1%nat. cbn [firstn]. rewrite <- E. cbn. lia.
    + specialize (IH k2). destruct (count_parens k2 s) as [c'|].
      * destruct IH as [-> Hall]. split; [apply E|].
        intros [|j]; [cbn; lia|]. cbn [firstn]. rewrite <- E.
        destruct (Hall j); [now left|lia].
      * destruct IH as [j Hj]. exists (S j). cbn [firstn]. now rewrite <- E.
Qed.

Lemma balanced_count (s : jsstring) :
  balanced s <-> count_parens 0 s = Some 0%Z.
Proof.
  pose proof (count_parens_spec s 0) as H. unfold balanced. split.
  - intros [Heq Hall]. destruct (count_parens 0 s) as [c|].
    + destruct H as [-> _]. f_equal. lia.
    + destruct H as [j Hj]. specialize (Hall j). lia.
  - intros E. rewrite E in H. destruct H as [Hc Hall]. split; [lia|].
    intros j. destruct (Hall j); lia.
Qed.

Lemma count_parens_normalize (s : jsstring) :
  count_parens 0 (normalizeForBackend s) = count_parens 0 s.
Proof.
  destruct (normalize_ins s) as (r1 & r2 & r3 & r4 & I1 & I2 & I3 & I4 & I5).
  rewrite (count_parens_ins _ _ I5), (count_parens_ins _ _ I4),
    (count_parens_ins _ _ I3), (count_parens_ins _ _ I2),
    (count_parens_ins _ _ I1) by lia.
  apply (count_parens_replace_char caret [star; star]); reflexivity || lia.
Qed.

Lemma count_parens_validate (s : jsstring) :
  count_parens 0
    (replace_pair is_letter is_digit
       (replace_pair is_digit is_letter
          (replace_char pi_char (js "pi") (replace_caret s)))) =
  count_parens 0 s.
Proof.
  rewrite (count_parens_ins _ _ (ins_replace_pair is_letter is_digit _
             star_not_letter star_not_digit)) by lia.
  rewrite (count_parens_ins _ _ (ins_replace_pair is_digit is_letter _
             star_not_digit star_not_letter)) by lia.
  rewrite (count_parens_replace_char pi_char (js "pi")) by (reflexivity || lia).
  apply (count_parens_replace_char caret [star; star]); reflexivity || lia.
Qed.

End CalculatorFacts.

(** * Further results: the calculator *)

Section CalculatorResults.

Import Js JsAux JsNumber Calculator.

Lemma ins_length (s s' : jsstring) :
  ins s s' -> (List.length s <= List.length s')%nat.
Proof. induction 1; cbn in *; lia. Qed.

Lemma ins_In_keep (s s' : jsstring) (c : char) :
  ins s s' -> In c s -> In c s'.
Proof.
  induction 1 as [|x s s' _ IH|c1 c2 s s' _ _ _ IH]; cbn; intros H.
  - assumption.
  - destruct H; auto.
  - destruct H as [H|H]; auto. right. right. apply IH. exact H.
Qed.

Lemma replace_caret_length (s : jsstring) :
  (List.length s <= List.length (replace_caret s))%nat.
Proof.
  unfold replace_caret. induction s as [|c s IH]; cbn; [lia|].
  rewrite length_app. destruct (is_char caret c); cbn; lia.
Qed.

Lemma white_space_not_paren (c : char) :
  is_white_space c = true ->
  is_char lparen c = false /\ is_char rparen c = false.
Proof.
  intros H. unfold is_char.
  destruct (N.eqb_spec c lparen) as [->|]; [discriminate|].
  destruct (N.eqb_spec c rparen) as [->|]; [discriminate|]. auto.
Qed.

Lemma blank_count_parens (s : jsstring) :
  blank s = true -> count_parens 0 s = Some 0%Z.
Proof.
  unfold blank. induction s as [|c s IH]; [reflexivity|].
  cbn [forallb]. intros H. apply andb_true_iff in H as [Hc Hs].
  destruct (white_space_not_paren c Hc) as [Hl Hr].
  rewrite count_parens_other by (assumption || lia). now apply IH.
Qed.

Lemma not_blank_normalize (s : jsstring) :
  blank s = false -> blank (normalizeForBackend s) = false.
Proof.
  unfold blank. intros H.
  assert (Hex : exists c, In c s /\ is_white_space c = false).
  { induction s as [|c s IH]; [discriminate|]. cbn [forallb] in H.
    destruct (is_white_space c) eqn:E.
    - destruct (IH H) as (c' & Hin & Hc'). exists c'. split; [now right|auto].
    - exists c. split; [now left|assumption]. }
  destruct Hex as (c & Hin & Hc).
  assert (Hr : exists c', In c' (replace_caret s) /\ is_white_space c' = false).
  { destruct (is_char caret c) eqn:E.
    - exists star. split; [|reflexivity].
      unfold replace_caret. apply in_flat_map. exists c.
      split; [assumption|]. rewrite E. now left.
    - exists c. split; [|assumption].
      unfold replace_caret. apply in_flat_map. exists c.
      split; [assumption|]. rewrite E. now left. }
  destruct Hr as (c' & Hin' & Hc').
  destruct (normalize_ins s) as (r1 & r2 & r3 & r4 & I1 & I2 & I3 & I4 & I5).
  assert (Hout : In c' (normalizeForBackend s)).
  { eapply ins_In_keep; [exact I5|]. eapply ins_In_keep; [exact I4|].
    eapply ins_In_keep; [exact I3|]. eapply ins_In_keep; [exact I2|].
    eapply ins_In_keep; [exact I1|]. exact Hin'. }
  destruct (forallb is_white_space (normalizeForBackend s)) eqn:E;
    [|reflexivity].
  rewrite forallb_forall in E. rewrite (E c' Hout) in Hc'. discriminate.
Qed.

Lemma normalize_no_caret (s : jsstring) : ~ In caret (normalizeForBackend s).
Proof.
  destruct (normalize_ins s) as (r1 & r2 & r3 & r4 & I1 & I2 & I3 & I4 & I5).
  do 5 (eapply ins_no_caret; [eassumption|]). apply replace_caret_no_caret.
Qed.

Lemma valid_balanced (expr : jsstring) :
  fst (validateExpression expr) = true -> balanced expr.
Proof.
  unfold validateExpression. destruct (blank expr) eqn:Eb.
  - intros _. apply balanced_count. now apply blank_count_parens.
  - cbv zeta. rewrite count_parens_validate.
    destruct (count_parens 0 expr) as [c|] eqn:Ec; [|discriminate].
    destruct (Z.ltb_spec 0 c); [discriminate|]. intros _.
    apply balanced_count. rewrite Ec. f_equal.
    pose proof (count_parens_nonneg expr 0 c Ec). lia.
Qed.

End CalculatorResults.

(** [normalizeForBackend] only writes stars: without its stars, the
    result is the input without its stars and carets, in the same order; it
    holds no caret and is never shorter than the input. *)
Theorem normalizeForBackend_keeps_characters (s : jsstring) :
  filter (fun c => negb (Js.is_char Js.star c)) (normalizeForBackend s) =
  filter (fun c => negb (Js.is_char Js.star c)
                   && negb (Js.is_char Js.caret c)) s /\
  ~ In Js.caret (normalizeForBackend s) /\
  (List.length s <= List.length (normalizeForBackend s))%nat.
Proof.
  destruct (normalize_ins s) as (r1 & r2 & r3 & r4 & I1 & I2 & I3 & I4 & I5).
  split; [|split].
  - rewrite normalize_filter by reflexivity.
    apply (replace_char_filter
             (fun c => negb (Js.is_char Js.star c)) Js.caret
             [Js.star; Js.star] s).
    reflexivity.
  - apply normalize_no_caret.
  - pose proof (replace_caret_length s).
    pose proof (ins_length _ _ I1). pose proof (ins_length _ _ I2).
    pose proof (ins_length _ _ I3). pose proof (ins_length _ _ I4).
    pose proof (ins_length _ _ I5). lia.
Qed.

(** [validateExpression] on parentheses: a blank input is valid; an input
    it accepts has balanced parentheses; an input with a closing
    parenthesis too many in some prefix gets the first message, and one
    with [k] parentheses left open gets the message that counts them. *)
Theorem validateExpression_parentheses (expr : jsstring) :
  (Calculator.blank expr = true ->
   Calculator.validateExpression expr = (true, [])) /\
  (fst (Calculator.validateExpression expr) = true ->
   Calculator.balanced expr) /\
  (Calculator.blank expr = false ->
   (exists j, (Calculator.opens (firstn j expr)
               < Calculator.closes (firstn j expr))%Z) ->
   Calculator.validateExpression expr =
   (false, js "Unbalanced parentheses - extra closing )")) /\
  (Calculator.blank expr = false ->
   (forall j, (Calculator.closes (firstn j expr)
               <= Calculator.opens (firstn j expr))%Z) ->
   (Calculator.closes expr < Calculator.opens expr)%Z ->
   Calculator.validateExpression expr =
   (false, js "Missing "
           ++ JsNumber.toString
                (Int (Calculator.opens expr - Calculator.closes expr))
           ++ js " closing parenthesis")).
Proof.
  unfold Calculator.validateExpression.
  pose proof (count_parens_spec expr 0) as Hspec.
  destruct (Calculator.blank expr) eqn:Eb.
  - split; [reflexivity|]. split.
    + intros _. apply balanced_count. now apply blank_count_parens.
    + split; discriminate.
  - cbv zeta. rewrite count_parens_validate.
    split; [discriminate|].
    destruct (Calculator.count_parens 0 expr) as [c|] eqn:Ec.
    + destruct Hspec as [Hc Hall]. split; [|split].
      * intros Hv. apply valid_balanced.
        unfold Calculator.validateExpression.
        rewrite Eb. cbv zeta. rewrite count_parens_validate, Ec. exact Hv.
      * intros _ [j Hj]. destruct (Hall j); lia.
      * intros _ _ Hlt. destruct (Z.ltb_spec 0 c); [|lia].
        rewrite Hc. rewrite Z.add_0_l. reflexivity.
    + destruct Hspec as [j Hj]. split; [discriminate|]. split.
      * reflexivity.
      * intros _ Hall. specialize (Hall j). lia.
Qed.

Lemma validateExpression_parentheses_witness :
  Calculator.balanced (js "2(x+1)^2").
Proof.
  destruct (validateExpression_parentheses (js "2(x+1)^2")) as (_ & H & _).
  apply H. vm_compute. reflexivity.
Defined.

Example validate_examples :
  Calculator.validateExpression (js "sin(x") =
  (false, js "Missing 1 closing parenthesis") /\
  Calculator.validateExpression (js "x)+(2") =
  (false, js "Unbalanced parentheses - extra closing )") /\
  Calculator.validateExpression (js "2x^") =
  (false, js "Power needs an exponent") /\
  Calculator.validateExpression (js "sin()") =
  (false, js "Empty parentheses ()") /\
  fst (Calculator.validateExpression (js "2x + sin(x^2)")) = true.
Proof. repeat split; reflexivity. Qed.

(** [handleSubmit], once the effect has validated the expression, calls
    [onSubmit] exactly when the expression is not blank and valid, with the
    normalised expression; what it submits is not blank, holds no caret and
    has balanced parentheses. *)
Theorem handleSubmit_sends_valid_normalised (expr : jsstring) :
  let st := Calculator.validated expr in
  snd (Calculator.handleSubmit st) =
  (if negb (Calculator.blank expr)
      && fst (Calculator.validateExpression expr)
   then [normalizeForBackend expr] else []) /\
  forall s, In s (snd (Calculator.handleSubmit st)) ->
            Calculator.blank s = false /\ ~ In Js.caret s /\
            Calculator.balanced s.
Proof.
  cbv zeta. unfold Calculator.handleSubmit, Calculator.validated.
  cbn [Calculator.expression Calculator.isValid].
  destruct (Calculator.blank expr) eqn:Eb; cbn [negb andb].
  { split; [reflexivity|]. intros s []. }
  destruct (fst (Calculator.validateExpression expr)) eqn:Ev; cbn [negb].
  2:{ split; [reflexivity|]. intros s []. }
  split; [reflexivity|]. intros s [<-|[]]. split; [|split].
  - now apply not_blank_normalize.
  - apply normalize_no_caret.
  - apply balanced_count. rewrite count_parens_normalize.
    apply balanced_count. now apply valid_balanced.
Qed.

Lemma handleSubmit_sends_valid_normalised_witness :
  Calculator.blank (normalizeForBackend (js "2x^2(x+1)")) = false /\
  ~ In Js.caret (normalizeForBackend (js "2x^2(x+1)")) /\
  Calculator.balanced (normalizeForBackend (js "2x^2(x+1)")).
Proof.
  destruct (handleSubmit_sends_valid_normalised (js "2x^2(x+1)")) as [_ H].
  apply H. vm_compute. left. reflexivity.
Defined.

(** * Further results: the dashboard's controls *)

(** Toggling twice is the identity on the list exactly as a list when the
    method was not selected; when it was, the method moves to the end (and
    its repetitions, if any, are gone), so the first selected method, which
    the dashboard visualises, may change. *)
Theorem toggle_twice_moves_to_end (prev : list string) (m : string) :
  (~ In m prev ->
   App.handleMethodToggle m (App.handleMethodToggle m prev) = prev) /\
  (In m prev ->
   App.handleMethodToggle m (App.handleMethodToggle m prev) =
   filter (fun x => negb (String.eqb x m)) prev ++ [m]).
Proof.
  split; intros H.
  - rewrite (toggle_absent m prev H).
    rewrite toggle_present by (apply in_app_iff; right; now left).
    rewrite filter_app. cbn. rewrite String.eqb_refl. cbn.
    rewrite app_nil_r. apply forallb_filter_id. apply forallb_forall.
    intros x Hx. apply negb_true_iff, String.eqb_neq. intros ->.
    contradiction.
  - rewrite (toggle_present m prev H). apply toggle_absent.
    rewrite filter_In, negb_true_iff, String.eqb_neq. tauto.
Qed.

Lemma toggle_twice_moves_to_end_witness :
  App.handleMethodToggle
    "trapezoidal" (App.handleMethodToggle "trapezoidal" App.initialMethods) =
  ["midpoint"; "simpson"; "trapezoidal"]%string /\
  App.handleMethodToggle
    "romberg" (App.handleMethodToggle "romberg" App.initialMethods) =
  App.initialMethods.
Proof.
  destruct (toggle_twice_moves_to_end App.initialMethods "trapezoidal")
    as [_ H1].
  destruct (toggle_twice_moves_to_end App.initialMethods "romberg")
    as [H2 _].
  split.
  - rewrite H1; [reflexivity|]. now left.
  - apply H2. cbn. intuition discriminate.
Defined.

Section ControlResults.

Import JsNumber MethodControls.

Open Scope Z_scope.

Lemma print_parse_table :
  forallb (fun n => match parseInt (toString (Int (Z.of_nat n))) with
                    | Int z => z =? Z.of_nat n
                    | NaN => false
                    end) (seq 1 1024) = true.
Proof. vm_compute. reflexivity. Qed.

(** What the control prints is read back as the same count. *)
Lemma print_parse (z : Z) :
  1 <= z <= 1024 -> parseInt (toString (Int z)) = Int z.
Proof.
  intros Hz. pose proof print_parse_table as T.
  rewrite forallb_forall in T. specialize (T (Z.to_nat z)).
  rewrite Z2Nat.id in T by lia.
  destruct (parseInt (toString (Int z))) as [|z'].
  - discriminate T. apply in_seq. lia.
  - f_equal. apply Z.eqb_eq, T. apply in_seq. lia.
Qed.

Lemma blur_of_printed (z : Z) (show : bool) :
  1 <= z <= 1024 ->
  handleCustomNBlur {| customN := toString (Int z);
                       showCustomInput := show |} =
  ({| customN := toString (Int z); showCustomInput := show |}, [Int z]).
Proof.
  intros Hz. unfold handleCustomNBlur. cbn [customN].
  rewrite print_parse by assumption. cbn [isNaN cmp orb].
  destruct (Z.ltb_spec z 1); [lia|]. cbn [cmp]. rewrite Z.gtb_ltb.
  destruct (Z.ltb_spec 1024 z); [lia|]. reflexivity.
Qed.

Lemma change_of_printed (z : Z) (show : bool) :
  1 <= z <= 1024 ->
  handleCustomNChange (toString (Int z))
                      {| customN := toString (Int z);
                         showCustomInput := show |} =
  ({| customN := toString (Int z); showCustomInput := show |}, [Int z]).
Proof.
  intros Hz. unfold handleCustomNChange.
  rewrite print_parse by assumption. cbn [isNaN cmp negb andb].
  rewrite Z.geb_leb.
  destruct (Z.leb_spec 1 z); [|lia]. destruct (Z.leb_spec z 1024); [|lia].
  reflexivity.
Qed.

Lemma blur_value (st : state) :
  exists z, 1 <= z <= 1024 /\
            handleCustomNBlur st =
            ({| customN := toString (Int z);
                showCustomInput := showCustomInput st |}, [Int z]).
Proof.
  unfold handleCustomNBlur, setCustomN.
  destruct (parseInt (customN st)) as [|v]; cbn [isNaN cmp orb].
  - exists 1. split; [lia|reflexivity].
  - destruct (Z.ltb_spec v 1); cbn [cmp].
    + exists 1. split; [lia|reflexivity].
    + rewrite Z.gtb_ltb. destruct (Z.ltb_spec 1024 v).
      * exists 1024. split; [lia|reflexivity].
      * exists v. split; [lia|reflexivity].
Qed.

End ControlResults.

(** Leaving the input settles the control: the text then shows the count
    that was forwarded, and leaving it again, or typing that same text,
    forwards the same count and changes nothing; so does leaving the input
    after a click on a preset. *)
Theorem blur_settles_the_control (st : MethodControls.state) :
  exists z,
    (1 <= z <= 1024)%Z /\
    snd (MethodControls.handleCustomNBlur st) = [Int z] /\
    let st1 := fst (MethodControls.handleCustomNBlur st) in
    JsNumber.parseInt (MethodControls.customN st1) = Int z /\
    MethodControls.handleCustomNBlur st1 = (st1, [Int z]) /\
    MethodControls.handleCustomNChange (MethodControls.customN st1) st1 =
    (st1, [Int z]) /\
    forall i value,
      nth_error MethodControls.presetValues i = Some value ->
      let st2 := fst (MethodControls.handlePresetClick value st) in
      MethodControls.handleCustomNBlur st2 = (st2, [Int value]).
Proof.
  destruct (blur_value st) as (z & Hz & E). exists z.
  split; [assumption|]. rewrite E. cbn [fst snd].
  split; [reflexivity|]. split; [|split; [|split]].
  - cbn [MethodControls.customN]. now apply print_parse.
  - now apply blur_of_printed.
  - cbn [MethodControls.customN]. now apply change_of_printed.
  - intros i value Hi. cbn [MethodControls.handlePresetClick fst].
    unfold MethodControls.setShowCustomInput, MethodControls.setCustomN.
    cbn [MethodControls.customN MethodControls.showCustomInput].
    apply blur_of_printed. apply nth_error_In in Hi. cbn in Hi.
    intuition (subst; lia).
Qed.

Lemma blur_settles_the_control_witness :
  let st2 := fst (MethodControls.handlePresetClick
                    64 (MethodControls.initial 16)) in
  MethodControls.handleCustomNBlur st2 = (st2, [Int 64]).
Proof.
  destruct (blur_settles_the_control (MethodControls.initial 16))
    as (z & _ & _ & _ & _ & _ & H).
  apply (H 4%nat 64%Z). reflexivity.
Defined.

Section SliderResults.

Import JsNumber SliderControls.

Open Scope Z_scope.

Lemma indexOf_range (l : list Z) (x : Z) :
  indexOf l x = -1 \/ 0 <= indexOf l x < Z.of_nat (List.length l).
Proof.
  induction l as [|y l IH]; cbn [indexOf List.length]; [now left|].
  destruct (Z.eqb_spec y x); [right; lia|].
  destruct (Z.eqb_spec (indexOf l x) (-1)); [now left|]. right. lia.
Qed.

Lemma indexOf_absent (l : list Z) (x : Z) :
  indexOf l x = -1 <-> ~ In x l.
Proof.
  induction l as [|y l IH]; cbn [indexOf In]; [tauto|].
  pose proof (indexOf_range l x) as Hr.
  destruct (Z.eqb_spec y x).
  - split; [lia|]. intros H. exfalso. apply H. now left.
  - destruct (Z.eqb_spec (indexOf l x) (-1)) as [E|E].
    + split; [|reflexivity]. intros _. rewrite IH in E. tauto.
    + split; [lia|]. intros H. exfalso. apply E, IH. tauto.
Qed.

End SliderResults.

(** The slider and the count agree: the slider's position computed from
    any count is within the slider, a count that is no slider value shows
    at position 4, and moving the slider to position [i] forwards a count
    between 4 and 1024 whose position is [i] again; a value that does not
    parse to a position forwards [undefined]. *)
Theorem slider_position_round_trip :
  (forall n, (0 <= SliderControls.nIndex n <= 8)%Z) /\
  (forall n, ~ In n SliderControls.nValues -> SliderControls.nIndex n = 4%Z) /\
  (forall i, (0 <= i <= 8)%Z ->
             exists v,
               SliderControls.handleSliderChange (JsNumber.toString (Int i))
               = Some v /\
               (4 <= v <= 1024)%Z /\ SliderControls.nIndex v = i) /\
  (forall value,
      SliderControls.handleSliderChange value = None <->
      match JsNumber.parseInt value with
      | NaN => True
      | Int i => (i < 0 \/ 8 < i)%Z
      end).
Proof.
  split; [|split; [|split]].
  - intros n. unfold SliderControls.nIndex.
    pose proof (indexOf_range SliderControls.nValues n) as H.
    change (Z.of_nat (List.length SliderControls.nValues)) with 9%Z in H.
    destruct (Z.eqb_spec (SliderControls.indexOf SliderControls.nValues n)
                         (-1)); cbn [negb]; lia.
  - intros n Hn. apply indexOf_absent in Hn.
    unfold SliderControls.nIndex. rewrite Hn. reflexivity.
  - intros i Hi.
    assert (E : (i = 0 \/ i = 1 \/ i = 2 \/ i = 3 \/ i = 4 \/ i = 5
                 \/ i = 6 \/ i = 7 \/ i = 8)%Z) by lia.
    destruct E as [->|[->|[->|[->|[->|[->|[->|[->| ->]]]]]]]];
      eexists; (split; [vm_compute; reflexivity|]); split;
      try lia; reflexivity.
  - intros value. unfold SliderControls.handleSliderChange.
    destruct (JsNumber.parseInt value) as [|i]; cbn [SliderControls.at_index].
    + tauto.
    + destruct (Z.ltb_spec i 0); [split; [lia|reflexivity]|].
      rewrite nth_error_None.
      change (List.length SliderControls.nValues) with 9%nat. lia.
Qed.

Lemma slider_position_round_trip_witness :
  exists v,
    SliderControls.handleSliderChange (JsNumber.toString (Int 3)) = Some v /\
    (4 <= v <= 1024)%Z /\ SliderControls.nIndex v = 3%Z.
Proof.
  destruct slider_position_round_trip as (_ & _ & H & _).
  apply (H 3%Z). lia.
Defined.

(** * Further results: the analysis and its summary *)

Section LayoutFacts.

Open Scope R_scope.

Lemma insert_sorted_perm (n : nat) (l : list nat) :
  Permutation (insert_sorted n l) (n :: l).
Proof.
  induction l as [|m l IH]; cbn; [reflexivity|].
  destruct (n <=? m)%nat; [reflexivity|].
  rewrite IH. apply perm_swap.
Qed.

Lemma sorted_perm (l : list nat) : Permutation (sorted l) l.
Proof.
  induction l as [|n l IH]; cbn; [reflexivity|].
  rewrite insert_sorted_perm. now constructor.
Qed.

Lemma add_key_NoDup (ks : list method) (k : method) :
  NoDup ks -> NoDup (Dict.add_key method_eqb ks k).
Proof.
  intros H. unfold Dict.add_key. destruct (existsb _ ks) eqn:E; [assumption|].
  apply NoDup_app; auto.
  - repeat constructor. intros [].
  - intros x Hx [Hk|[]]. subst x.
    assert (existsb (method_eqb k) ks = true); [|congruence].
    apply existsb_exists. exists k. now rewrite method_eqb_refl.
Qed.

Lemma keys_NoDup (methods : list method) :
  NoDup (fold_left (Dict.add_key method_eqb) methods []).
Proof.
  induction methods as [|m methods IH] using rev_ind; [constructor|].
  rewrite fold_left_app. cbn [fold_left]. now apply add_key_NoDup.
Qed.

Lemma convergence_loop_zero (f : R -> R) (a b ex : R) (m : method)
      (prev : option (R * nat)) (ns : list nat) :
  convergence_loop f a b ex m prev (0%nat :: ns) = Raise ZeroDivisionError.
Proof. destruct m; reflexivity. Qed.

Lemma sorted_zero (l : list nat) :
  In 0%nat l -> exists rest, sorted l = 0%nat :: rest.
Proof.
  intros H. pose proof (sorted_ascending l) as Hs.
  apply sorted_In in H.
  destruct (sorted l) as [|x rest]; [contradiction|].
  apply StronglySorted_inv in Hs as [_ Hx]. rewrite Forall_forall in Hx.
  destruct H as [->|H]; [eauto|]. specialize (Hx _ H).
  assert (x = 0%nat) by lia. subst. eauto.
Qed.

Lemma fold_left_Rplus (l : list R) (acc : R) :
  fold_left Rplus l acc = acc + Py.sum l.
Proof.
  revert acc. induction l as [|x l IH]; intros acc; cbn; [lra|].
  rewrite IH. fold (Py.sum l). lra.
Qed.

Lemma sum_between (l : list R) (lo hi : R) :
  Forall (fun e => lo <= e <= hi) l ->
  INR (List.length l) * lo <= Py.sum l <= INR (List.length l) * hi.
Proof.
  induction 1 as [|e l He _ IH].
  - cbn. lra.
  - cbn [Py.sum fold_right]. fold (Py.sum l).
    change (List.length (e :: l)) with (S (List.length l)).
    rewrite S_INR. lra.
Qed.

Lemma eocValues_In (rs : list error_record) (e : R) :
  In e (eocValues rs) <-> exists r, In r rs /\ rec_eoc r = Some e.
Proof.
  unfold eocValues. rewrite in_flat_map. split.
  - intros (r & Hr & He). exists r. split; [assumption|].
    destruct (rec_eoc r); [|contradiction]. destruct He as [->|[]].
    reflexivity.
  - intros (r & Hr & He). exists r. split; [assumption|]. rewrite He.
    now left.
Qed.

Lemma getSummaryStats_cons (first : error_record) (rs : list error_record) :
  let all := first :: rs in
  let values := eocValues all in
  let last := List.last all first in
  getSummaryStats (Some all) =
  Some {| finalError := rec_abs_error last;
          finalN := rec_n last;
          avgEoc := if (List.length values =? 0)%nat then None
                    else Some (fold_left Rplus values 0
                               / INR (List.length values));
          firstError := rec_abs_error first;
          errorReduction :=
            if Req_dec_T (rec_abs_error last) 0 then None
            else Some (rec_abs_error first / rec_abs_error last) |}.
Proof. reflexivity. Qed.

Lemma ascending_strict (l : list nat) :
  StronglySorted le l -> NoDup l -> StronglySorted lt l.
Proof.
  induction 1 as [|n l Hs IH Hn]; intros Hd; constructor.
  - apply IH. now apply NoDup_cons_iff in Hd.
  - apply NoDup_cons_iff in Hd as [Hnotin _].
    rewrite Forall_forall in *. intros m Hm.
    specialize (Hn m Hm). assert (n <> m) by (intros ->; contradiction).
    lia.
Qed.

End LayoutFacts.

(** The winner line on any dict of final errors: [min] returns an entry
    that no entry undercuts and that undercuts every entry before it whose
    error is not NaN; an entry whose error is NaN is never picked over an
    earlier one, and when the error of the first entry is NaN the first
    entry is returned, whatever the others are. *)
Theorem min_against_nan (A : Type) (key : A -> pyfloat) (x : A)
        (rest : list A) :
  exists w l1 l2,
    py_min key (x :: rest) = Ok w /\
    x :: rest = l1 ++ w :: l2 /\
    (forall y, In y (x :: rest) -> Np.ltb (key y) (key w) = false) /\
    (forall y, In y l1 -> key y = nan \/ Np.ltb (key w) (key y) = true) /\
    (l1 <> [] -> key w <> nan) /\
    (key x = nan -> l1 = []).
Proof.
  unfold py_min.
  induction rest as [|z rest IH] using rev_ind.
  - exists x, [], []. cbn [fold_left]. repeat split; try reflexivity.
    + intros y [<-|[]]. apply ltb_irrefl.
    + intros y [].
    + intros H. now contradiction H.
  - destruct IH as (w & l1 & l2 & Hw & El & Hmin & Hbefore & Hnan & Hfirst).
    injection Hw as Hw. rewrite fold_left_app, Hw. cbn [fold_left].
    destruct (Np.ltb (key z) (key w)) eqn:Hz.
    + exists z, (x :: rest), []. split; [reflexivity|].
      split; [reflexivity|]. split; [|split; [|split]].
      * intros y Hy. change (In y ((x :: rest) ++ [z])) in Hy.
        apply in_app_iff in Hy as [Hy|[<-|[]]].
        -- now apply (ltb_below _ _ _ Hz (Hmin y Hy)).
        -- apply ltb_irrefl.
      * intros y Hy. now apply (ltb_below _ _ _ Hz (Hmin y Hy)).
      * intros _. now apply (ltb_true_not_nan _ _ Hz).
      * intros Hx. exfalso. apply (ltb_true_not_nan _ _ Hz).
        rewrite (Hfirst Hx) in El. injection El as <- _. exact Hx.
    + exists w, l1, (l2 ++ [z]). split; [reflexivity|]. split.
      * change (x :: rest ++ [z]) with ((x :: rest) ++ [z]).
        rewrite El, <- app_assoc. reflexivity.
      * split; [|auto]. intros y Hy.
        change (In y ((x :: rest) ++ [z])) in Hy.
        apply in_app_iff in Hy as [Hy|[<-|[]]]; [now apply Hmin|exact Hz].
Qed.

Lemma min_against_nan_witness :
  let errs := [(trapezoidal, nan); (midpoint, finite 0)] in
  exists w l1 l2,
    py_min snd errs = Ok w /\ errs = l1 ++ w :: l2 /\ l1 = [].
Proof.
  intros errs.
  destruct (min_against_nan (method * pyfloat) snd (trapezoidal, nan)
                            [(midpoint, finite 0)])
    as (w & l1 & l2 & Hw & El & _ & _ & _ & Hfirst).
  exists w, l1, l2. split; [exact Hw|]. split; [exact El|].
  apply Hfirst. reflexivity.
Defined.

(** On an integrand with finite values, in exact arithmetic, no final
    error is NaN: the winner of an analysis over a non-empty list of methods
    and distinct counts is then a requested method whose absolute error at
    the largest [n] is the smallest, and among the methods with exactly that
    error it is the one listed first. *)
Theorem winner_smallest_final_error
        (exact_integral : (R -> R) -> R -> R -> R * R)
        (f : R -> R) (a b : R) (methods : list method)
        (n_values : list nat) :
  methods <> [] -> n_values <> [] ->
  Forall (fun n => 1 <= n)%nat n_values -> NoDup n_values ->
  exists r,
    analyze_convergence exact_integral f a b methods n_values = Ok r /\
    In (winner r) methods /\
    forall m, In m methods ->
      exists rw rm,
        final_record r (winner r) = Some rw /\
        final_record r m = Some rm /\
        In (rec_n rm) n_values /\
        (forall n, In n n_values -> (n <= rec_n rm)%nat) /\
        rec_abs_error rw <= rec_abs_error rm /\
        (rec_abs_error rm = rec_abs_error rw ->
         (position (winner r) methods <= position m methods)%nat).
Proof.
  intros Hm Hn Hpos _.
  destruct (analyze_convergence_spec exact_integral f a b methods n_values
              Hm Hn Hpos) as (r & Hr & _ & Hin & _ & Hw & Hmin).
  exists r. split; [assumption|]. split; [assumption|]. intros m Hmm.
  destruct (Hmin m Hmm) as (rw & rm & Hrw & Hrm & Hle & Htie).
  exists rw, rm. split; [assumption|]. split; [assumption|].
  destruct (Hin m Hmm) as (rs & Hrs & Hg).
  unfold final_record in Hrm. rewrite Hg in Hrm.
  destruct (rev rs) as [|rec tl] eqn:Erev; [discriminate|].
  injection Hrm as ->.
  destruct (method_results_last _ _ _ _ _ _ _ _ _ Hrs Erev) as [H1 H2].
  auto.
Qed.

Lemma winner_smallest_final_error_witness :
  exists r,
    analyze_convergence (fun _ _ _ => (2, 0)) sin 0 PI
                        [midpoint; simpson; midpoint] [8; 4]%nat = Ok r /\
    In (winner r) [midpoint; simpson; midpoint] /\
    forall m, In m [midpoint; simpson; midpoint] ->
      exists rw rm,
        final_record r (winner r) = Some rw /\
        final_record r m = Some rm /\
        In (rec_n rm) [8; 4]%nat /\
        (forall n, In n [8; 4]%nat -> (n <= rec_n rm)%nat) /\
        rec_abs_error rw <= rec_abs_error rm /\
        (rec_abs_error rm = rec_abs_error rw ->
         (position (winner r) [midpoint; simpson; midpoint]
          <= position m [midpoint; simpson; midpoint])%nat).
Proof.
  apply (winner_smallest_final_error (fun _ _ _ => (2, 0)) sin 0 PI
           [midpoint; simpson; midpoint] [8; 4]%nat).
  - discriminate.
  - discriminate.
  - repeat constructor.
  - repeat constructor; cbn; intuition discriminate.
Defined.

(** The loops of [analyze_convergence]: for distinct counts, all at least
    1, they fill [results] with one entry per distinct requested method, each
    a list of records whose [n] are the requested counts in strictly
    ascending order, with [h = (b - a) / n] in every record; a count of zero
    makes the analysis of any method raise [ZeroDivisionError].  The loops are
    the report's; [compute_integral], [calculate_errors] and
    [calculate_eoc], which they call, are the modelled ones, on an integrand
    with finite values. *)
Theorem analysis_results_layout
        (f : R -> R) (a b exact_val : R) (methods : list method)
        (n_values : list nat) :
  (Forall (fun n => 1 <= n)%nat n_values -> NoDup n_values ->
   exists d,
     methods_loop f a b exact_val n_values [] methods = Ok d /\
     NoDup (Dict.keys d) /\
     (forall m, In m (Dict.keys d) <-> In m methods) /\
     forall m rs,
       Dict.get method_eqb d m = Some rs ->
       Permutation (map rec_n rs) n_values /\
       StronglySorted lt (map rec_n rs) /\
       Forall (fun r => rec_h r = (b - a) / INR (rec_n r)) rs) /\
  (In 0%nat n_values -> methods <> [] ->
   methods_loop f a b exact_val n_values [] methods =
   Raise ZeroDivisionError).
Proof.
  split.
  - intros Hpos Hnd.
    destruct (methods_loop_total f a b exact_val n_values Hpos methods [])
      as [d Hd].
    destruct (methods_loop_spec f a b exact_val n_values (fun _ => True)
                (fun _ _ _ => I) methods [] d Hd) as (Hk & Hin & Hout & _).
    exists d. split; [assumption|]. rewrite Hk. cbn [Dict.keys map].
    split; [apply keys_NoDup|]. split; [apply keys_In|].
    intros m rs Hg.
    assert (Hm : In m methods).
    { destruct (in_dec (fun x y => reflect_dec _ _ (method_eqb_spec x y))
                       m methods) as [H|H]; [assumption|].
      rewrite (Hout m H) in Hg. discriminate. }
    destruct (Hin m Hm) as (rs' & Hrs & Hg').
    rewrite Hg in Hg'. injection Hg' as <-.
    destruct (convergence_loop_n _ _ _ _ _ _ _ _ Hrs) as [Hns Hall].
    rewrite Hns. split; [apply sorted_perm|].
    split.
    + apply ascending_strict; [apply sorted_ascending|].
      apply (Permutation_NoDup (l := n_values)); [|assumption].
      symmetry. apply sorted_perm.
    + eapply Forall_impl; [|exact Hall]. cbn. intros r (Hh & _). exact Hh.
  - intros H0 Hm. destruct methods as [|m methods]; [congruence|].
    cbn [methods_loop]. unfold method_results.
    destruct (sorted_zero n_values H0) as [rest ->].
    now rewrite convergence_loop_zero.
Qed.

Lemma analysis_results_layout_witness :
  exists d,
    methods_loop sin 0 PI 2 [8; 4; 16]%nat [] [simpson; midpoint; simpson]
    = Ok d /\
    NoDup (Dict.keys d) /\
    (forall m, In m (Dict.keys d) <-> In m [simpson; midpoint; simpson]) /\
    forall m rs,
      Dict.get method_eqb d m = Some rs ->
      Permutation (map rec_n rs) [8; 4; 16]%nat /\
      StronglySorted lt (map rec_n rs) /\
      Forall (fun r => rec_h r = (PI - 0) / INR (rec_n r)) rs.
Proof.
  apply (analysis_results_layout sin 0 PI 2 [simpson; midpoint; simpson]
                                 [8; 4; 16]%nat).
  - repeat constructor.
  - repeat constructor; cbn; intuition discriminate.
Defined.

(** [getSummaryStats] gives nothing exactly for a method without records;
    otherwise its first error is that of the first record, its final error
    and final [n] are those of the last record, and its average order is
    missing exactly when no record has an order. *)
Theorem summary_statistics (results : option (list error_record)) :
  (getSummaryStats results = None <-> results = None \/ results = Some []) /\
  forall rs s,
    getSummaryStats (Some rs) = Some s ->
    (exists first, hd_error rs = Some first /\
                   firstError s = rec_abs_error first) /\
    (exists last, hd_error (rev rs) = Some last /\
                  finalError s = rec_abs_error last /\
                  finalN s = rec_n last) /\
    (avgEoc s = None <-> forall r, In r rs -> rec_eoc r = None).
Proof.
  split.
  - destruct results as [[|first rs]|]; cbn; split; auto;
      try discriminate; intros [H|H]; discriminate.
  - intros rs s. destruct rs as [|first rs]; [discriminate|].
    rewrite getSummaryStats_cons. cbv zeta.
    remember (first :: rs) as all eqn:Ea.
    remember (eocValues all) as values eqn:Ev.
    remember (List.last all first) as lastr eqn:El.
    intros [= <-].
    cbn [firstError finalError finalN avgEoc errorReduction].
    split; [exists first; split; [now rewrite Ea|reflexivity]|]. split.
    { exists lastr. split; [|split; reflexivity]. rewrite El.
      destruct (exists_last (l := all)) as (l' & x & E);
        [rewrite Ea; discriminate|].
      rewrite E, last_last, rev_app_distr. reflexivity. }
    destruct (Nat.eqb_spec (List.length values) 0) as [E|E].
    + split; [|reflexivity]. intros _ r Hr.
      destruct (rec_eoc r) as [e|] eqn:Er; [|reflexivity].
      assert (Hin : In e values) by (rewrite Ev; apply eocValues_In; eauto).
      destruct values; [destruct Hin|discriminate].
    + split; [discriminate|]. intros Hnone. exfalso. apply E.
      destruct values as [|e l]; [reflexivity|].
      assert (Hin : In e (eocValues all)) by (rewrite <- Ev; now left).
      apply eocValues_In in Hin as (r & Hr & He).
      rewrite (Hnone r Hr) in He. discriminate.
Qed.

Lemma summary_statistics_witness :
  let r4 := {| rec_n := 4; rec_h := 1 / 4; rec_approx := 3 / 4;
               rec_abs_error := 1 / 4; rec_rel_error := Some (1 / 4);
               rec_eoc := None |} in
  let r8 := {| rec_n := 8; rec_h := 1 / 8; rec_approx := 15 / 16;
               rec_abs_error := 1 / 16; rec_rel_error := Some (1 / 16);
               rec_eoc := Some 2 |} in
  exists s,
    getSummaryStats (Some [r4; r8]) = Some s /\
    (exists first, hd_error [r4; r8] = Some first /\
                   firstError s = rec_abs_error first) /\
    (exists last, hd_error (rev [r4; r8]) = Some last /\
                  finalError s = rec_abs_error last /\
                  finalN s = rec_n last) /\
    (avgEoc s = None <-> forall r, In r [r4; r8] -> rec_eoc r = None).
Proof.
  intros r4 r8. eexists. split; [reflexivity|].
  destruct (summary_statistics (Some [r4; r8])) as [_ H].
  apply H. reflexivity.
Defined.

(** In exact arithmetic the average order of [getSummaryStats] lies between
    any two bounds that hold for the orders of all the records that have
    one. *)
Theorem average_order_within_bounds
        (rs : list error_record) (s : summary) (avg lo hi : R) :
  getSummaryStats (Some rs) = Some s ->
  avgEoc s = Some avg ->
  (forall r e, In r rs -> rec_eoc r = Some e -> lo <= e <= hi) ->
  lo <= avg <= hi.
Proof.
  destruct rs as [|first rs]; [discriminate|].
  rewrite getSummaryStats_cons. cbv zeta.
  remember (first :: rs) as all eqn:Ea.
  remember (eocValues all) as values eqn:Ev.
  intros [= <-]. cbn [avgEoc].
  destruct (Nat.eqb_spec (List.length values) 0) as [E|E]; [discriminate|].
  intros [= <-] Hb.
  assert (Hall : Forall (fun e => lo <= e <= hi) values).
  { apply Forall_forall. intros e He. rewrite Ev in He.
    apply eocValues_In in He as (r & Hr & He). eauto. }
  apply sum_between in Hall. rewrite fold_left_Rplus.
  assert (Hpos : 0 < INR (List.length values))
    by (apply lt_0_INR; lia).
  set (k := INR (List.length values)) in *.
  set (t := Py.sum values) in *.
  replace ((0 + t) / k) with (t * / k) by (unfold Rdiv; ring).
  assert (Hi : 0 < / k) by now apply Rinv_0_lt_compat.
  split.
  - apply (Rmult_le_reg_r k); [assumption|].
    rewrite Rmult_assoc, Rinv_l by lra. lra.
  - apply (Rmult_le_reg_r k); [assumption|].
    rewrite Rmult_assoc, Rinv_l by lra. lra.
Qed.

Lemma average_order_within_bounds_witness :
  let r4 := {| rec_n := 4; rec_h := 1 / 4; rec_approx := 3 / 4;
               rec_abs_error := 1 / 4; rec_rel_error := Some (1 / 4);
               rec_eoc := None |} in
  let r8 := {| rec_n := 8; rec_h := 1 / 8; rec_approx := 15 / 16;
               rec_abs_error := 1 / 16; rec_rel_error := Some (1 / 16);
               rec_eoc := Some 2 |} in
  let r16 := {| rec_n := 16; rec_h := 1 / 16; rec_approx := 31 / 32;
                rec_abs_error := 1 / 32; rec_rel_error := Some (1 / 32);
                rec_eoc := Some 1 |} in
  exists s avg,
    getSummaryStats (Some [r4; r8; r16]) = Some s /\
    avgEoc s = Some avg /\ 1 <= avg <= 2.
Proof.
  intros r4 r8 r16. eexists. eexists.
  split; [reflexivity|]. split; [reflexivity|].
  eapply (average_order_within_bounds [r4; r8; r16] _ _ 1 2).
  - reflexivity.
  - reflexivity.
  - intros r e [<-|[<-|[<-|[]]]]; cbn; intros [= <-]; lra.
Defined.
